(** * pokerlib: a shallow embedding of the hand state machine

    The development follows the Go sources of the engine (package
    [pokerlib]): the game object of the round engine, with its seat
    registry, turn order, allowed actions, round closure and round
    advancement, and the card shuffles of the deck files.

    Conventions.
    - Go's [int] and [int64] are modelled as [Z]; additions the code performs
      on them are wrapped with [wrap64].
    - A Go run-time panic (nil dereference, index out of range) is the
      [None] of the option monad; a nil [Player] is the [None] of a seat
      handle.
    - A [Player] object is a pointer to the [PlayerState] it shares with
      [gs.Players]; it is modelled by the position of that state in the
      list, so that a mutation through the player is a mutation of the
      game state.
    - Every routine of the engine ends in [return g.EmitEvent(ev)] or in a
      plain return; the dispatcher itself is not part of the sources read
      here, so a routine yields an [outcome] that records the event it hands
      to the dispatcher together with the state at that moment. *)

From Stdlib Require Import ZArith Lia.
From stdpp Require Import base list strings gmap.

Open Scope Z_scope.

(** ** Machine integers *)

Definition wrap64 (z : Z) : Z := (z + 2 ^ 63) `mod` 2 ^ 64 - 2 ^ 63.

Definition in_int64 (z : Z) : Prop := - 2 ^ 63 <= z < 2 ^ 63.

(** ** Data model *)

Record PlayerState := mkPlayerState {
  Idx : Z;
  Positions : list string;
  Bankroll : Z;
  InitialStackSize : Z;
  StackSize : Z;
  Wager : Z;
  Pot : Z;
  VPIP : bool;
  Fold : bool;
  Acted : bool;
  DidAction : string;
  AllowedActions : list string;
  HoleCards : list string
}.

Record PotLayer := mkPotLayer {
  Level : Z;
  Contributors : list Z;
  Total : Z;
  Winners : list Z
}.

Record Action := mkAction {
  Source : Z;
  AType : string;
  Value : Z
}.

Record BlindSetting := mkBlind {
  BlindDealer : Z;
  SB : Z;
  BB : Z
}.

Record Meta := mkMeta {
  Ante : Z;
  Blind : BlindSetting;
  Limit : string;
  HoleCardsCount : Z;
  RequiredHoleCardsCount : Z;
  Deck : list string;
  BurnCount : Z
}.

Record Status := mkStatus {
  Round : string;
  CurrentEvent : string;
  Pots : list PotLayer;
  Board : list string;
  Burned : list string;
  CurrentDeckPosition : Z;
  MiniBet : Z;
  PreviousRaiseSize : Z;
  MaxWager : Z;
  CurrentRoundPot : Z;
  CurrentWager : Z;
  CurrentRaiser : Z;
  CurrentPlayer : Z;
  LastAction : option Action
}.

Record GameState := mkGameState {
  meta : Meta;
  status : Status;
  Players : list PlayerState
}.

(** The [game] struct: the state, the seat registry [players] (a Go
    [map[int]Player]) and the three position holders.  A player is the
    position of its state in [Players gs]. *)
Record game := mkGame {
  gs : GameState;
  players : gmap Z nat;
  dealer : option nat;
  smallBlind : option nat;
  bigBlind : option nat
}.

Record PlayerSetting := mkPlayerSetting {
  SPositions : list string;
  SBankroll : Z
}.

Record GameOptions := mkGameOptions {
  OAnte : Z;
  OBlind : BlindSetting;
  OLimit : string;
  OHoleCardsCount : Z;
  ORequiredHoleCardsCount : Z;
  ODeck : list string;
  OBurnCount : Z;
  OPlayers : list PlayerSetting
}.

Inductive error :=
| ErrNoDeck
| ErrNotEnoughBackroll
| ErrNoDealer
| ErrInsufficientNumberOfPlayers
| ErrUnknownRound
| ErrNotFoundDealer
| ErrUnknownTask
| ErrNotClosedRound
| ErrIllegalAction
| ErrAmountOutOfRange.

Inductive GameEvent :=
| GameEvent_Started
| GameEvent_Initialized
| GameEvent_ReadyRequested
| GameEvent_AnteRequested
| GameEvent_AntePaid
| GameEvent_BlindsRequested
| GameEvent_BlindsPaid
| GameEvent_PreflopRoundEntered
| GameEvent_FlopRoundEntered
| GameEvent_TurnRoundEntered
| GameEvent_RiverRoundEntered
| GameEvent_RoundInitialized
| GameEvent_RoundPrepared
| GameEvent_RoundStarted
| GameEvent_RoundClosed
| GameEvent_GameCompleted
| GameEvent_SettlementRequested
| GameEvent_SettlementCompleted
| GameEvent_GameClosed.

(** What a routine of the engine does when it returns: it returns nil
    ([Done]), returns an error ([Fail]), or returns the result of
    [g.EmitEvent(ev)] ([Emit]); the state is the one reached at that
    point. *)
Inductive outcome :=
| Done (g : game)
| Fail (e : error) (g : game)
| Emit (ev : GameEvent) (g : game).

(** ** Field updates *)

Definition set_status (f : Status -> Status) (g : game) : game :=
  mkGame (mkGameState (meta (gs g)) (f (status (gs g))) (Players (gs g)))
         (players g) (dealer g) (smallBlind g) (bigBlind g).

Definition set_meta (f : Meta -> Meta) (g : game) : game :=
  mkGame (mkGameState (f (meta (gs g))) (status (gs g)) (Players (gs g)))
         (players g) (dealer g) (smallBlind g) (bigBlind g).

Definition set_Players (f : list PlayerState -> list PlayerState) (g : game) : game :=
  mkGame (mkGameState (meta (gs g)) (status (gs g)) (f (Players (gs g))))
         (players g) (dealer g) (smallBlind g) (bigBlind g).

(** Mutation of the state a player points to. *)
Definition update_player (h : nat) (f : PlayerState -> PlayerState) (g : game) : game :=
  set_Players (alter f h) g.

Definition with_Round (r : string) (s : Status) : Status :=
  mkStatus r (CurrentEvent s) (Pots s) (Board s) (Burned s) (CurrentDeckPosition s)
    (MiniBet s) (PreviousRaiseSize s) (MaxWager s) (CurrentRoundPot s)
    (CurrentWager s) (CurrentRaiser s) (CurrentPlayer s) (LastAction s).

Definition with_CurrentEvent (e : string) (s : Status) : Status :=
  mkStatus (Round s) e (Pots s) (Board s) (Burned s) (CurrentDeckPosition s)
    (MiniBet s) (PreviousRaiseSize s) (MaxWager s) (CurrentRoundPot s)
    (CurrentWager s) (CurrentRaiser s) (CurrentPlayer s) (LastAction s).

Definition with_Pots (p : list PotLayer) (s : Status) : Status :=
  mkStatus (Round s) (CurrentEvent s) p (Board s) (Burned s) (CurrentDeckPosition s)
    (MiniBet s) (PreviousRaiseSize s) (MaxWager s) (CurrentRoundPot s)
    (CurrentWager s) (CurrentRaiser s) (CurrentPlayer s) (LastAction s).

Definition with_Board (b : list string) (s : Status) : Status :=
  mkStatus (Round s) (CurrentEvent s) (Pots s) b (Burned s) (CurrentDeckPosition s)
    (MiniBet s) (PreviousRaiseSize s) (MaxWager s) (CurrentRoundPot s)
    (CurrentWager s) (CurrentRaiser s) (CurrentPlayer s) (LastAction s).

Definition with_Burned (b : list string) (s : Status) : Status :=
  mkStatus (Round s) (CurrentEvent s) (Pots s) (Board s) b (CurrentDeckPosition s)
    (MiniBet s) (PreviousRaiseSize s) (MaxWager s) (CurrentRoundPot s)
    (CurrentWager s) (CurrentRaiser s) (CurrentPlayer s) (LastAction s).

Definition with_CurrentDeckPosition (d : Z) (s : Status) : Status :=
  mkStatus (Round s) (CurrentEvent s) (Pots s) (Board s) (Burned s) d
    (MiniBet s) (PreviousRaiseSize s) (MaxWager s) (CurrentRoundPot s)
    (CurrentWager s) (CurrentRaiser s) (CurrentPlayer s) (LastAction s).

Definition with_MiniBet (m : Z) (s : Status) : Status :=
  mkStatus (Round s) (CurrentEvent s) (Pots s) (Board s) (Burned s) (CurrentDeckPosition s)
    m (PreviousRaiseSize s) (MaxWager s) (CurrentRoundPot s)
    (CurrentWager s) (CurrentRaiser s) (CurrentPlayer s) (LastAction s).

Definition with_PreviousRaiseSize (z : Z) (s : Status) : Status :=
  mkStatus (Round s) (CurrentEvent s) (Pots s) (Board s) (Burned s) (CurrentDeckPosition s)
    (MiniBet s) z (MaxWager s) (CurrentRoundPot s)
    (CurrentWager s) (CurrentRaiser s) (CurrentPlayer s) (LastAction s).

Definition with_MaxWager (z : Z) (s : Status) : Status :=
  mkStatus (Round s) (CurrentEvent s) (Pots s) (Board s) (Burned s) (CurrentDeckPosition s)
    (MiniBet s) (PreviousRaiseSize s) z (CurrentRoundPot s)
    (CurrentWager s) (CurrentRaiser s) (CurrentPlayer s) (LastAction s).

Definition with_CurrentRoundPot (z : Z) (s : Status) : Status :=
  mkStatus (Round s) (CurrentEvent s) (Pots s) (Board s) (Burned s) (CurrentDeckPosition s)
    (MiniBet s) (PreviousRaiseSize s) (MaxWager s) z
    (CurrentWager s) (CurrentRaiser s) (CurrentPlayer s) (LastAction s).

Definition with_CurrentWager (z : Z) (s : Status) : Status :=
  mkStatus (Round s) (CurrentEvent s) (Pots s) (Board s) (Burned s) (CurrentDeckPosition s)
    (MiniBet s) (PreviousRaiseSize s) (MaxWager s) (CurrentRoundPot s)
    z (CurrentRaiser s) (CurrentPlayer s) (LastAction s).

Definition with_CurrentRaiser (z : Z) (s : Status) : Status :=
  mkStatus (Round s) (CurrentEvent s) (Pots s) (Board s) (Burned s) (CurrentDeckPosition s)
    (MiniBet s) (PreviousRaiseSize s) (MaxWager s) (CurrentRoundPot s)
    (CurrentWager s) z (CurrentPlayer s) (LastAction s).

Definition with_CurrentPlayer (z : Z) (s : Status) : Status :=
  mkStatus (Round s) (CurrentEvent s) (Pots s) (Board s) (Burned s) (CurrentDeckPosition s)
    (MiniBet s) (PreviousRaiseSize s) (MaxWager s) (CurrentRoundPot s)
    (CurrentWager s) (CurrentRaiser s) z (LastAction s).

Definition with_LastAction (a : option Action) (s : Status) : Status :=
  mkStatus (Round s) (CurrentEvent s) (Pots s) (Board s) (Burned s) (CurrentDeckPosition s)
    (MiniBet s) (PreviousRaiseSize s) (MaxWager s) (CurrentRoundPot s)
    (CurrentWager s) (CurrentRaiser s) (CurrentPlayer s) a.

Definition with_Deck (d : list string) (m : Meta) : Meta :=
  mkMeta (Ante m) (Blind m) (Limit m) (HoleCardsCount m) (RequiredHoleCardsCount m)
    d (BurnCount m).

Definition with_AllowedActions (a : list string) (p : PlayerState) : PlayerState :=
  mkPlayerState (Idx p) (Positions p) (Bankroll p) (InitialStackSize p) (StackSize p)
    (Wager p) (Pot p) (VPIP p) (Fold p) (Acted p) (DidAction p) a (HoleCards p).

Definition with_Acted (b : bool) (p : PlayerState) : PlayerState :=
  mkPlayerState (Idx p) (Positions p) (Bankroll p) (InitialStackSize p) (StackSize p)
    (Wager p) (Pot p) (VPIP p) (Fold p) b (DidAction p) (AllowedActions p) (HoleCards p).

Definition with_VPIP (b : bool) (p : PlayerState) : PlayerState :=
  mkPlayerState (Idx p) (Positions p) (Bankroll p) (InitialStackSize p) (StackSize p)
    (Wager p) (Pot p) b (Fold p) (Acted p) (DidAction p) (AllowedActions p) (HoleCards p).

Definition with_Fold (b : bool) (p : PlayerState) : PlayerState :=
  mkPlayerState (Idx p) (Positions p) (Bankroll p) (InitialStackSize p) (StackSize p)
    (Wager p) (Pot p) (VPIP p) b (Acted p) (DidAction p) (AllowedActions p) (HoleCards p).

Definition with_DidAction (a : string) (p : PlayerState) : PlayerState :=
  mkPlayerState (Idx p) (Positions p) (Bankroll p) (InitialStackSize p) (StackSize p)
    (Wager p) (Pot p) (VPIP p) (Fold p) (Acted p) a (AllowedActions p) (HoleCards p).

Definition with_HoleCards (c : list string) (p : PlayerState) : PlayerState :=
  mkPlayerState (Idx p) (Positions p) (Bankroll p) (InitialStackSize p) (StackSize p)
    (Wager p) (Pot p) (VPIP p) (Fold p) (Acted p) (DidAction p) (AllowedActions p) c.

Definition with_chips (stack wager pot : Z) (p : PlayerState) : PlayerState :=
  mkPlayerState (Idx p) (Positions p) (Bankroll p) (InitialStackSize p) stack
    wager pot (VPIP p) (Fold p) (Acted p) (DidAction p) (AllowedActions p) (HoleCards p).

Definition with_InitialStackSize (z : Z) (p : PlayerState) : PlayerState :=
  mkPlayerState (Idx p) (Positions p) (Bankroll p) z (StackSize p)
    (Wager p) (Pot p) (VPIP p) (Fold p) (Acted p) (DidAction p) (AllowedActions p) (HoleCards p).

(** ** Deck: arrays in a store, and the shuffles

    [ShuffleCards] receives a slice and returns a slice.  Backing arrays live
    in a store indexed by address, so that the claim that the argument is
    left alone is a statement about the store.  An index out of range is a
    run-time panic ([None]). *)

Abbreviation store := (gmap nat (list string)).

(** The sources of randomness: the outcome of the call of [rand.Int] made in
    pass [pass] at loop index [i] ([None]: the call returned an error), and
    the 64-bit value read from [timeBasedSeed] at loop index [i]. *)
Record Entropy := mkEntropy {
  rand_int : nat -> nat -> option nat;
  time_seed : nat -> N
}.

Definition make (n : nat) (σ : store) : nat * store :=
  let a := fresh (dom σ) in (a, <[a := replicate n ""]> σ).

Definition sget (a i : nat) (σ : store) : option string :=
  l ← σ !! a; l !! i.

Definition sset (a i : nat) (v : string) (σ : store) : option store :=
  l ← σ !! a;
  if decide (i < length l)%nat then Some (<[a := <[i := v]> l]> σ) else None.

(** [copy(dst, src)]: the first [min (len dst) (len src)] cells of [dst] are
    overwritten. *)
Definition scopy (dst : nat) (src : list string) (σ : store) : option store :=
  d ← σ !! dst;
  Some (<[dst := take (length d) src ++ drop (length src) d]> σ).

(** [a[i], a[j] = a[j], a[i]]: both cells are read, then both written. *)
Definition sswap (a i j : nat) (σ : store) : option store :=
  x ← sget a i σ;
  y ← sget a j σ;
  σ1 ← sset a i y σ;
  sset a j x σ1.

(** The index drawn at step [i] of a crypto pass: [rand.Int(rand.Reader, i+1)]
    lies in [0, i]; when it fails, the time seed modulo [i+1] is used. *)
Definition draw (ent : Entropy) (pass i : nat) : nat :=
  match rand_int ent pass i with
  | Some v => (v `mod` (i + 1))%nat
  | None => N.to_nat (time_seed ent i `mod` N.of_nat (i + 1))%N
  end.

(** [for i := len(result) - 1; i > 0; i--] with the swap of the first pass. *)
Fixpoint fisher_yates (ent : Entropy) (pass a i : nat) (σ : store) : option store :=
  match i with
  | O => Some σ
  | S i' => σ' ← sswap a i (draw ent pass i) σ; fisher_yates ent pass a i' σ'
  end.

Module Deck.

(** deck.go: copy, then one Fisher-Yates pass. *)
Definition ShuffleCards (ent : Entropy) (cards : nat) (σ : store)
  : option (nat * store) :=
  l ← σ !! cards;
  let '(result, σ1) := make (length l) σ in
  σ2 ← scopy result l σ1;
  σ3 ← fisher_yates ent 1 result (length l - 1) σ2;
  Some (result, σ3).

End Deck.

(** FNV-1a, 64 bits, over the bytes of the card. *)
Definition fnv_offset64 : N := 14695981039346656037%N.
Definition fnv_prime64 : N := 1099511628211%N.

Fixpoint fnv64a_from (h : N) (s : string) : N :=
  match s with
  | EmptyString => h
  | String c s' =>
      fnv64a_from ((N.lxor h (Ascii.N_of_ascii c) * fnv_prime64) `mod` 2 ^ 64)%N s'
  end.

Definition fnv64a (s : string) : N := fnv64a_from fnv_offset64 s.

(** The half shuffles of the second pass: the index is the hash of the card
    at [i] modulo [i+1]. *)
Fixpoint hash_shuffle (a i : nat) (σ : store) : option store :=
  match i with
  | O => Some σ
  | S i' =>
      c ← sget a i σ;
      σ' ← sswap a i (N.to_nat (fnv64a c `mod` N.of_nat (i + 1))%N) σ;
      hash_shuffle a i' σ'
  end.

(** The interleaving loop: [k] iterations remain, [i] is the loop variable,
    [index] the write cursor; the final cursor is returned. *)
Fixpoint interleave (k i index n result firstHalf secondHalf : nat) (σ : store)
  : option (nat * store) :=
  match k with
  | O => Some (index, σ)
  | S k' =>
      x ← sget firstHalf i σ;
      σ1 ← sset result index x σ;
      s ← σ1 !! secondHalf;
      if decide (S index < n ∧ i < length s)%nat then
        y ← sget secondHalf i σ1;
        σ2 ← sset result (S index) y σ1;
        interleave k' (S i) (S (S index)) n result firstHalf secondHalf σ2
      else
        interleave k' (S i) (S index) n result firstHalf secondHalf σ1
  end.

(** [for i := len(firstHalf); i < len(secondHalf); i++]. *)
Fixpoint remainder (k i index result secondHalf : nat) (σ : store) : option store :=
  match k with
  | O => Some σ
  | S k' =>
      y ← sget secondHalf i σ;
      σ1 ← sset result index y σ;
      remainder k' (S i) (S index) result secondHalf σ1
  end.

Definition offsets : list nat := [7; 11; 13; 17; 19; 23; 29; 31; 37; 41; 43; 47]%nat.

(** [for i := 0; i < n; i++ { result[(i+offset)%n] = tmpDeck[i] }]. *)
Fixpoint offset_mix (k i offset n result tmpDeck : nat) (σ : store) : option store :=
  match k with
  | O => Some σ
  | S k' =>
      x ← sget tmpDeck i σ;
      σ1 ← sset result ((i + offset) `mod` n)%nat x σ;
      offset_mix k' (S i) offset n result tmpDeck σ1
  end.

Fixpoint offsets_pass (offs : list nat) (n result : nat) (σ : store) : option store :=
  match offs with
  | [] => Some σ
  | offset :: rest =>
      if decide (n <= offset)%nat then offsets_pass rest n result σ
      else
        let '(tmpDeck, σ1) := make n σ in
        r ← σ1 !! result;
        σ2 ← scopy tmpDeck r σ1;
        σ3 ← offset_mix n 0 offset n result tmpDeck σ2;
        offsets_pass rest n result σ3
  end.

(** The last pass: the swap is skipped when [rand.Int] fails. *)
Fixpoint final_pass (ent : Entropy) (a i : nat) (σ : store) : option store :=
  match i with
  | O => Some σ
  | S i' =>
      match rand_int ent 4 i with
      | Some v => σ' ← sswap a i (v `mod` (i + 1))%nat σ; final_pass ent a i' σ'
      | None => final_pass ent a i' σ
      end
  end.

Module DeckMultiPass.

(** The four-pass variant of the deck file. *)
Definition ShuffleCards (ent : Entropy) (cards : nat) (σ : store)
  : option (nat * store) :=
  l ← σ !! cards;
  let '(result, σ1) := make (length l) σ in
  σ2 ← scopy result l σ1;
  σ3 ← fisher_yates ent 1 result (length l - 1) σ2;
  r ← σ3 !! result;
  let n := length r in
  let '(firstHalf, σ4) := make (n / 2) σ3 in
  let '(secondHalf, σ5) := make (n - n / 2) σ4 in
  σ6 ← scopy firstHalf (take (n / 2) r) σ5;
  σ7 ← scopy secondHalf (drop (n / 2) r) σ6;
  σ8 ← hash_shuffle firstHalf (n / 2 - 1) σ7;
  σ9 ← hash_shuffle secondHalf (n - n / 2 - 1) σ8;
  '(index, σ10) ← interleave (n / 2) 0 0 n result firstHalf secondHalf σ9;
  σ11 ← remainder (n - n / 2 - n / 2) (n / 2) index result secondHalf σ10;
  σ12 ← offsets_pass offsets n result σ11;
  σ13 ← final_pass ent result (n - 1) σ12;
  Some (result, σ13).

End DeckMultiPass.

(** The deck as the game sees it: the contents of the slice returned by the
    shuffle of deck.go, run on a store that holds the deck alone. *)
Definition shuffle_deck (ent : Entropy) (deck : list string) : list string :=
  match Deck.ShuffleCards ent 0%nat {[ 0%nat := deck ]} with
  | Some (r, σ) => default deck (σ !! r)
  | None => deck
  end.

(** ** The player object (player.go is not among the sources read) *)

(** Modelled from the spec: [player.SeatIndex], missing from the sources;
    the seat index of a player is the fixed, 0-based index recorded in its
    state. *)
Definition SeatIndex (g : game) (h : nat) : option Z :=
  Idx <$> Players (gs g) !! h.

(** Modelled from the spec: [player.CheckPosition], missing from the
    sources; the positions of a player are a subset of dealer, sb, bb, and
    the check is membership. *)
Definition CheckPosition (ps : PlayerState) (pos : string) : bool :=
  bool_decide (pos ∈ Positions ps).

(** Modelled from the spec: [player.ResetAllowedActions] and
    [player.AllowActions], missing from the sources; the allowed-actions
    list is emptied when the focus leaves the seat and recomputed when the
    player becomes current. *)
Definition ResetAllowedActions (ps : PlayerState) : PlayerState :=
  with_AllowedActions [] ps.

Definition AllowActions (actions : list string) (ps : PlayerState) : PlayerState :=
  with_AllowedActions actions ps.

(** Modelled from the spec: [player.Reset], missing from the sources; it is
    what [ResetAllPlayerAllowedActions] applies to every player before a
    round is played: the allowed actions are emptied and the per-round
    [acted] flag is cleared. *)
Definition Reset (ps : PlayerState) : PlayerState :=
  with_Acted false (with_AllowedActions [] ps).

(** ** The game object (game.go) *)

Definition zeroStatus : Status :=
  mkStatus "" "" [] [] [] 0 0 0 0 0 0 0 0 None.

Definition emptyGame : game :=
  mkGame (mkGameState (mkMeta 0 (mkBlind 0 0 0) "" 0 0 [] 0) zeroStatus []) ∅ None None None.

Definition GetPlayerCount (g : game) : Z :=
  Z.of_nat (length (Players (gs g))).

Definition addPlayer (h : nat) (g : game) : option game :=
  ps ← Players (gs g) !! h;
  let d := if CheckPosition ps "dealer" then Some h else dealer g in
  let sb := if CheckPosition ps "sb" then Some h else smallBlind g in
  let bb := if CheckPosition ps "sb" then bigBlind g
            else if CheckPosition ps "bb" then Some h else bigBlind g in
  Some (mkGame (gs g) (<[Idx ps := h]> (players g)) d sb bb).

Definition AddPlayer (idx : Z) (setting : PlayerSetting) (g : game) : option game :=
  let ps := mkPlayerState idx (SPositions setting) (SBankroll setting)
              (SBankroll setting) (SBankroll setting) 0 0 false false false "" [] [] in
  let h := length (Players (gs g)) in
  addPlayer h (set_Players (λ l, l ++ [ps]) g).

Fixpoint addPlayers (idx : Z) (l : list PlayerSetting) (g : game) : option game :=
  match l with
  | [] => Some g
  | p :: l' => g' ← AddPlayer idx p g; addPlayers (idx + 1) l' g'
  end.

Definition ApplyOptions (opts : GameOptions) (g : game) : option game :=
  let g0 := mkGame (mkGameState
                      (mkMeta (OAnte opts) (OBlind opts) (OLimit opts) (OHoleCardsCount opts)
                         (ORequiredHoleCardsCount opts) (ODeck opts) (OBurnCount opts))
                      zeroStatus [])
              (players g) (dealer g) (smallBlind g) (bigBlind g) in
  addPlayers 0 (OPlayers opts) g0.

Definition NewGame (opts : GameOptions) : option game :=
  ApplyOptions opts emptyGame.

Fixpoint loadPlayers (k h : nat) (g : game) : option game :=
  match k with
  | O => Some g
  | S k' => g' ← addPlayer h g; loadPlayers k' (S h) g'
  end.

Definition LoadState (s : GameState) (g : game) : option game :=
  loadPlayers (length (Players s)) 0
    (mkGame s (players g) (dealer g) (smallBlind g) (bigBlind g)).

Definition NewGameFromState (s : GameState) : option game :=
  LoadState s emptyGame.

(** [Player(idx)]: nil outside of the seats, the registry entry inside. *)
Definition Player (g : game) (idx : Z) : option nat :=
  if decide (idx < 0 ∨ idx >= GetPlayerCount g) then None
  else players g !! idx.

Definition Dealer (g : game) : option nat := dealer g.

(** [Deal(count)]: [make] with a negative capacity panics, so does a read
    past the deck. *)
Fixpoint deal_loop (k : nat) (i : Z) (cards : list string) (g : game)
  : option (list string * game) :=
  match k with
  | O => Some (cards, g)
  | S k' =>
      if decide (i < 0) then None
      else
        c ← Deck (meta (gs g)) !! Z.to_nat i;
        deal_loop k' (wrap64 (i + 1)) (cards ++ [c])
          (set_status (λ s, with_CurrentDeckPosition
                              (wrap64 (CurrentDeckPosition s + 1)) s) g)
  end.

Definition Deal (count : Z) (g : game) : option (list string * game) :=
  if decide (count < 0) then None
  else
    let pos := CurrentDeckPosition (status (gs g)) in
    let finalPos := wrap64 (pos + count) in
    deal_loop (Z.to_nat (finalPos - pos)) pos [] g.

Definition Burn (count : Z) (g : game) : option game :=
  '(cards, g') ← Deal count g;
  Some (set_status (λ s, with_Burned (Burned s ++ cards) s) g').

(** [GetPlayers]: the seats in order, the dealer first; an entry is nil when
    the registry has no player at the seat. *)
Fixpoint getPlayers_loop (k : nat) (cur : Z) (acc : list (option nat)) (g : game)
  : list (option nat) :=
  match k with
  | O => acc
  | S k' =>
      let acc' := acc ++ [players g !! cur] in
      let cur1 := wrap64 (cur + 1) in
      let cur2 := if decide (cur1 = GetPlayerCount g) then 0 else cur1 in
      getPlayers_loop k' cur2 acc' g
  end.

Definition GetPlayers (g : game) : option (list (option nat)) :=
  d ← Dealer g;
  cur ← SeatIndex g d;
  Some (getPlayers_loop (length (Players (gs g))) cur [] g).

(** A [range] loop over [GetPlayers] that mutates the state of each player;
    a nil entry is a nil dereference. *)
Fixpoint for_players (l : list (option nat)) (f : PlayerState -> PlayerState) (g : game)
  : option game :=
  match l with
  | [] => Some g
  | None :: _ => None
  | Some h :: l' =>
      if decide (h < length (Players (gs g)))%nat
      then for_players l' f (update_player h f g)
      else None
  end.

Definition ResetAllPlayerAllowedActions (g : game) : option game :=
  l ← GetPlayers g;
  for_players l Reset g.

Definition resetPlayerStatus (ps : PlayerState) : PlayerState :=
  let ps1 := with_AllowedActions [] ps in
  let ps2 := with_chips (StackSize ps1) (Wager ps1) (wrap64 (Pot ps1 + Wager ps1)) ps1 in
  let ps3 := with_chips (StackSize ps2) 0 (Pot ps2) ps2 in
  let ps4 := with_InitialStackSize (StackSize ps3) ps3 in
  if Fold ps4 then with_DidAction "fold" ps4
  else if decide (InitialStackSize ps4 = 0) then with_DidAction "allin" ps4
  else with_DidAction "" ps4.

Definition ResetAllPlayerStatus (g : game) : option game :=
  l ← GetPlayers g;
  for_players l resetPlayerStatus g.

Definition ResetRoundStatus (g : game) : option game :=
  d ← Dealer g;
  idx ← SeatIndex g d;
  Some (set_status (λ s,
          with_CurrentPlayer idx
            (with_CurrentRaiser idx
               (with_CurrentWager 0
                  (with_CurrentRoundPot 0
                     (with_MaxWager 0
                        (with_PreviousRaiseSize 0 s)))))) g).

Definition GetCurrentPlayer (g : game) : option nat :=
  Player g (CurrentPlayer (status (gs g))).

(** [NextPlayer]: the body of the loop returns in its first iteration, so the
    loop runs at most once, and only when there are at least two players. *)
Definition NextPlayer (g : game) : option (option nat) :=
  let cur := CurrentPlayer (status (gs g)) in
  let playerCount := GetPlayerCount g in
  if decide (1 < playerCount) then
    let cur1 := wrap64 (cur + 1) in
    let cur2 := if decide (cur1 = playerCount) then 0 else cur1 in
    if decide (cur2 < 0) then None
    else
      p ← Players (gs g) !! Z.to_nat cur2;
      Some (Player g (Idx p))
  else Some None.

Definition setCurrentPlayer (p : option nat) (g : game) : option game :=
  match p with
  | None => Some (set_status (with_CurrentPlayer (-1)) g)
  | Some h =>
      idx ← SeatIndex g h;
      Some (set_status (with_CurrentPlayer idx) g)
  end.

Definition GetAvailableActions (g : game) (p : option nat) : option (list string) :=
  match p with
  | None => Some []
  | Some h =>
      ps ← Players (gs g) !! h;
      let st := status (gs g) in
      if Fold ps then Some ["pass"]
      else if decide (StackSize ps = 0) then Some ["pass"]
      else
        let actions := ["allin"] in
        if decide (Wager ps < CurrentWager st) then
          let actions := actions ++ ["fold"] in
          if decide (InitialStackSize ps > CurrentWager st) then
            let actions := actions ++ ["call"] in
            if decide (InitialStackSize ps > wrap64 (CurrentWager st + PreviousRaiseSize st))
            then Some (actions ++ ["raise"])
            else Some actions
          else Some actions
        else
          let actions := actions ++ ["check"] in
          if decide (InitialStackSize ps >= MiniBet st) then
            if decide (CurrentWager st = 0) then Some (actions ++ ["bet"])
            else Some (actions ++ ["raise"])
          else Some actions
  end.

Definition GetAllowedActions (g : game) (p : option nat) : option (list string) :=
  h ← p;
  idx ← SeatIndex g h;
  if decide (CurrentPlayer (status (gs g)) = idx) then GetAvailableActions g p
  else Some [].

Definition SetCurrentPlayer (p : option nat) (g : game) : option game :=
  g1 ← (if decide (CurrentPlayer (status (gs g)) ≠ -1) then
          h ← GetCurrentPlayer g;
          _ ← Players (gs g) !! h;
          Some (update_player h ResetAllowedActions g)
        else Some g);
  g2 ← setCurrentPlayer p g1;
  match p with
  | Some h =>
      actions ← GetAllowedActions g2 p;
      Some (update_player h (AllowActions actions) g2)
  | None => Some g2
  end.

Definition StartAtDealer (g : game) : option (outcome * option nat) :=
  match Dealer g with
  | None => Some (Fail ErrNotFoundDealer g, None)
  | Some d =>
      g' ← SetCurrentPlayer (Some d) g;
      Some (Done g', Some d)
  end.

Definition GetAlivePlayerCount (g : game) : Z :=
  foldl (λ aliveCount p, if Fold p then aliveCount - 1 else aliveCount)
        (GetPlayerCount g) (Players (gs g)).

Definition GetMovablePlayerCount (g : game) : Z :=
  foldl (λ mCount p, if Fold p || bool_decide (StackSize p = 0) then mCount - 1 else mCount)
        (GetPlayerCount g) (Players (gs g)).

Definition ResetActedPlayers (g : game) : game :=
  set_Players (fmap (with_Acted false)) g.

Definition BecomeRaiser (h : nat) (g : game) : option game :=
  ps ← Players (gs g) !! h;
  let g1 := if decide (Wager ps > 0) then update_player h (with_VPIP true) g else g in
  let g2 := set_status (with_CurrentRaiser (Idx ps)) g1 in
  let g3 := ResetActedPlayers g2 in
  Some (update_player h (with_Acted true) g3).

Definition RequestPlayerAction (g : game) : option outcome :=
  if decide (GetAlivePlayerCount g = 1) then Some (Emit GameEvent_RoundClosed g)
  else if decide (GetMovablePlayerCount g = 0) then Some (Emit GameEvent_RoundClosed g)
  else
    p ← NextPlayer g;
    h ← p;
    ps ← Players (gs g) !! h;
    if Acted ps then Some (Emit GameEvent_RoundClosed g)
    else
      g' ← SetCurrentPlayer (Some h) g;
      Some (Done g').

Definition UpdateLastAction (source : Z) (aType : string) (value : Z) (g : game) : game :=
  set_status (with_LastAction (Some (mkAction source aType value))) g.

Definition Start (g : game) : outcome :=
  if decide (GetPlayerCount g < 2) then Fail ErrInsufficientNumberOfPlayers g
  else if decide (dealer g = None) then Fail ErrNoDealer g
  else if existsb (λ p, bool_decide (Bankroll p <= 0)) (Players (gs g))
       then Fail ErrNotEnoughBackroll g
  else if decide (length (Deck (meta (gs g))) = 0%nat) then Fail ErrNoDeck g
  else
    Emit GameEvent_Started
      (set_status (λ s, with_CurrentEvent ""
                          (with_Burned [] (with_Board [] (with_Pots [] s)))) g).

Definition Initialize (ent : Entropy) (g : game) : option outcome :=
  let g1 := set_meta (λ m, with_Deck (shuffle_deck ent (Deck m)) m) g in
  let b := Blind (meta (gs g1)) in
  let g2 := if decide (BlindDealer b > BB b)
            then set_status (with_MiniBet (BlindDealer b)) g1
            else set_status (with_MiniBet (BB b)) g1 in
  g3 ← ResetRoundStatus g2;
  Some (Emit GameEvent_Initialized g3).

Definition RequestReady (g : game) : option outcome :=
  g' ← ResetAllPlayerAllowedActions g;
  Some (Emit GameEvent_ReadyRequested g').

Definition Prepare (g : game) : option outcome := RequestReady g.

Definition RequestAnte (g : game) : outcome := Emit GameEvent_AnteRequested g.

Definition RequestBlinds (g : game) : outcome :=
  let b := Blind (meta (gs g)) in
  if decide (BlindDealer b = 0 ∧ SB b = 0 ∧ BB b > 0) then Emit GameEvent_BlindsPaid g
  else Emit GameEvent_BlindsRequested g.

Definition EnterPreflopRound (g : game) : outcome :=
  Emit GameEvent_PreflopRoundEntered (set_status (with_Round "preflop") g).

Definition EnterFlopRound (g : game) : outcome :=
  Emit GameEvent_FlopRoundEntered (set_status (with_Round "flop") g).

Definition EnterTurnRound (g : game) : outcome :=
  Emit GameEvent_TurnRoundEntered (set_status (with_Round "turn") g).

Definition EnterRiverRound (g : game) : outcome :=
  Emit GameEvent_RiverRoundEntered (set_status (with_Round "river") g).

Definition nextRound (g : game) : option outcome :=
  g1 ← ResetRoundStatus g;
  g2 ← ResetAllPlayerStatus g1;
  if decide (GetAlivePlayerCount g2 = 1) then Some (Emit GameEvent_GameCompleted g2)
  else
    let r := Round (status (gs g2)) in
    if decide (r = "preflop") then Some (EnterFlopRound g2)
    else if decide (r = "flop") then Some (EnterTurnRound g2)
    else if decide (r = "turn") then Some (EnterRiverRound g2)
    else if decide (r = "river") then Some (Emit GameEvent_GameCompleted g2)
    else Some (Fail ErrUnknownRound g2).

Definition Next (g : game) : option outcome :=
  let g1 := UpdateLastAction (-1) "next" 0 g in
  let r := Round (status (gs g1)) in
  if decide (r = "preflop" ∨ r = "flop" ∨ r = "turn" ∨ r = "river") then nextRound g1
  else Some (Done g1).

(** Modelled from the spec: [UpdateCombinationOfAllPlayers], whose file is
    not among the sources; the evaluator is a pure function that fills the
    combination of each player, a field this model does not carry, so the
    state modelled here is left as it is. *)
Definition UpdateCombinationOfAllPlayers (g : game) : option game := Some g.

(** The preflop branch of [InitializeRound]: every player is dealt
    [HoleCardsCount] cards, in the order of [gs.Players]. *)
Fixpoint deal_holes (k h : nat) (g : game) : option game :=
  match k with
  | O => Some g
  | S k' =>
      '(cards, g1) ← Deal (HoleCardsCount (meta (gs g))) g;
      deal_holes k' (S h) (update_player h (with_HoleCards cards) g1)
  end.

Definition deal_board (count : Z) (g : game) : option outcome :=
  g1 ← Burn 1 g;
  '(cards, g2) ← Deal count g1;
  let g3 := set_status (λ s, with_Board (Board (status (gs g1)) ++ cards) s) g2 in
  r ← StartAtDealer g3;
  Some r.1.

Definition InitializeRound (g : game) : option outcome :=
  let r := Round (status (gs g)) in
  o ← (if decide (r = "preflop") then
         g' ← deal_holes (length (Players (gs g))) 0 g; Some (Done g')
       else if decide (r = "flop") then deal_board 3 g
       else if decide (r = "turn" ∨ r = "river") then deal_board 1 g
       else Some (Done g));
  match o with
  | Done g1 =>
      g2 ← UpdateCombinationOfAllPlayers g1;
      Some (Emit GameEvent_RoundInitialized g2)
  | _ => Some o
  end.

Definition PrepareRound (g : game) : option outcome :=
  if decide (Round (status (gs g)) = "preflop") then RequestReady g
  else if decide (GetMovablePlayerCount g <= 1) then Some (Emit GameEvent_RoundClosed g)
  else RequestReady g.

(** The preflop loop of [StartRound]: at most [GetPlayerCount] iterations,
    left with [break] at the big blind. *)
Fixpoint seek_bb (k : nat) (g : game) : option game :=
  match k with
  | O => Some g
  | S k' =>
      p ← NextPlayer g;
      h ← p;
      ps ← Players (gs g) !! h;
      if CheckPosition ps "bb" then
        q ← NextPlayer g;
        SetCurrentPlayer q g
      else
        g' ← SetCurrentPlayer (Some h) g;
        seek_bb k' g'
  end.

Definition StartRound (g : game) : option outcome :=
  g1 ← ResetAllPlayerAllowedActions g;
  if decide (Round (status (gs g1)) = "preflop") then
    if decide (GetMovablePlayerCount g1 = 0) then Some (Emit GameEvent_RoundClosed g1)
    else
      g2 ← SetCurrentPlayer (Dealer g1) g1;
      g3 ← seek_bb (length (Players (gs g2))) g2;
      Some (Emit GameEvent_RoundStarted g3)
  else
    r ← StartAtDealer g1;
    match r.1 with
    | Done g2 => Some (Emit GameEvent_RoundStarted g2)
    | o => Some o
    end.

(** Modelled from the spec: the tables [GameEventSymbols] and
    [GameEventBySymbol], declared in a file that is not among the sources;
    the symbols are the event symbols the spec lists.  A Go map lookup of an
    absent key yields the zero value of [GameEvent], which [Resume] below
    receives as [zeroEvent]. *)
Definition GameEventSymbol (ev : GameEvent) : string :=
  match ev with
  | GameEvent_Started => "Started"
  | GameEvent_Initialized => "Initialized"
  | GameEvent_ReadyRequested => "ReadyRequested"
  | GameEvent_AnteRequested => "AnteRequested"
  | GameEvent_AntePaid => "AntePaid"
  | GameEvent_BlindsRequested => "BlindsRequested"
  | GameEvent_BlindsPaid => "BlindsPaid"
  | GameEvent_PreflopRoundEntered => "PreflopRoundEntered"
  | GameEvent_FlopRoundEntered => "FlopRoundEntered"
  | GameEvent_TurnRoundEntered => "TurnRoundEntered"
  | GameEvent_RiverRoundEntered => "RiverRoundEntered"
  | GameEvent_RoundInitialized => "RoundInitialized"
  | GameEvent_RoundPrepared => "RoundPrepared"
  | GameEvent_RoundStarted => "RoundStarted"
  | GameEvent_RoundClosed => "RoundClosed"
  | GameEvent_GameCompleted => "GameCompleted"
  | GameEvent_SettlementRequested => "SettlementRequested"
  | GameEvent_SettlementCompleted => "SettlementCompleted"
  | GameEvent_GameClosed => "GameClosed"
  end.

Definition allEvents : list GameEvent :=
  [GameEvent_Started; GameEvent_Initialized; GameEvent_ReadyRequested;
   GameEvent_AnteRequested; GameEvent_AntePaid; GameEvent_BlindsRequested;
   GameEvent_BlindsPaid; GameEvent_PreflopRoundEntered; GameEvent_FlopRoundEntered;
   GameEvent_TurnRoundEntered; GameEvent_RiverRoundEntered; GameEvent_RoundInitialized;
   GameEvent_RoundPrepared; GameEvent_RoundStarted; GameEvent_RoundClosed;
   GameEvent_GameCompleted; GameEvent_SettlementRequested;
   GameEvent_SettlementCompleted; GameEvent_GameClosed].

Definition GameEventBySymbol : gmap string GameEvent :=
  list_to_map ((λ ev, (GameEventSymbol ev, ev)) <$> allEvents).

Definition Resume (zeroEvent : GameEvent) (g : game) : outcome :=
  let sym := CurrentEvent (status (gs g)) in
  if decide (0 < String.length sym)%nat then
    Emit (default zeroEvent (GameEventBySymbol !! sym)) g
  else Done g.

(** ** The operations of the players and the dispatcher

    The files that hold the player actions, the forced payments, the
    settlement and the dispatcher of events are not among the sources read;
    they are modelled from the specification.  The routines they call
    ([BecomeRaiser], [RequestPlayerAction], [Next], [StartRound] and the
    others above) are the ones of the sources. *)

(** Modelled from the spec: the chip movement of every payment, missing from
    the sources; chips leave the stack and join the wager of the round, which
    the round pot sums; an amount below zero or above the stack is out of
    range. *)
Definition pay (h : nat) (chips : Z) (g : game) : option outcome :=
  ps ← Players (gs g) !! h;
  if decide (chips < 0 ∨ chips > StackSize ps) then Some (Fail ErrAmountOutOfRange g)
  else
    Some (Done
      (update_player h (λ p, with_chips (StackSize p - chips) (Wager p + chips) (Pot p) p)
         (set_status (λ s, with_CurrentRoundPot (CurrentRoundPot s + chips) s) g))).

(** Modelled from the spec: what follows an action of the current player,
    missing from the sources; the last action is recorded and the next
    actor is requested. *)
Definition acted (h : nat) (name : string) (value : Z) (g : game) : option outcome :=
  ps ← Players (gs g) !! h;
  let g1 := update_player h (λ p, with_DidAction name (with_Acted true p)) g in
  RequestPlayerAction (UpdateLastAction (Idx ps) name value g1).

(** Modelled from the spec: the legality check of an action, missing from
    the sources; only the current player acts, and only with an action of its
    allowed set, any other attempt fails and leaves the state as it is. *)
Definition as_current (name : string)
    (body : nat → PlayerState → game → option outcome) (g : game) : option outcome :=
  match GetCurrentPlayer g with
  | None => Some (Fail ErrIllegalAction g)
  | Some h =>
      ps ← Players (gs g) !! h;
      if bool_decide (name ∈ AllowedActions ps) then body h ps g
      else Some (Fail ErrIllegalAction g)
  end.

(** Modelled from the spec: [Pass], missing from the sources; an
    acknowledgement of a folded or all-in player that moves no chips. *)
Definition Pass (g : game) : option outcome :=
  as_current "pass" (λ h ps g, acted h "pass" 0 g) g.

(** Modelled from the spec: [Fold], missing from the sources. *)
Definition FoldAction (g : game) : option outcome :=
  as_current "fold" (λ h ps g, acted h "fold" 0 (update_player h (with_Fold true) g)) g.

(** Modelled from the spec: [Check], missing from the sources. *)
Definition Check (g : game) : option outcome :=
  as_current "check" (λ h ps g, acted h "check" 0 g) g.

(** Modelled from the spec: [Call], missing from the sources; the amount is
    [currentWager - wager], capped at the stack. *)
Definition Call (g : game) : option outcome :=
  as_current "call" (λ h ps g,
    let chips := Z.min (CurrentWager (status (gs g)) - Wager ps) (StackSize ps) in
    o ← pay h chips g;
    match o with
    | Done g1 => acted h "call" chips g1
    | _ => Some o
    end) g.

(** Modelled from the spec: becoming the raiser at a new wager level,
    missing from the sources; the previous raise size is the increment over
    the old current wager, and [BecomeRaiser] of the sources clears the
    acted flags of the others. *)
Definition raise_to (h : nat) (name : string) (level : Z) (g : game) : option outcome :=
  ps ← Players (gs g) !! h;
  let old := CurrentWager (status (gs g)) in
  let g1 := set_status (λ s, with_CurrentWager level (with_PreviousRaiseSize (level - old) s)) g in
  g2 ← BecomeRaiser h g1;
  acted h name level g2.

(** Modelled from the spec: [Bet], missing from the sources; legal only when
    the current wager is 0 and the chips reach the minimum bet. *)
Definition Bet (chips : Z) (g : game) : option outcome :=
  as_current "bet" (λ h ps g,
    if decide (CurrentWager (status (gs g)) ≠ 0 ∨ chips < MiniBet (status (gs g)))
    then Some (Fail ErrIllegalAction g)
    else
      o ← pay h chips g;
      match o with
      | Done g1 => p1 ← Players (gs g1) !! h; raise_to h "bet" (Wager p1) g1
      | _ => Some o
      end) g.

(** Modelled from the spec: [Raise], missing from the sources; the wager is
    set to [chipLevel], which must reach [currentWager + previousRaiseSize]. *)
Definition Raise (chipLevel : Z) (g : game) : option outcome :=
  as_current "raise" (λ h ps g,
    let st := status (gs g) in
    if decide (chipLevel < CurrentWager st + PreviousRaiseSize st)
    then Some (Fail ErrIllegalAction g)
    else
      o ← pay h (chipLevel - Wager ps) g;
      match o with
      | Done g1 => raise_to h "raise" chipLevel g1
      | _ => Some o
      end) g.

(** Modelled from the spec: [Allin], missing from the sources; the whole
    stack is committed; a wager above the current wager becomes the current
    wager, and reopens the betting only when it is a full raise. *)
Definition Allin (g : game) : option outcome :=
  as_current "allin" (λ h ps g,
    o ← pay h (StackSize ps) g;
    match o with
    | Done g1 =>
        let st := status (gs g1) in
        let level := Wager ps + StackSize ps in
        if decide (level > CurrentWager st) then
          if decide (level >= CurrentWager st + PreviousRaiseSize st)
          then raise_to h "allin" level g1
          else acted h "allin" level (set_status (with_CurrentWager level) g1)
        else acted h "allin" level g1
    | _ => Some o
    end) g.

(** Modelled from the spec: the ante of one player, missing from the
    sources; a short stack pays what it has, and the chips go to the pot
    field of the player, whose initial stack is the stack that is left. *)
Definition payAnte (ante : Z) (ps : PlayerState) : PlayerState :=
  let chips := Z.min ante (StackSize ps) in
  with_InitialStackSize (StackSize ps - chips)
    (with_chips (StackSize ps - chips) (Wager ps) (Pot ps + chips) ps).

(** Modelled from the spec: [PayAnte], missing from the sources; every seated
    player pays, in the order of [GetPlayers]; the last action is the ante of
    the last seat. *)
Definition PayAnte (g : game) : option outcome :=
  if decide (CurrentEvent (status (gs g)) = "AnteRequested") then
    l ← GetPlayers g;
    g1 ← for_players l (payAnte (Ante (meta (gs g)))) g;
    last ← mjoin (last l);
    idx ← SeatIndex g1 last;
    Some (Emit GameEvent_AntePaid
            (UpdateLastAction idx "ante" (Ante (meta (gs g))) g1))
  else Some (Fail ErrIllegalAction g).

(** Modelled from the spec: a blind, missing from the sources; it is capped
    at the stack and becomes wager of the preflop round. *)
Definition payBlind (p : option nat) (blind : Z) (g : game) : option game :=
  match p with
  | None => Some g
  | Some h =>
      ps ← Players (gs g) !! h;
      if decide (blind <= 0) then Some g
      else
        o ← pay h (Z.min blind (StackSize ps)) g;
        match o with
        | Done g1 => Some g1
        | Fail _ g1 => Some g1
        | Emit _ g1 => Some g1
        end
  end.

(** Modelled from the spec: [PayBlinds], missing from the sources; the dealer
    blind when it is configured, the small and the big blind; the current
    wager is the larger of the dealer blind and the big blind. *)
Definition PayBlinds (g : game) : option outcome :=
  if decide (CurrentEvent (status (gs g)) = "BlindsRequested") then
    let b := Blind (meta (gs g)) in
    g1 ← payBlind (Dealer g) (BlindDealer b) g;
    g2 ← payBlind (smallBlind g1) (SB b) g1;
    g3 ← payBlind (bigBlind g2) (BB b) g2;
    Some (Emit GameEvent_BlindsPaid
            (set_status (with_CurrentWager (Z.max (BlindDealer b) (BB b))) g3))
  else Some (Fail ErrIllegalAction g).

(** Modelled from the spec: the layered side pots of the pot ledger, missing
    from the sources.  [insert_level] keeps the distinct positive
    contribution amounts in ascending order; layer [i] has level
    [c_i - c_(i-1)], is fed by every player whose contribution reaches
    [c_i], and can be won by those of them who have not folded. *)
Fixpoint insert_level (c : Z) (levels : list Z) : list Z :=
  match levels with
  | [] => [c]
  | c' :: rest =>
      if decide (c < c') then c :: levels
      else if decide (c = c') then levels
      else c' :: insert_level c rest
  end.

Definition contribution_levels (l : list PlayerState) : list Z :=
  foldr (λ p acc, if decide (0 < Pot p) then insert_level (Pot p) acc else acc) [] l.

Fixpoint build_layers (prev : Z) (levels : list Z) (l : list PlayerState) : list PotLayer :=
  match levels with
  | [] => []
  | c :: rest =>
      let feeders := filter (λ p, c <= Pot p) l in
      mkPotLayer (c - prev)
        (Idx <$> filter (λ p, Fold p = false) feeders)
        ((c - prev) * Z.of_nat (length feeders))
        []
      :: build_layers c rest l
  end.

Definition pot_layers (l : list PlayerState) : list PotLayer :=
  build_layers 0 (contribution_levels l) l.

(** Modelled from the spec: the settlement run when [GameCompleted] fires,
    missing from the sources; outstanding wagers are finalized into the pot
    fields, the layers are rebuilt from the pot fields and the current
    player is cleared.  The winners of a layer depend on the hand evaluator,
    which this model does not carry: they are left empty. *)
Definition Settle (g : game) : option outcome :=
  let g1 := set_Players (fmap (λ p, with_chips (StackSize p) 0 (Pot p + Wager p) p)) g in
  let g2 := set_status (with_Pots (pot_layers (Players (gs g1)))) g1 in
  g3 ← SetCurrentPlayer None g2;
  Some (Emit GameEvent_SettlementRequested g3).

(** Modelled from the spec: [ReadyForAll], missing from the sources; a
    barrier answered when the engine has requested readiness: before the
    first round it opens the ante or blinds gate, in a round it marks the
    round as prepared. *)
Definition ReadyForAll (g : game) : option outcome :=
  if decide (CurrentEvent (status (gs g)) = "ReadyRequested") then
    if decide (Round (status (gs g)) = "") then
      if decide (Ante (meta (gs g)) > 0) then Some (RequestAnte g)
      else Some (RequestBlinds g)
    else Some (Emit GameEvent_RoundPrepared g)
  else Some (Fail ErrIllegalAction g).

(** Modelled from the spec: the dispatch table of [EmitEvent], missing from
    the sources; the event symbol is recorded as current event and the
    handler of the event runs.  Events that wait for the driver have no
    handler. *)
Definition handle (ent : Entropy) (ev : GameEvent) (g : game) : option outcome :=
  match ev with
  | GameEvent_Started => Initialize ent g
  | GameEvent_Initialized => Prepare g
  | GameEvent_ReadyRequested => Some (Done g)
  | GameEvent_AnteRequested => Some (Done g)
  | GameEvent_AntePaid => Some (RequestBlinds g)
  | GameEvent_BlindsRequested => Some (Done g)
  | GameEvent_BlindsPaid => Some (EnterPreflopRound g)
  | GameEvent_PreflopRoundEntered => InitializeRound g
  | GameEvent_FlopRoundEntered => InitializeRound g
  | GameEvent_TurnRoundEntered => InitializeRound g
  | GameEvent_RiverRoundEntered => InitializeRound g
  | GameEvent_RoundInitialized => PrepareRound g
  | GameEvent_RoundPrepared => StartRound g
  | GameEvent_RoundStarted => RequestPlayerAction g
  | GameEvent_RoundClosed => Some (Done g)
  | GameEvent_GameCompleted => Settle g
  | GameEvent_SettlementRequested => Some (Emit GameEvent_SettlementCompleted g)
  | GameEvent_SettlementCompleted => Some (Emit GameEvent_GameClosed g)
  | GameEvent_GameClosed => Some (Done g)
  end.

(** The chain of handlers started by an outcome; [fuel] bounds its length,
    and an outcome that is still an emission when the fuel is spent is
    returned as it is. *)
Fixpoint dispatch (ent : Entropy) (fuel : nat) (o : outcome) : option outcome :=
  match o with
  | Emit ev g =>
      match fuel with
      | O => Some o
      | S fuel' =>
          o' ← handle ent ev (set_status (with_CurrentEvent (GameEventSymbol ev)) g);
          dispatch ent fuel' o'
      end
  | _ => Some o
  end.

(** No chain of handlers is longer than this. *)
Definition chain_bound : nat := 16.

(** The operations a driver delivers. *)
Inductive operation :=
| OpReadyForAll
| OpPayAnte
| OpPayBlinds
| OpNext
| OpPass
| OpFold
| OpCheck
| OpCall
| OpAllin
| OpBet (chips : Z)
| OpRaise (chipLevel : Z).

Definition apply_operation (op : operation) (g : game) : option outcome :=
  match op with
  | OpReadyForAll => ReadyForAll g
  | OpPayAnte => PayAnte g
  | OpPayBlinds => PayBlinds g
  | OpNext => Next g
  | OpPass => Pass g
  | OpFold => FoldAction g
  | OpCheck => Check g
  | OpCall => Call g
  | OpAllin => Allin g
  | OpBet chips => Bet chips g
  | OpRaise chipLevel => Raise chipLevel g
  end.

(** An operation together with the handlers it sets off. *)
Definition run (ent : Entropy) (op : operation) (g : game) : option outcome :=
  o ← apply_operation op g; dispatch ent chain_bound o.

Definition run_Start (ent : Entropy) (g : game) : option outcome :=
  dispatch ent chain_bound (Start g).

(** The states reached from a game by a successful [Start] followed by
    accepted operations. *)
Inductive reachable (ent : Entropy) (g0 : game) : game → Prop :=
| reachable_Start (g : game) :
    run_Start ent g0 = Some (Done g) → reachable ent g0 g
| reachable_run (g : game) (op : operation) (g' : game) :
    reachable ent g0 g → run ent op g = Some (Done g') → reachable ent g0 g'.

(** A sequence of operations, stopped at the first one that is refused. *)
Fixpoint run_all (ent : Entropy) (ops : list operation) (g : game) : option outcome :=
  match ops with
  | [] => Some (Done g)
  | op :: rest =>
      o ← run ent op g;
      match o with
      | Done g' => run_all ent rest g'
      | _ => Some o
      end
  end.

Definition play (ent : Entropy) (ops : list operation) (g : game) : option outcome :=
  o ← run_Start ent g;
  match o with
  | Done g' => run_all ent ops g'
  | _ => Some o
  end.

(** ** Definitions that follow the wording of the specification *)

(** A seat indexing discipline: the state at position [i] carries seat index
    [i], and the registry maps seat [i] to it.  Games built by [NewGame]
    satisfy it. *)
Definition wf_game (g : game) : Prop :=
  ∀ (i : nat) (ps : PlayerState),
    Players (gs g) !! i = Some ps →
    Idx ps = Z.of_nat i ∧ players g !! Z.of_nat i = Some i.

(** Movable: not folded and with chips left. *)
Definition movable (ps : PlayerState) : bool :=
  negb (Fold ps) && negb (bool_decide (StackSize ps = 0)).

(** The first movable seat among [k] seats taken clockwise from [seat]. *)
Fixpoint search_movable (k : nat) (seat : Z) (g : game) : option Z :=
  match k with
  | O => None
  | S k' =>
      let s := seat `mod` GetPlayerCount g in
      match Players (gs g) !! Z.to_nat s with
      | Some ps => if movable ps then Some s else search_movable k' (s + 1) g
      | None => None
      end
  end.

(** "The first seat clockwise from the current player whose player is
    neither folded nor has stack equal to zero." *)
Definition first_movable_after (g : game) (cur : Z) : option Z :=
  search_movable (length (Players (gs g))) (cur + 1) g.

(** "The first seat that is alive and has stack > 0, searching clockwise
    starting from the dealer seat." *)
Definition first_movable_from (g : game) (seat : Z) : option Z :=
  search_movable (length (Players (gs g))) seat g.

(** "The count of non-folded players" and "the count of movable players
    (non-folded with stack > 0)". *)
Definition alive_count (g : game) : Z :=
  Z.of_nat (length (filter (λ ps, Fold ps = false) (Players (gs g)))).

Definition movable_count (g : game) : Z :=
  Z.of_nat (length (filter (λ ps, Fold ps = false ∧ StackSize ps > 0) (Players (gs g)))).

(** Two player lists that differ in the allowed actions only, and two
    statuses that differ in the current player only. *)
Definition same_but_actions (l l' : list PlayerState) : Prop :=
  (with_AllowedActions [] <$> l') = (with_AllowedActions [] <$> l).

Definition same_but_current (s s' : Status) : Prop :=
  with_CurrentPlayer 0 s' = with_CurrentPlayer 0 s.

(** The seats visited by the loop of [GetPlayers]: [k] seats clockwise
    from [cur] among [n]. *)
Fixpoint seats_from (k : nat) (cur n : Z) : list Z :=
  match k with
  | O => []
  | S k' => cur :: seats_from k' ((cur + 1) `mod` n) n
  end.

(** The allowed actions as the specification words them. *)
Definition allowed_per_spec (st : Status) (ps : PlayerState) : list string :=
  if decide (CurrentPlayer st ≠ Idx ps) then []
  else if Fold ps then ["pass"]
  else if decide (StackSize ps = 0) then ["pass"]
  else
    "allin" ::
    (if decide (Wager ps < CurrentWager st) then
       "fold" ::
         (if decide (InitialStackSize ps > CurrentWager st) then ["call"] else []) ++
         (if decide (InitialStackSize ps > CurrentWager st + PreviousRaiseSize st)
          then ["raise"] else [])
     else
       "check" ::
         (if decide (InitialStackSize ps >= MiniBet st)
          then [if decide (CurrentWager st = 0) then "bet" else "raise"]
          else [])).

(** Every array of [σ0] is found unchanged in [σ]. *)
Definition preserves (σ0 σ : store) : Prop :=
  ∀ a, a ∈ dom σ0 → σ !! a = σ0 !! a.

(** ** Concrete inputs *)

Definition entropy0 : Entropy :=
  mkEntropy (λ pass i, if Nat.even i then Some (7 * i + pass)%nat else None)
            (λ i, N.of_nat (5 * i + 3)).

Definition store0 : store := {[ 4%nat := ["SA"; "SK"; "SQ"; "SJ"; "ST"; "S9"; "S8"; "S7"; "S6"] ]}.

(** ** Concrete games *)

Definition seat (positions : list string) (bankroll : Z) : PlayerSetting :=
  mkPlayerSetting positions bankroll.

Definition smallDeck : list string :=
  ["SA"; "SK"; "SQ"; "SJ"; "ST"; "S9"; "S8"; "S7"; "S6";
   "HA"; "HK"; "HQ"; "HJ"; "HT"; "H9"; "H8"; "H7"; "H6";
   "DA"; "DK"; "DQ"; "DJ"; "DT"; "D9"; "D8"; "D7"; "D6"].

Definition options3 : GameOptions :=
  mkGameOptions 0 (mkBlind 0 5 10) "no-limit" 2 0 smallDeck 1
    [seat ["dealer"] 1000; seat ["sb"] 1000; seat ["bb"] 1000].

Definition game3 : game := default emptyGame (NewGame options3).

Definition options4 : GameOptions :=
  mkGameOptions 0 (mkBlind 0 5 10) "no-limit" 2 0 smallDeck 1
    [seat ["dealer"] 1000; seat ["sb"] 1000; seat ["bb"] 1000; seat [] 1000].

Definition game4 : game := default emptyGame (NewGame options4).

(** Three players in the flop round; seat 0 is current, seat 1 has folded. *)
Definition game3_seat1_folded : game :=
  update_player 1 (with_Fold true)
    (set_status (λ s, with_CurrentPlayer 0 (with_Round "flop" s)) game3).

(** Four players entering the flop round; the dealer (seat 0) and seat 1
    have folded, seats 2 and 3 are movable. *)
Definition game4_dealer_folded : game :=
  update_player 0 (with_Fold true)
    (update_player 1 (with_Fold true)
       (set_status (λ s, with_CurrentPlayer (-1) (with_Round "flop" s)) game4)).

(** Three players facing a wager of 10 raised by 10; seat 0, who started
    the round with 15 chips, is current. *)
Definition options3_short : GameOptions :=
  mkGameOptions 0 (mkBlind 0 5 10) "no-limit" 2 0 smallDeck 1
    [seat ["dealer"] 15; seat ["sb"] 1000; seat ["bb"] 1000].

Definition game3_raised : game :=
  set_status (λ s, with_CurrentPlayer 0
                     (with_CurrentWager 10
                        (with_PreviousRaiseSize 10
                           (with_MiniBet 10 (with_Round "preflop" s)))))
    (default emptyGame (NewGame options3_short)).

(** A state in the river round, seat 1 holding a wager of 30. *)
Definition game3_river : game :=
  update_player 1 (with_chips 970 30 0)
    (set_status (λ s, with_CurrentWager 30 (with_Round "river" s)) game3).

(** A loaded state whose last event is [ReadyRequested]. *)
Definition game3_ready : game :=
  set_status (with_CurrentEvent "ReadyRequested") game3.

(** ** Chips *)

Definition sumZ (l : list Z) : Z := foldr Z.add 0 l.

(** "The sum over all players of stack + wager + pot". *)
Definition chips_in_play (g : game) : Z :=
  sumZ ((λ p, StackSize p + Wager p + Pot p) <$> Players (gs g)).

(** "The sum of all pot-layer totals". *)
Definition layers_total (g : game) : Z :=
  sumZ (Total <$> Pots (status (gs g))).

(** "The sum of all players' initial bankrolls". *)
Definition bankroll_total (g : game) : Z :=
  sumZ (Bankroll <$> Players (gs g)).

(** The chips of one seat add up to its bankroll and are amounts an [int64]
    holds. *)
Definition seat_ok (p : PlayerState) : Prop :=
  0 <= StackSize p ∧ 0 <= Wager p ∧ 0 <= Pot p
  ∧ StackSize p + Wager p + Pot p = Bankroll p ∧ Bankroll p < 2 ^ 63.

(** The invariant carried along a hand: the bankrolls are the ones the hand
    started with, every seat is in order and the ante is not negative. *)
Definition chips_inv (B : list Z) (g : game) : Prop :=
  (Bankroll <$> Players (gs g)) = B
  ∧ Forall seat_ok (Players (gs g))
  ∧ 0 <= Ante (meta (gs g)).

(** A mutation of a player that keeps its seat in order. *)
Definition chip_safe (f : PlayerState → PlayerState) : Prop :=
  ∀ p, seat_ok p → seat_ok (f p) ∧ Bankroll (f p) = Bankroll p.

Definition state_of (o : outcome) : game :=
  match o with
  | Done g => g
  | Fail _ g => g
  | Emit _ g => g
  end.

(** The length of the chain of handlers an event can start. *)
Definition rank (ev : GameEvent) : nat :=
  match ev with
  | GameEvent_AntePaid => 4
  | GameEvent_BlindsPaid => 3
  | GameEvent_GameCompleted => 3
  | GameEvent_Started => 2
  | GameEvent_PreflopRoundEntered => 2
  | GameEvent_FlopRoundEntered => 2
  | GameEvent_TurnRoundEntered => 2
  | GameEvent_RiverRoundEntered => 2
  | GameEvent_RoundPrepared => 2
  | GameEvent_SettlementRequested => 2
  | GameEvent_Initialized => 1
  | GameEvent_RoundInitialized => 1
  | GameEvent_RoundStarted => 1
  | GameEvent_SettlementCompleted => 1
  | _ => 0
  end.

(** Options a hand can be played with: bankrolls an [int64] holds and an
    ante that is not negative. *)
Definition options_ok (opts : GameOptions) : Prop :=
  Forall (λ s, SBankroll s < 2 ^ 63) (OPlayers opts) ∧ 0 <= OAnte opts.

(** The hand of three players in which the dealer and the small blind fold
    before the flop. *)
Definition walkover : list operation :=
  [OpReadyForAll; OpPayBlinds; OpReadyForAll; OpFold; OpFold; OpNext].

(** Levels in strictly ascending order above [prev]. *)
Fixpoint ascending (prev : Z) (levels : list Z) : Prop :=
  match levels with
  | [] => True
  | c :: rest => prev < c ∧ ascending c rest
  end.

(** The hands played by the tests of the repository on short stacks: the
    dealer has chips for the ante only, and the small blind for the ante and
    the blind only. *)
Definition deck52 : list string := smallDeck ++ smallDeck.

Definition options_poor_dealer : GameOptions :=
  mkGameOptions 10 (mkBlind 0 5 10) "no-limit" 2 0 deck52 1
    [seat ["dealer"] 10; seat ["sb"] 10000; seat ["bb"] 10000; seat [] 10000].

Definition hand_poor_dealer : list operation :=
  [OpReadyForAll; OpPayAnte; OpPayBlinds; OpReadyForAll;
   OpCall; OpPass; OpCall; OpCheck;
   OpNext; OpReadyForAll; OpCheck; OpCheck; OpBet 100; OpPass; OpCall; OpCall;
   OpNext; OpReadyForAll; OpCheck; OpBet 100; OpRaise 200; OpPass; OpCall; OpCall;
   OpNext; OpReadyForAll; OpCheck; OpCheck; OpCheck; OpPass;
   OpNext].

Definition options_poor_sb : GameOptions :=
  mkGameOptions 10 (mkBlind 0 5 10) "no-limit" 2 0 deck52 1
    [seat ["dealer"] 10000; seat ["sb"] 15; seat ["bb"] 10000; seat [] 10000].

Definition hand_poor_sb : list operation :=
  [OpReadyForAll; OpPayAnte; OpPayBlinds; OpReadyForAll;
   OpCall; OpCall; OpPass; OpCheck;
   OpNext; OpReadyForAll; OpPass; OpCheck; OpBet 100; OpCall; OpPass; OpCall;
   OpNext; OpReadyForAll; OpPass; OpBet 100; OpRaise 200; OpCall; OpPass; OpCall;
   OpNext; OpReadyForAll; OpPass; OpCheck; OpCheck; OpCheck;
   OpNext].

(** What a hand leaves behind: the last event, the chips of every seat and
    the totals of the pot layers. *)
Definition summary (o : option outcome)
  : option (string * list (Z * Z * Z) * list Z) :=
  match o with
  | Some (Done g) =>
      Some (CurrentEvent (status (gs g)),
            (λ p, (StackSize p, Wager p, Pot p)) <$> Players (gs g),
            Total <$> Pots (status (gs g)))
  | _ => None
  end.

(** Four seats that have put 100, 100, 40 and 100 chips in the pot. *)
Definition contributor (idx pot : Z) : PlayerState :=
  mkPlayerState idx [] 1000 (1000 - pot) (1000 - pot) 0 pot false false true "" [] [].

Definition four_contributors : list PlayerState :=
  [contributor 0 100; contributor 1 100; contributor 2 40; contributor 3 100].

(** ** The decks (deck.go) *)

Definition CardSuits : list string := ["S"; "H"; "D"; "C"].

Definition CardPoints : list string :=
  ["2"; "3"; "4"; "5"; "6"; "7"; "8"; "9"; "T"; "J"; "Q"; "K"; "A"].

(** [for i := first; i < 13; i++ { cards = append(cards, suit + CardPoints[i]) }];
    [k] iterations remain. *)
Fixpoint points_loop (k i : nat) (suit : string) (cards : list string)
  : option (list string) :=
  match k with
  | O => Some cards
  | S k' =>
      point ← CardPoints !! i;
      points_loop k' (S i) suit (cards ++ [suit +:+ point])
  end.

(** [for _, suit := range CardSuits]. *)
Fixpoint suits_loop (suits : list string) (first : nat) (cards : list string)
  : option (list string) :=
  match suits with
  | [] => Some cards
  | suit :: rest =>
      cards' ← points_loop (13 - first) first suit cards;
      suits_loop rest first cards'
  end.

Definition NewStandardDeckCards : option (list string) := suits_loop CardSuits 0 [].

(** The short deck takes off 2, 3, 4 and 5. *)
Definition NewShortDeckCards : option (list string) := suits_loop CardSuits 4 [].

(** The rank of a card is its second character. *)
Definition card_rank (card : string) : string :=
  match card with
  | String _ (String r _) => String r EmptyString
  | _ => ""
  end.

(** ** Auxiliary notions for the properties below *)

(** Two statuses that differ in the deck position only. *)
Definition same_but_position (s s' : Status) : Prop :=
  with_CurrentDeckPosition 0 s' = with_CurrentDeckPosition 0 s.

(** The cards at [count] consecutive deck positions from [pos]. *)
Definition deck_slice (g : game) (pos count : Z) : list string :=
  take (Z.to_nat count) (drop (Z.to_nat pos) (Deck (meta (gs g)))).

(** Only the player in focus holds allowed actions. *)
Definition focused (g : game) : Prop :=
  ∀ (i : nat) (ps : PlayerState),
    Players (gs g) !! i = Some ps →
    AllowedActions ps ≠ [] → Idx ps = CurrentPlayer (status (gs g)).

(** The last position of a list whose element satisfies [P]. *)
Fixpoint last_index (P : PlayerSetting → bool) (i : nat) (l : list PlayerSetting)
    (found : option nat) : option nat :=
  match l with
  | [] => found
  | s :: rest => last_index P (S i) rest (if P s then Some i else found)
  end.

Definition holds (pos : string) (s : PlayerSetting) : bool :=
  bool_decide (pos ∈ SPositions s).

(** The first seat clockwise after [seat] that holds the big blind, among
    [k] seats. *)
Fixpoint first_bb_after (k : nat) (seat : Z) (g : game) : option Z :=
  match k with
  | O => None
  | S k' =>
      let s := (seat + 1) `mod` GetPlayerCount g in
      match Players (gs g) !! Z.to_nat s with
      | Some ps => if CheckPosition ps "bb" then Some s else first_bb_after k' s g
      | None => None
      end
  end.

(** A game of three seats whose deck position is 2, in the flop round. *)
Definition game3_flop : game :=
  set_status (λ s, with_CurrentDeckPosition 6 (with_CurrentPlayer 1 (with_Round "flop" s)))
    game3.

(** Three seats before the preflop round starts. *)
Definition game3_preflop : game :=
  set_status (λ s, with_CurrentPlayer 0 (with_Round "preflop" s)) game3.

(** A game without a dealer, in the flop round. *)
Definition options_no_dealer : GameOptions :=
  mkGameOptions 0 (mkBlind 0 5 10) "no-limit" 2 0 smallDeck 1
    [seat [] 1000; seat ["sb"] 1000; seat ["bb"] 1000].

Definition game_no_dealer_flop : game :=
  set_status (λ s, with_CurrentPlayer (-1) (with_Round "flop" s))
    (default emptyGame (NewGame options_no_dealer)).

(** Three seats, the dealer at the last one. *)
Definition options_dealer_last : GameOptions :=
  mkGameOptions 0 (mkBlind 0 5 10) "no-limit" 2 0 smallDeck 1
    [seat ["sb"] 1000; seat ["bb"] 1000; seat ["dealer"] 1000].

Definition game3_dealer_last : game :=
  default emptyGame (NewGame options_dealer_last).

(** The player state [AddPlayer] creates for a setting at seat [idx]. *)
Definition seat_state (idx : Z) (s : PlayerSetting) : PlayerState :=
  mkPlayerState idx (SPositions s) (SBankroll s) (SBankroll s) (SBankroll s)
    0 0 false false false "" [] [].

(** The seats [k0], [k0 + 1], ... of a list of settings. *)
Fixpoint seat_states (k0 : nat) (l : list PlayerSetting) : list PlayerState :=
  match l with
  | [] => []
  | s :: rest => seat_state (Z.of_nat k0) s :: seat_states (S k0) rest
  end.

(** The last seat, counted from [i], whose player satisfies [P]. *)
Fixpoint last_seat (P : PlayerState → bool) (i : nat) (l : list PlayerState)
    (found : option nat) : option nat :=
  match l with
  | [] => found
  | p :: rest => last_seat P (S i) rest (if P p then Some i else found)
  end.

(** * Lemmas *)

Lemma wrap64_small z : in_int64 z -> wrap64 z = z.
Proof.
  unfold in_int64, wrap64. intros Hz.
  rewrite Z.mod_small by lia. lia.
Qed.

Lemma wrap64_range z : in_int64 (wrap64 z).
Proof.
  unfold in_int64, wrap64.
  pose proof (Z.mod_pos_bound (z + 2 ^ 63) (2 ^ 64) ltac:(lia)). lia.
Qed.

Example game3_players :
  (Idx <$> Players (gs game3)) = [0; 1; 2] ∧ dealer game3 = Some 0%nat
  ∧ smallBlind game3 = Some 1%nat ∧ bigBlind game3 = Some 2%nat.
Proof. vm_compute. done. Qed.

(** ** The seat registry built by [NewGame] *)

Lemma AddPlayer_wf (g : game) (setting : PlayerSetting) :
  wf_game g →
  ∃ g', AddPlayer (Z.of_nat (length (Players (gs g)))) setting g = Some g'
        ∧ wf_game g'
        ∧ length (Players (gs g')) = S (length (Players (gs g)))
        ∧ meta (gs g') = meta (gs g) ∧ status (gs g') = status (gs g)
        ∧ (Forall (λ ps, StackSize ps = Bankroll ps ∧ Wager ps = 0 ∧ Pot ps = 0)
                  (Players (gs g)) →
           Forall (λ ps, StackSize ps = Bankroll ps ∧ Wager ps = 0 ∧ Pot ps = 0)
                  (Players (gs g'))).
Proof.
  intros Hwf. unfold AddPlayer, addPlayer. cbn.
  rewrite lookup_app_r by lia. rewrite Nat.sub_diag. cbn.
  eexists. split; [reflexivity|]. cbn.
  split; [|split; [rewrite length_app; cbn; lia|split; [done|split; [done|]]]].
  - intros i ps Hi. cbn in Hi.
    destruct (decide (i < length (Players (gs g)))%nat) as [Hlt|Hge].
    + rewrite lookup_app_l in Hi by done.
      destruct (Hwf i ps Hi) as [Hidx Hreg]. split; [done|].
      cbn. rewrite lookup_insert_ne by lia. done.
    + rewrite lookup_app_r in Hi by lia.
      destruct (i - length (Players (gs g)))%nat as [|k] eqn:Hk; cbn in Hi; [|done].
      injection Hi as <-. cbn.
      assert (i = length (Players (gs g))) as -> by lia.
      split; [done|]. cbn. by rewrite lookup_insert_eq.
  - intros HF. apply Forall_app. split; [done|].
    constructor; [cbn; done|constructor].
Qed.

Lemma addPlayers_wf (l : list PlayerSetting) (g : game) :
  wf_game g →
  ∃ g', addPlayers (Z.of_nat (length (Players (gs g)))) l g = Some g'
        ∧ wf_game g'
        ∧ length (Players (gs g')) = (length (Players (gs g)) + length l)%nat
        ∧ meta (gs g') = meta (gs g) ∧ status (gs g') = status (gs g)
        ∧ (Forall (λ ps, StackSize ps = Bankroll ps ∧ Wager ps = 0 ∧ Pot ps = 0)
                  (Players (gs g)) →
           Forall (λ ps, StackSize ps = Bankroll ps ∧ Wager ps = 0 ∧ Pot ps = 0)
                  (Players (gs g'))).
Proof.
  revert g. induction l as [|p l IH]; intros g Hwf.
  - exists g. cbn. rewrite Nat.add_0_r. done.
  - destruct (AddPlayer_wf g p Hwf) as (g1 & H1 & Hwf1 & Hlen1 & Hm1 & Hs1 & HF1).
    destruct (IH g1 Hwf1) as (g2 & H2 & Hwf2 & Hlen2 & Hm2 & Hs2 & HF2).
    exists g2. cbn. rewrite H1. cbn.
    replace (Z.of_nat (length (Players (gs g))) + 1)
      with (Z.of_nat (length (Players (gs g1)))) by lia.
    rewrite H2. split; [done|]. split; [done|].
    split; [lia|]. split; [congruence|]. split; [congruence|]. auto.
Qed.

Lemma NewGame_wf (opts : GameOptions) :
  ∃ g, NewGame opts = Some g ∧ wf_game g
       ∧ length (Players (gs g)) = length (OPlayers opts)
       ∧ Deck (meta (gs g)) = ODeck opts
       ∧ Forall (λ ps, StackSize ps = Bankroll ps ∧ Wager ps = 0 ∧ Pot ps = 0)
                (Players (gs g)).
Proof.
  unfold NewGame, ApplyOptions.
  set (g0 := mkGame _ _ _ _ _).
  assert (Hwf0 : wf_game g0) by (intros i ps Hi; cbn in Hi; done).
  destruct (addPlayers_wf (OPlayers opts) g0 Hwf0)
    as (g & Hg & Hwf & Hlen & Hm & Hs & HF).
  exists g. change (Z.of_nat (length (Players (gs g0)))) with 0 in Hg. rewrite Hg.
  split; [done|]. split; [done|]. split; [cbn in Hlen; lia|].
  split; [rewrite Hm; done|]. apply HF. constructor.
Qed.

Lemma wf_game3 : wf_game game3.
Proof.
  destruct (NewGame_wf options3) as (g & Hg & Hwf & _).
  unfold game3. rewrite Hg. done.
Qed.

Lemma wf_game4 : wf_game game4.
Proof.
  destruct (NewGame_wf options4) as (g & Hg & Hwf & _).
  unfold game4. rewrite Hg. done.
Qed.

(** [wf_game] only looks at seat indices and at the registry. *)
Lemma wf_game_ext (g g' : game) :
  players g' = players g →
  (Idx <$> Players (gs g')) = (Idx <$> Players (gs g)) →
  wf_game g → wf_game g'.
Proof.
  intros Hreg Hidx Hwf i ps Hi.
  assert (Hl : (Idx <$> Players (gs g')) !! i = Some (Idx ps))
    by (rewrite list_lookup_fmap, Hi; done).
  rewrite Hidx, list_lookup_fmap in Hl.
  destruct (Players (gs g) !! i) as [ps0|] eqn:H0; [|done].
  cbn in Hl. injection Hl as Hl.
  destruct (Hwf i ps0 H0) as [Ha Hb]. rewrite Hreg. split; congruence.
Qed.

Lemma wf_lookup_in_range (g : game) (i : nat) (ps : PlayerState) :
  Players (gs g) !! i = Some ps → 0 <= Z.of_nat i < GetPlayerCount g.
Proof.
  intros Hi. apply lookup_lt_Some in Hi. unfold GetPlayerCount. lia.
Qed.

Lemma wf_Player (g : game) (i : nat) (ps : PlayerState) :
  wf_game g → Players (gs g) !! i = Some ps → Player g (Idx ps) = Some i.
Proof.
  intros Hwf Hi. destruct (Hwf i ps Hi) as [Hidx Hreg].
  pose proof (wf_lookup_in_range g i ps Hi).
  unfold Player. rewrite Hidx. rewrite decide_False by lia. done.
Qed.

(** ** Turn order *)

Lemma NextPlayer_seat (g : game) :
  wf_game g →
  in_int64 (GetPlayerCount g) →
  2 <= GetPlayerCount g →
  -1 <= CurrentPlayer (status (gs g)) < GetPlayerCount g →
  ∃ ps, NextPlayer g
        = Some (Some (Z.to_nat ((CurrentPlayer (status (gs g)) + 1) `mod` GetPlayerCount g)))
        ∧ Players (gs g) !! Z.to_nat ((CurrentPlayer (status (gs g)) + 1) `mod` GetPlayerCount g)
          = Some ps
        ∧ Idx ps = (CurrentPlayer (status (gs g)) + 1) `mod` GetPlayerCount g.
Proof.
  intros Hwf Hint Hn Hcur. unfold NextPlayer.
  set (cur := CurrentPlayer (status (gs g))) in *.
  set (n := GetPlayerCount g) in *.
  unfold in_int64 in Hint.
  rewrite decide_True by lia.
  rewrite wrap64_small by (unfold in_int64; lia).
  set (s := (cur + 1) `mod` n).
  assert (Hs : 0 <= s < n) by (apply Z.mod_pos_bound; lia).
  assert (Hcur2 : (if decide (cur + 1 = n) then 0 else cur + 1) = s).
  { subst s. case_decide as Heq.
    - rewrite Heq, Z.mod_same by lia. done.
    - rewrite Z.mod_small by lia. done. }
  rewrite Hcur2. rewrite decide_False by lia.
  destruct (lookup_lt_is_Some_2 (Players (gs g)) (Z.to_nat s)) as [ps Hps].
  { subst n. unfold GetPlayerCount in Hs. lia. }
  exists ps. rewrite Hps. cbn.
  destruct (Hwf _ _ Hps) as [Hidx Hreg].
  rewrite (wf_Player g _ ps Hwf Hps).
  rewrite Hidx, Z2Nat.id by lia. done.
Qed.

(** ** Counting players *)

Lemma foldl_decrement (P : PlayerState → bool) (l : list PlayerState) (c : Z) :
  foldl (λ a p, if P p then a - 1 else a) c l
  = c - Z.of_nat (length (filter (λ p, P p = true) l)).
Proof.
  revert c. induction l as [|p l IH]; intros c.
  - cbn. lia.
  - rewrite filter_cons. cbn [foldl]. rewrite IH. destruct (P p) eqn:HP.
    + rewrite decide_True by done. cbn [length]. lia.
    + rewrite decide_False by congruence. lia.
Qed.

Lemma length_filter_split (P Q : PlayerState → Prop)
    `{∀ p, Decision (P p)} `{∀ p, Decision (Q p)} (l : list PlayerState) :
  (∀ p, P p ↔ ¬ Q p) →
  length l = (length (filter P l) + length (filter Q l))%nat.
Proof.
  intros HPQ. induction l as [|p l IH]; [done|].
  rewrite !filter_cons. cbn [length].
  destruct (decide (P p)) as [HP|HP]; destruct (decide (Q p)) as [HQ|HQ]; cbn;
    try lia; exfalso; specialize (HPQ p); tauto.
Qed.

Lemma GetAlivePlayerCount_count (g : game) :
  GetAlivePlayerCount g = alive_count g.
Proof.
  unfold GetAlivePlayerCount, alive_count, GetPlayerCount.
  rewrite (foldl_decrement Fold).
  rewrite (length_filter_split (λ p, Fold p = true) (λ p, Fold p = false) (Players (gs g))).
  - lia.
  - intros p. destruct (Fold p); split; congruence.
Qed.

Lemma GetMovablePlayerCount_count (g : game) :
  Forall (λ ps, 0 <= StackSize ps) (Players (gs g)) →
  GetMovablePlayerCount g = movable_count g.
Proof.
  intros Hst.
  unfold GetMovablePlayerCount, movable_count, GetPlayerCount.
  rewrite (foldl_decrement (λ p, Fold p || bool_decide (StackSize p = 0))).
  rewrite (length_filter_split
             (λ p, Fold p || bool_decide (StackSize p = 0) = true)
             (λ p, Fold p || bool_decide (StackSize p = 0) = false) (Players (gs g))).
  2:{ intros p. destruct (Fold p || bool_decide (StackSize p = 0)); split; congruence. }
  assert (Heq : length (filter (λ p, Fold p || bool_decide (StackSize p = 0) = false)
                          (Players (gs g)))
                = length (filter (λ ps, Fold ps = false ∧ StackSize ps > 0)
                            (Players (gs g)))).
  { induction Hst as [|p l Hp Hl IH]; [done|].
    rewrite !filter_cons.
    destruct (Fold p) eqn:HF; cbn.
    - rewrite decide_False by congruence.
      rewrite decide_False by (intros [? _]; congruence). done.
    - case_bool_decide as H0.
      + rewrite decide_False by congruence.
        rewrite decide_False by (intros [_ ?]; lia). done.
      + rewrite decide_True by done.
        rewrite decide_True by (split; [done|lia]). cbn. by rewrite IH. }
  rewrite Heq. lia.
Qed.

Lemma movable_le_alive (g : game) :
  0 <= GetMovablePlayerCount g <= GetAlivePlayerCount g
  ∧ GetAlivePlayerCount g <= GetPlayerCount g.
Proof.
  unfold GetMovablePlayerCount, GetAlivePlayerCount, GetPlayerCount.
  rewrite (foldl_decrement Fold).
  rewrite (foldl_decrement (λ p, Fold p || bool_decide (StackSize p = 0))).
  assert (H1 : (length (filter (λ p, Fold p = true) (Players (gs g)))
           <= length (filter (λ p, Fold p || bool_decide (StackSize p = 0%Z) = true)
                        (Players (gs g))))%nat).
  { induction (Players (gs g)) as [|p l IH]; [done|].
    rewrite !filter_cons. destruct (Fold p); cbn.
    - rewrite !decide_True by done. cbn. lia.
    - rewrite decide_False by congruence. case_decide; cbn; lia. }
  pose proof (length_filter (λ p, Fold p || bool_decide (StackSize p = 0) = true)
                (Players (gs g))).
  lia.
Qed.

(** ** Setting the current player *)

Lemma lookup_update_player (g : game) (i h : nat) (f : PlayerState → PlayerState) :
  Players (gs (update_player i f g)) !! h
  = (if decide (i = h) then f else id) <$> Players (gs g) !! h.
Proof.
  unfold update_player, set_Players. cbn. rewrite list_lookup_alter.
  case_decide as Hih.
  - subst. done.
  - by destruct (Players (gs g) !! h).
Qed.

Lemma update_player_same_but_actions (g : game) (i : nat) (a : list string) :
  same_but_actions (Players (gs g)) (Players (gs (update_player i (with_AllowedActions a) g))).
Proof.
  unfold same_but_actions. apply list_eq. intros k.
  rewrite !list_lookup_fmap, lookup_update_player.
  destruct (Players (gs g) !! k) as [p|]; [|done]. cbn.
  case_decide; done.
Qed.

Lemma same_but_actions_lookup (l l' : list PlayerState) (i : nat) (p : PlayerState) :
  same_but_actions l l' → l !! i = Some p →
  ∃ p', l' !! i = Some p' ∧ with_AllowedActions [] p' = with_AllowedActions [] p.
Proof.
  unfold same_but_actions. intros Heq Hi.
  assert (H : (with_AllowedActions [] <$> l') !! i = Some (with_AllowedActions [] p))
    by (rewrite Heq, list_lookup_fmap, Hi; done).
  rewrite list_lookup_fmap in H. destruct (l' !! i) as [p'|]; [|done].
  exists p'. cbn in H. split; congruence.
Qed.

Lemma same_but_actions_trans (l1 l2 l3 : list PlayerState) :
  same_but_actions l1 l2 → same_but_actions l2 l3 → same_but_actions l1 l3.
Proof. unfold same_but_actions. congruence. Qed.

Lemma same_but_actions_length (l l' : list PlayerState) :
  same_but_actions l l' → length l' = length l.
Proof.
  unfold same_but_actions. intros H.
  rewrite <- (length_fmap (with_AllowedActions []) l'), H, length_fmap. done.
Qed.

Lemma same_but_actions_Idx (l l' : list PlayerState) :
  same_but_actions l l' → (Idx <$> l') = (Idx <$> l).
Proof.
  unfold same_but_actions. intros H.
  assert (E : ∀ k : list PlayerState, (Idx <$> k) = (Idx <$> (with_AllowedActions [] <$> k))).
  { intros k. rewrite <- list_fmap_compose. done. }
  rewrite (E l'), (E l), H. done.
Qed.

Lemma GetAllowedActions_is_Some (g : game) (h : nat) :
  is_Some (Players (gs g) !! h) → is_Some (GetAllowedActions g (Some h)).
Proof.
  intros [ps Hps]. unfold GetAllowedActions, GetAvailableActions, SeatIndex.
  cbn. rewrite Hps. cbn. rewrite ?Hps. cbn.
  destruct (Fold ps); repeat case_decide; eauto.
Qed.

Lemma SetCurrentPlayer_Some (g : game) (h : nat) (ps : PlayerState) :
  wf_game g →
  -1 <= CurrentPlayer (status (gs g)) < GetPlayerCount g →
  Players (gs g) !! h = Some ps →
  ∃ g', SetCurrentPlayer (Some h) g = Some g'
        ∧ CurrentPlayer (status (gs g')) = Idx ps
        ∧ same_but_current (status (gs g)) (status (gs g'))
        ∧ same_but_actions (Players (gs g)) (Players (gs g'))
        ∧ meta (gs g') = meta (gs g) ∧ players g' = players g
        ∧ dealer g' = dealer g ∧ smallBlind g' = smallBlind g ∧ bigBlind g' = bigBlind g.
Proof.
  intros Hwf Hcur Hps. unfold SetCurrentPlayer.
  set (cur := CurrentPlayer (status (gs g))) in *.
  assert (Hg1 : ∃ g1,
    (if decide (cur ≠ -1)
     then h0 ← GetCurrentPlayer g; _ ← Players (gs g) !! h0;
          Some (update_player h0 ResetAllowedActions g)
     else Some g) = Some g1
    ∧ status (gs g1) = status (gs g)
    ∧ same_but_actions (Players (gs g)) (Players (gs g1))
    ∧ meta (gs g1) = meta (gs g) ∧ players g1 = players g
    ∧ dealer g1 = dealer g ∧ smallBlind g1 = smallBlind g ∧ bigBlind g1 = bigBlind g).
  { case_decide as Hne.
    - unfold GetPlayerCount in Hcur.
      destruct (lookup_lt_is_Some_2 (Players (gs g)) (Z.to_nat cur)) as [pc Hpc]; [lia|].
      unfold GetCurrentPlayer. fold cur.
      pose proof (wf_Player g _ pc Hwf Hpc) as HP.
      destruct (Hwf _ _ Hpc) as [Hidx _]. rewrite Hidx, Z2Nat.id in HP by lia.
      rewrite HP. cbn. rewrite Hpc. cbn.
      eexists. split; [reflexivity|].
      split; [done|]. split; [apply update_player_same_but_actions|done].
    - exists g. repeat split; done. }
  destruct Hg1 as (g1 & -> & Hst1 & Hpl1 & Hm1 & Hr1 & Hd1 & Hsb1 & Hbb1).
  destruct (same_but_actions_lookup _ _ _ _ Hpl1 Hps) as (p1 & Hp1 & Heq1).
  assert (Hset : setCurrentPlayer (Some h) g1
                 = Some (set_status (with_CurrentPlayer (Idx p1)) g1))
    by (unfold setCurrentPlayer, SeatIndex; rewrite Hp1; done).
  set (g2 := set_status (with_CurrentPlayer (Idx p1)) g1) in *.
  destruct (GetAllowedActions_is_Some g2 h) as [acts Hacts].
  { subst g2. cbn. eauto. }
  cbn [mbind option_bind]. rewrite Hset. cbn [mbind option_bind]. rewrite Hacts.
  cbn [mbind option_bind].
  eexists. split; [reflexivity|].
  assert (HI : Idx p1 = Idx ps).
  { change (Idx (with_AllowedActions [] p1) = Idx ps). rewrite Heq1. done. }
  split; [done|]. split.
  { unfold same_but_current. cbn. rewrite Hst1. done. }
  split.
  { eapply same_but_actions_trans; [exact Hpl1|].
    apply (update_player_same_but_actions g2). }
  done.
Qed.

(** ** The players in dealer order *)

Lemma mod_succ_cases (c n : Z) :
  0 <= c < n → (if decide (c + 1 = n) then 0 else c + 1) = (c + 1) `mod` n.
Proof.
  intros Hc. case_decide as Heq.
  - rewrite Heq, Z.mod_same by lia. done.
  - rewrite Z.mod_small by lia. done.
Qed.

Lemma seats_from_lookup (k : nat) (cur n : Z) (j : nat) :
  0 <= cur < n → (j < k)%nat →
  seats_from k cur n !! j = Some ((cur + Z.of_nat j) `mod` n).
Proof.
  revert cur j. induction k as [|k IH]; intros cur j Hc Hj; [lia|].
  destruct j as [|j]; cbn.
  - rewrite Z.add_0_r, Z.mod_small by lia. done.
  - rewrite IH by (try apply Z.mod_pos_bound; lia).
    f_equal. rewrite Zplus_mod_idemp_l. f_equal. lia.
Qed.

Lemma seats_from_length (k : nat) (cur n : Z) : length (seats_from k cur n) = k.
Proof. revert cur. induction k; intros; cbn; auto. Qed.

Lemma getPlayers_loop_seats (g : game) (k : nat) (cur : Z) (acc : list (option nat)) :
  wf_game g → in_int64 (GetPlayerCount g) → 0 <= cur < GetPlayerCount g →
  getPlayers_loop k cur acc g
  = acc ++ ((λ s, Some (Z.to_nat s)) <$> seats_from k cur (GetPlayerCount g)).
Proof.
  intros Hwf Hint. revert cur acc. induction k as [|k IH]; intros cur acc Hc.
  - cbn. by rewrite app_nil_r.
  - cbn [getPlayers_loop seats_from fmap list_fmap].
    unfold in_int64 in Hint.
    rewrite wrap64_small by (unfold in_int64; lia).
    rewrite mod_succ_cases by done.
    rewrite IH by (apply Z.mod_pos_bound; lia).
    rewrite <- app_assoc. cbn. do 2 f_equal.
    unfold GetPlayerCount in Hc.
    destruct (lookup_lt_is_Some_2 (Players (gs g)) (Z.to_nat cur)) as [p Hp]; [lia|].
    destruct (Hwf _ _ Hp) as [_ Hreg]. rewrite Z2Nat.id in Hreg by lia. done.
Qed.

Lemma mod_shift_inj (c n a b : Z) :
  0 <= c < n → 0 <= a < n → 0 <= b < n →
  (c + a) `mod` n = (c + b) `mod` n → a = b.
Proof.
  intros Hc Ha Hb Heq.
  destruct (decide (c + a < n)); destruct (decide (c + b < n)).
  - rewrite !Z.mod_small in Heq by lia. lia.
  - rewrite (Z.mod_small (c + a)) in Heq by lia.
    replace (c + b) with ((c + b - n) + 1 * n) in Heq by lia.
    rewrite Z.mod_add, Z.mod_small in Heq by lia. lia.
  - rewrite (Z.mod_small (c + b)) in Heq by lia.
    replace (c + a) with ((c + a - n) + 1 * n) in Heq by lia.
    rewrite Z.mod_add, Z.mod_small in Heq by lia. lia.
  - replace (c + a) with ((c + a - n) + 1 * n) in Heq by lia.
    replace (c + b) with ((c + b - n) + 1 * n) in Heq by lia.
    rewrite !Z.mod_add, !Z.mod_small in Heq by lia. lia.
Qed.

Lemma GetPlayers_all (g : game) (d : nat) (pd : PlayerState) :
  wf_game g → in_int64 (GetPlayerCount g) →
  dealer g = Some d → Players (gs g) !! d = Some pd →
  ∃ l, GetPlayers g = Some (Some <$> l) ∧ NoDup l
       ∧ ∀ i, i ∈ l ↔ (i < length (Players (gs g)))%nat.
Proof.
  intros Hwf Hint Hd Hpd. unfold GetPlayers, Dealer, SeatIndex.
  rewrite Hd. cbn. rewrite Hpd. cbn.
  destruct (Hwf _ _ Hpd) as [Hidx _].
  pose proof (wf_lookup_in_range _ _ _ Hpd) as Hrange.
  rewrite getPlayers_loop_seats by (done || lia). cbn.
  set (n := GetPlayerCount g) in *. set (k := length (Players (gs g))).
  assert (Hk : n = Z.of_nat k) by done.
  exists (Z.to_nat <$> seats_from k (Idx pd) n).
  split; [by rewrite <- list_fmap_compose|].
  assert (Hlook : ∀ j, (j < k)%nat →
            (Z.to_nat <$> seats_from k (Idx pd) n) !! j
            = Some (Z.to_nat ((Idx pd + Z.of_nat j) `mod` n))).
  { intros j Hj. rewrite list_lookup_fmap, seats_from_lookup by lia. done. }
  assert (Hlen : length (Z.to_nat <$> seats_from k (Idx pd) n) = k)
    by (rewrite length_fmap; apply seats_from_length).
  split.
  - apply NoDup_alt. intros i j x Hi Hj.
    pose proof (lookup_lt_Some _ _ _ Hi) as Hi'.
    pose proof (lookup_lt_Some _ _ _ Hj) as Hj'.
    rewrite Hlen in Hi', Hj'.
    rewrite Hlook in Hi, Hj by done.
    assert (Hm : (Idx pd + Z.of_nat i) `mod` n = (Idx pd + Z.of_nat j) `mod` n).
    { pose proof (Z.mod_pos_bound (Idx pd + Z.of_nat i) n ltac:(lia)).
      pose proof (Z.mod_pos_bound (Idx pd + Z.of_nat j) n ltac:(lia)).
      apply Z2Nat.inj; [lia|lia|congruence]. }
    apply mod_shift_inj in Hm; lia.
  - intros i. rewrite list_elem_of_lookup. split.
    + intros [j Hj]. pose proof (lookup_lt_Some _ _ _ Hj) as Hj'.
      rewrite Hlen in Hj'. rewrite Hlook in Hj by done.
      pose proof (Z.mod_pos_bound (Idx pd + Z.of_nat j) n ltac:(lia)).
      injection Hj as <-. lia.
    + intros Hi.
      exists (Z.to_nat ((Z.of_nat i - Idx pd) `mod` n)).
      pose proof (Z.mod_pos_bound (Z.of_nat i - Idx pd) n ltac:(lia)).
      rewrite Hlook by lia. f_equal.
      rewrite Z2Nat.id by lia.
      rewrite Zplus_mod_idemp_r.
      replace (Idx pd + (Z.of_nat i - Idx pd)) with (Z.of_nat i) by lia.
      rewrite Z.mod_small by lia. lia.
Qed.

Lemma for_players_all (f : PlayerState → PlayerState) (l : list nat) (g : game) :
  NoDup l → (∀ i, i ∈ l → (i < length (Players (gs g)))%nat) →
  ∃ g', for_players (Some <$> l) f g = Some g'
        ∧ meta (gs g') = meta (gs g) ∧ status (gs g') = status (gs g)
        ∧ players g' = players g ∧ dealer g' = dealer g
        ∧ smallBlind g' = smallBlind g ∧ bigBlind g' = bigBlind g
        ∧ length (Players (gs g')) = length (Players (gs g))
        ∧ ∀ i, Players (gs g') !! i
               = (if decide (i ∈ l) then f else id) <$> Players (gs g) !! i.
Proof.
  revert g. induction l as [|h l IH]; intros g Hnd Hin.
  - exists g. cbn. repeat split; try done.
    intros i. rewrite decide_False by set_solver.
    by destruct (Players (gs g) !! i).
  - apply NoDup_cons in Hnd as [Hh Hnd].
    cbn [fmap list_fmap for_players].
    rewrite decide_True by (apply Hin; set_solver).
    destruct (IH (update_player h f g) Hnd) as (g' & Hg' & Hm & Hs & Hr & Hd & Hsb & Hbb & Hlen & Hl).
    { intros i Hi. unfold update_player, set_Players. cbn.
      rewrite length_alter. apply Hin. set_solver. }
    exists g'. split; [done|].
    split; [done|]. split; [done|]. split; [done|]. split; [done|].
    split; [done|]. split; [done|].
    split.
    { rewrite Hlen. unfold update_player, set_Players. cbn. by rewrite length_alter. }
    intros i. rewrite Hl, lookup_update_player.
    destruct (Players (gs g) !! i) as [p|]; [|done]. cbn.
    destruct (decide (h = i)) as [->|Hne].
    + rewrite decide_False by done. rewrite decide_True by set_solver. done.
    + destruct (decide (i ∈ l)) as [Hil|Hil].
      * rewrite decide_True by (apply elem_of_cons; auto). done.
      * rewrite decide_False; [done|].
        intros [?|?]%elem_of_cons; congruence.
Qed.

(** Under the seat discipline, a loop over [GetPlayers] updates every player
    exactly once. *)
Lemma for_all_players (f : PlayerState → PlayerState) (g : game) (d : nat) (pd : PlayerState) :
  wf_game g → in_int64 (GetPlayerCount g) →
  dealer g = Some d → Players (gs g) !! d = Some pd →
  ∃ l g', GetPlayers g = Some l ∧ for_players l f g = Some g'
        ∧ meta (gs g') = meta (gs g) ∧ status (gs g') = status (gs g)
        ∧ players g' = players g ∧ dealer g' = dealer g
        ∧ smallBlind g' = smallBlind g ∧ bigBlind g' = bigBlind g
        ∧ Players (gs g') = f <$> Players (gs g).
Proof.
  intros Hwf Hint Hd Hpd.
  destruct (GetPlayers_all g d pd Hwf Hint Hd Hpd) as (l & Hl & Hnd & Hall).
  destruct (for_players_all f l g Hnd) as (g' & Hg' & Hm & Hs & Hr & Hdd & Hsb & Hbb & Hlen & Hlk).
  { intros i Hi. by apply Hall. }
  exists (Some <$> l), g'. repeat (split; [done|]).
  apply list_eq. intros i. rewrite Hlk, list_lookup_fmap.
  destruct (Players (gs g) !! i) as [p|] eqn:Hp; [|done]. cbn.
  rewrite decide_True; [done|]. apply Hall. by apply lookup_lt_Some in Hp.
Qed.

(** ** Round closure *)

Lemma RequestPlayerAction_cases (g : game) :
  wf_game g → in_int64 (GetPlayerCount g) →
  -1 <= CurrentPlayer (status (gs g)) < GetPlayerCount g →
  (GetAlivePlayerCount g = 1 ∨ GetMovablePlayerCount g = 0 →
   RequestPlayerAction g = Some (Emit GameEvent_RoundClosed g))
  ∧ (¬ (GetAlivePlayerCount g = 1 ∨ GetMovablePlayerCount g = 0) →
     ∃ h ps, NextPlayer g = Some (Some h)
       ∧ Players (gs g) !! h = Some ps
       ∧ Idx ps = (CurrentPlayer (status (gs g)) + 1) `mod` GetPlayerCount g
       ∧ if Acted ps then RequestPlayerAction g = Some (Emit GameEvent_RoundClosed g)
         else ∃ g', RequestPlayerAction g = Some (Done g')
                    ∧ SetCurrentPlayer (Some h) g = Some g'
                    ∧ CurrentPlayer (status (gs g')) = Idx ps).
Proof.
  intros Hwf Hint Hcur. unfold RequestPlayerAction. split.
  - intros [Ha|Hm].
    + rewrite decide_True by done. done.
    + case_decide; [done|]. rewrite decide_True by done. done.
  - intros Hno.
    rewrite decide_False by tauto. rewrite decide_False by tauto.
    pose proof (movable_le_alive g) as Hcnt.
    destruct (NextPlayer_seat g Hwf Hint ltac:(lia) Hcur) as (ps & HN & Hps & Hidx).
    exists (Z.to_nat ((CurrentPlayer (status (gs g)) + 1) `mod` GetPlayerCount g)), ps.
    rewrite HN. cbn [mbind option_bind]. rewrite Hps. cbn [mbind option_bind].
    split; [done|]. split; [done|]. split; [done|].
    destruct (Acted ps); [done|].
    destruct (SetCurrentPlayer_Some g _ ps Hwf Hcur Hps) as (g' & Hg' & Hc' & _).
    exists g'. rewrite Hg'. done.
Qed.

(** ** Round status and player status resets *)

Lemma ResetRoundStatus_Some (g : game) (d : nat) (pd : PlayerState) :
  dealer g = Some d → Players (gs g) !! d = Some pd →
  ResetRoundStatus g
  = Some (set_status (λ s,
            with_CurrentPlayer (Idx pd)
              (with_CurrentRaiser (Idx pd)
                 (with_CurrentWager 0
                    (with_CurrentRoundPot 0
                       (with_MaxWager 0 (with_PreviousRaiseSize 0 s)))))) g).
Proof.
  intros Hd Hpd. unfold ResetRoundStatus, Dealer, SeatIndex.
  rewrite Hd. cbn. rewrite Hpd. done.
Qed.

Lemma resetPlayerStatus_fields (p : PlayerState) :
  Pot (resetPlayerStatus p) = wrap64 (Pot p + Wager p)
  ∧ Wager (resetPlayerStatus p) = 0
  ∧ InitialStackSize (resetPlayerStatus p) = StackSize p
  ∧ StackSize (resetPlayerStatus p) = StackSize p
  ∧ Fold (resetPlayerStatus p) = Fold p
  ∧ Idx (resetPlayerStatus p) = Idx p
  ∧ Bankroll (resetPlayerStatus p) = Bankroll p
  ∧ Positions (resetPlayerStatus p) = Positions p
  ∧ Acted (resetPlayerStatus p) = Acted p
  ∧ AllowedActions (resetPlayerStatus p) = [].
Proof.
  unfold resetPlayerStatus. cbn.
  destruct (Fold p) eqn:HF; [cbn; rewrite ?HF; done|].
  case_decide; cbn; rewrite ?HF; done.
Qed.

Lemma alive_count_fmap (f : PlayerState → PlayerState) (g g' : game) :
  (∀ p, Fold (f p) = Fold p) →
  Players (gs g') = f <$> Players (gs g) →
  GetAlivePlayerCount g' = GetAlivePlayerCount g.
Proof.
  intros Hf Hp. unfold GetAlivePlayerCount, GetPlayerCount. rewrite Hp.
  rewrite length_fmap. clear Hp. generalize (Z.of_nat (length (Players (gs g)))).
  induction (Players (gs g)) as [|p l IH]; intros c; cbn; [done|].
  rewrite Hf. apply IH.
Qed.

Lemma wf_game_fmap (f : PlayerState → PlayerState) (g g' : game) :
  (∀ p, Idx (f p) = Idx p) →
  players g' = players g →
  Players (gs g') = f <$> Players (gs g) →
  wf_game g → wf_game g'.
Proof.
  intros Hf Hr Hp. apply wf_game_ext; [done|].
  rewrite Hp, <- list_fmap_compose. apply list_fmap_ext. intros ? p _. apply Hf.
Qed.

(** ** Arrays in the store *)

Lemma preserves_refl (σ : store) : preserves σ σ.
Proof. intros a _. done. Qed.

Lemma preserves_dom (σ0 σ : store) (a : nat) :
  preserves σ0 σ → a ∉ dom σ → a ∉ dom σ0.
Proof.
  intros Hp Ha Ha0. apply Ha. apply elem_of_dom.
  rewrite (Hp a Ha0). by apply elem_of_dom.
Qed.

Lemma preserves_insert (σ0 σ : store) (a : nat) (l : list string) :
  preserves σ0 σ → a ∉ dom σ0 → preserves σ0 (<[a := l]> σ).
Proof.
  intros Hp Ha b Hb. rewrite lookup_insert_ne by (intros ->; done). by apply Hp.
Qed.

Lemma make_fresh (n : nat) (σ : store) :
  (fst (make n σ) ∉ dom σ) ∧ snd (make n σ) = <[fst (make n σ) := replicate n ""]> σ.
Proof. unfold make. cbn. split; [apply is_fresh|done]. Qed.

Lemma fresh_ne (σ : store) (a b : nat) (l : list string) :
  a ∉ dom σ → σ !! b = Some l → a ≠ b.
Proof. intros Ha Hb ->. apply Ha. apply elem_of_dom. eauto. Qed.

Lemma scopy_full (dst : nat) (src d : list string) (σ : store) :
  σ !! dst = Some d → length src = length d →
  scopy dst src σ = Some (<[dst := src]> σ).
Proof.
  intros Hd Hlen. unfold scopy. rewrite Hd. cbn.
  rewrite <- Hlen, firstn_all. rewrite drop_ge by lia. by rewrite app_nil_r.
Qed.

Lemma sswap_spec (a i j : nat) (l : list string) (σ : store) :
  σ !! a = Some l → (i < length l)%nat → (j < length l)%nat →
  ∃ l', sswap a i j σ = Some (<[a := l']> σ) ∧ l' ≡ₚ l ∧ length l' = length l.
Proof.
  intros Ha Hi Hj.
  destruct (lookup_lt_is_Some_2 l i Hi) as [x Hx].
  destruct (lookup_lt_is_Some_2 l j Hj) as [y Hy].
  exists (<[j := x]> (<[i := y]> l)).
  unfold sswap, sget, sset. rewrite Ha. cbn. rewrite Hx, Hy. cbn.
  rewrite decide_True by done. cbn.
  rewrite lookup_insert_eq. cbn. rewrite length_insert.
  rewrite decide_True by done. rewrite insert_insert_eq.
  split; [done|]. split; [by apply Permutation_insert_swap|].
  by rewrite !length_insert.
Qed.

Lemma draw_le (ent : Entropy) (pass i : nat) : (draw ent pass i <= i)%nat.
Proof.
  unfold draw. destruct (rand_int ent pass i) as [v|].
  - pose proof (Nat.mod_upper_bound v (i + 1)). lia.
  - pose proof (N.mod_lt (time_seed ent i) (N.of_nat (i + 1))). lia.
Qed.

(** ** The passes *)

Lemma fisher_yates_spec (ent : Entropy) (pass a i : nat) (l : list string) (σ : store) :
  σ !! a = Some l → (i < length l ∨ i = 0)%nat →
  ∃ l', fisher_yates ent pass a i σ = Some (<[a := l']> σ)
        ∧ l' ≡ₚ l ∧ length l' = length l.
Proof.
  revert l σ. induction i as [|i IH]; intros l σ Ha Hi.
  - exists l. cbn. rewrite insert_id by done. done.
  - cbn [fisher_yates].
    pose proof (draw_le ent pass (S i)).
    destruct (sswap_spec a (S i) (draw ent pass (S i)) l σ Ha) as (l1 & Hsw & Hp1 & Hl1);
      [lia|lia|].
    rewrite Hsw. cbn [mbind option_bind].
    destruct (IH l1 (<[a := l1]> σ)) as (l2 & Hfy & Hp2 & Hl2).
    { by rewrite lookup_insert_eq. }
    { lia. }
    exists l2. rewrite Hfy, insert_insert_eq.
    split; [done|]. split; [by rewrite Hp2|lia].
Qed.

Lemma hash_shuffle_spec (a i : nat) (l : list string) (σ : store) :
  σ !! a = Some l → (i < length l ∨ i = 0)%nat →
  ∃ l', hash_shuffle a i σ = Some (<[a := l']> σ)
        ∧ l' ≡ₚ l ∧ length l' = length l.
Proof.
  revert l σ. induction i as [|i IH]; intros l σ Ha Hi.
  - exists l. cbn. rewrite insert_id by done. done.
  - cbn [hash_shuffle].
    destruct (lookup_lt_is_Some_2 l (S i)) as [c Hc]; [lia|].
    unfold sget at 1. rewrite Ha. cbn [mbind option_bind]. rewrite Hc.
    cbn [mbind option_bind].
    set (j := N.to_nat _).
    assert (Hj : (j <= S i)%nat).
    { subst j. pose proof (N.mod_lt (fnv64a c) (N.of_nat (S i + 1))). lia. }
    destruct (sswap_spec a (S i) j l σ Ha) as (l1 & Hsw & Hp1 & Hl1); [lia|lia|].
    rewrite Hsw. cbn [mbind option_bind].
    destruct (IH l1 (<[a := l1]> σ)) as (l2 & Hfy & Hp2 & Hl2).
    { by rewrite lookup_insert_eq. }
    { lia. }
    exists l2. rewrite Hfy, insert_insert_eq.
    split; [done|]. split; [by rewrite Hp2|lia].
Qed.

Lemma final_pass_spec (ent : Entropy) (a i : nat) (l : list string) (σ : store) :
  σ !! a = Some l → (i < length l ∨ i = 0)%nat →
  ∃ l', final_pass ent a i σ = Some (<[a := l']> σ)
        ∧ l' ≡ₚ l ∧ length l' = length l.
Proof.
  revert l σ. induction i as [|i IH]; intros l σ Ha Hi.
  - exists l. cbn. rewrite insert_id by done. done.
  - cbn [final_pass]. destruct (rand_int ent 4 (S i)) as [v|].
    + pose proof (Nat.mod_upper_bound v (S i + 1)).
      destruct (sswap_spec a (S i) (v `mod` (S i + 1)) l σ Ha) as (l1 & Hsw & Hp1 & Hl1);
        [lia|lia|].
      rewrite Hsw. cbn [mbind option_bind].
      destruct (IH l1 (<[a := l1]> σ)) as (l2 & Hfy & Hp2 & Hl2).
      { by rewrite lookup_insert_eq. }
      { lia. }
      exists l2. rewrite Hfy, insert_insert_eq.
      split; [done|]. split; [by rewrite Hp2|lia].
    + apply IH; [done|lia].
Qed.

(** Allocation followed by a full copy. *)
Lemma alloc_copy (l : list string) (σ : store) :
  ∃ a, make (length l) σ = (a, <[a := replicate (length l) ""]> σ)
       ∧ (a ∉ dom σ)
       ∧ scopy a l (<[a := replicate (length l) ""]> σ) = Some (<[a := l]> σ).
Proof.
  destruct (make_fresh (length l) σ) as [Hf Hm].
  exists (fst (make (length l) σ)). split; [|split; [done|]].
  - rewrite <- Hm. by destruct (make _ _).
  - rewrite (scopy_full _ l (replicate (length l) "")).
    + by rewrite insert_insert_eq.
    + by rewrite lookup_insert_eq.
    + by rewrite length_replicate.
Qed.

Lemma ShuffleCards_single (ent : Entropy) (cards : nat) (l : list string) (σ : store) :
  σ !! cards = Some l →
  ∃ r σ' l', Deck.ShuffleCards ent cards σ = Some (r, σ')
    ∧ σ' !! r = Some l' ∧ l' ≡ₚ l ∧ length l' = length l
    ∧ (r ∉ dom σ) ∧ preserves σ σ'.
Proof.
  intros Hc. unfold Deck.ShuffleCards. rewrite Hc. cbn [mbind option_bind].
  destruct (alloc_copy l σ) as (r & Hmk & Hr & Hcp).
  rewrite Hmk, Hcp. cbn [mbind option_bind].
  destruct (fisher_yates_spec ent 1 r (length l - 1) l (<[r := l]> σ))
    as (l' & Hfy & Hp & Hl).
  { by rewrite lookup_insert_eq. }
  { lia. }
  rewrite Hfy. cbn [mbind option_bind]. rewrite insert_insert_eq.
  exists r, (<[r := l']> σ), l'. split; [done|].
  rewrite lookup_insert_eq. repeat (split; [done|]).
  apply preserves_insert; [apply preserves_refl|done].
Qed.

(** ** Interleaving the halves *)

Lemma sget_Some (a i : nat) (σ : store) (l : list string) (x : string) :
  σ !! a = Some l → l !! i = Some x → sget a i σ = Some x.
Proof. intros Ha Hx. unfold sget. rewrite Ha. cbn. done. Qed.

Lemma sset_Some (a i : nat) (v : string) (σ : store) (l : list string) :
  σ !! a = Some l → (i < length l)%nat →
  sset a i v σ = Some (<[a := <[i := v]> l]> σ).
Proof.
  intros Ha Hi. unfold sset. rewrite Ha. cbn. by rewrite decide_True.
Qed.

Lemma interleave_spec (n r f s : nat) (Fh Sh : list string) :
  r ≠ f → r ≠ s → (length Fh <= length Sh)%nat → (length Fh + length Sh = n)%nat →
  ∀ (k i : nat) (σ : store) (R : list string),
    σ !! f = Some Fh → σ !! s = Some Sh → σ !! r = Some R → length R = n →
    (i + k = length Fh)%nat →
    take (2 * i) R ≡ₚ take i Fh ++ take i Sh →
    ∃ R', interleave k i (2 * i) n r f s σ = Some ((2 * (i + k))%nat, <[r := R']> σ)
          ∧ length R' = n
          ∧ take (2 * (i + k)) R' ≡ₚ take (i + k) Fh ++ take (i + k) Sh.
Proof.
  intros Hrf Hrs HFS Hn. induction k as [|k IH]; intros i σ R Hf Hs Hr HR Hik Hinv.
  - exists R. cbn [interleave]. rewrite insert_id by done.
    rewrite Nat.add_0_r. done.
  - cbn [interleave].
    destruct (lookup_lt_is_Some_2 Fh i) as [x Hx]; [lia|].
    destruct (lookup_lt_is_Some_2 Sh i) as [y Hy]; [lia|].
    rewrite (sget_Some f i σ Fh x) by done. cbn [mbind option_bind].
    rewrite (sset_Some r (2 * i) x σ R) by (done || lia). cbn [mbind option_bind].
    rewrite lookup_insert_ne by done. rewrite Hs. cbn [mbind option_bind].
    rewrite decide_True by (split; lia).
    rewrite (sget_Some s i _ Sh y) by (by rewrite ?lookup_insert_ne).
    cbn [mbind option_bind].
    rewrite (sset_Some r (S (2 * i)) y _ (<[(2 * i)%nat := x]> R))
      by (rewrite ?lookup_insert_eq, ?length_insert; done || lia).
    cbn [mbind option_bind]. rewrite insert_insert_eq.
    set (R2 := <[S (2 * i) := y]> (<[(2 * i)%nat := x]> R)).
    replace (S (S (2 * i))) with (2 * S i)%nat by lia.
    destruct (IH (S i) (<[r := R2]> σ) R2) as (R' & HI & HL & HP).
    { by rewrite lookup_insert_ne. }
    { by rewrite lookup_insert_ne. }
    { by rewrite lookup_insert_eq. }
    { subst R2. by rewrite !length_insert. }
    { lia. }
    { replace (2 * S i)%nat with (S (S (2 * i))) by lia.
      rewrite (take_S_r R2 (S (2 * i)) y).
      2:{ subst R2. apply list_lookup_insert_eq. rewrite length_insert. lia. }
      subst R2. rewrite take_insert_ge by lia.
      rewrite (take_S_r _ (2 * i) x).
      2:{ apply list_lookup_insert_eq. lia. }
      rewrite take_insert_ge by lia.
      rewrite (take_S_r Fh i x Hx), (take_S_r Sh i y Hy).
      rewrite Hinv. rewrite <- !app_assoc.
      apply Permutation_app_head. cbn.
      rewrite (Permutation_app_comm (take i Sh) [x; y]). cbn.
      constructor. apply Permutation_cons_append. }
    exists R'. rewrite HI, insert_insert_eq.
    replace (S i + k)%nat with (i + S k)%nat in * by lia. done.
Qed.

Lemma remainder_spec (r s : nat) (Fh Sh : list string) :
  r ≠ s →
  ∀ (k i index : nat) (σ : store) (R : list string),
    σ !! s = Some Sh → σ !! r = Some R →
    (i + k = length Sh)%nat → (index + k <= length R)%nat →
    take index R ≡ₚ Fh ++ take i Sh →
    ∃ R', remainder k i index r s σ = Some (<[r := R']> σ)
          ∧ length R' = length R
          ∧ take (index + k) R' ≡ₚ Fh ++ Sh.
Proof.
  intros Hrs. induction k as [|k IH]; intros i index σ R Hs Hr Hik Hlen Hinv.
  - exists R. cbn [remainder]. rewrite insert_id by done.
    rewrite Nat.add_0_r in *. subst i. rewrite firstn_all in Hinv. done.
  - cbn [remainder].
    destruct (lookup_lt_is_Some_2 Sh i) as [y Hy]; [lia|].
    rewrite (sget_Some s i σ Sh y) by done. cbn [mbind option_bind].
    rewrite (sset_Some r index y σ R) by (done || lia). cbn [mbind option_bind].
    destruct (IH (S i) (S index) (<[r := <[index := y]> R]> σ) (<[index := y]> R))
      as (R' & HI & HL & HP).
    { by rewrite lookup_insert_ne. }
    { by rewrite lookup_insert_eq. }
    { lia. }
    { rewrite length_insert. lia. }
    { rewrite (take_S_r _ index y) by (apply list_lookup_insert_eq; lia).
      rewrite take_insert_ge by lia.
      rewrite (take_S_r Sh i y Hy), Hinv. by rewrite app_assoc. }
    exists R'. rewrite HI, insert_insert_eq. rewrite length_insert in HL.
    replace (index + S k)%nat with (S index + k)%nat by lia. done.
Qed.

(** ** Offset mixing *)

Lemma nat_mod_cases (a n : nat) :
  (0 < n)%nat → (a < 2 * n)%nat →
  (a `mod` n = if decide (a < n) then a else a - n)%nat.
Proof.
  intros Hn Ha. case_decide as Hlt.
  - by apply Nat.mod_small.
  - replace a with ((a - n) + 1 * n)%nat at 1 by lia.
    rewrite Nat.Div0.mod_add. apply Nat.mod_small. lia.
Qed.

Lemma offset_mix_spec (offset n r t : nat) (T : list string) :
  r ≠ t → (offset < n)%nat → length T = n →
  ∀ (k i : nat) (σ : store) (R : list string),
    σ !! t = Some T → σ !! r = Some R → length R = n → (i + k = n)%nat →
    ∃ R', offset_mix k i offset n r t σ = Some (<[r := R']> σ)
          ∧ length R' = n
          ∧ ∀ p, (p < n)%nat →
              R' !! p = if decide (i <= (p + n - offset) `mod` n)%nat
                        then T !! ((p + n - offset) `mod` n)%nat
                        else R !! p.
Proof.
  intros Hrt Hoff HT. induction k as [|k IH]; intros i σ R Ht Hr HR Hik.
  - exists R. cbn [offset_mix]. rewrite insert_id by done.
    split; [done|]. split; [done|]. intros p Hp.
    rewrite decide_False; [done|].
    pose proof (Nat.mod_upper_bound (p + n - offset) n). lia.
  - cbn [offset_mix].
    destruct (lookup_lt_is_Some_2 T i) as [x Hx]; [lia|].
    rewrite (sget_Some t i σ T x) by done. cbn [mbind option_bind].
    set (q := ((i + offset) `mod` n)%nat).
    assert (Hq : (q < n)%nat) by (apply Nat.mod_upper_bound; lia).
    rewrite (sset_Some r q x σ R) by (done || lia). cbn [mbind option_bind].
    destruct (IH (S i) (<[r := <[q := x]> R]> σ) (<[q := x]> R)) as (R' & HI & HL & HP).
    { by rewrite lookup_insert_ne. }
    { by rewrite lookup_insert_eq. }
    { by rewrite length_insert. }
    { lia. }
    exists R'. rewrite HI, insert_insert_eq. split; [done|]. split; [done|].
    intros p Hp. rewrite (HP p Hp).
    assert (Hm : ((p + n - offset) `mod` n
                  = if decide (p + n - offset < n) then p + n - offset
                    else p + n - offset - n)%nat)
      by (apply nat_mod_cases; lia).
    assert (Hqv : (q = if decide (i + offset < n) then i + offset
                       else i + offset - n)%nat)
      by (apply nat_mod_cases; lia).
    destruct (decide (S i <= (p + n - offset) `mod` n)%nat) as [H1|H1].
    + rewrite decide_True by lia. done.
    + destruct (decide (i <= (p + n - offset) `mod` n)%nat) as [H2|H2].
      * assert (Hi : ((p + n - offset) `mod` n = i)%nat) by lia.
        rewrite Hi, Hx.
        assert (p = q) as ->.
        { rewrite Hqv. rewrite Hi in Hm. repeat case_decide; lia. }
        apply list_lookup_insert_eq. lia.
      * apply list_lookup_insert_ne.
        intros <-. apply H2. rewrite Hm, Hqv. repeat case_decide; lia.
Qed.

Lemma offset_mix_rotation (offset n : nat) (T R' : list string) :
  (offset < n)%nat → length T = n → length R' = n →
  (∀ p, (p < n)%nat → R' !! p = T !! ((p + n - offset) `mod` n)%nat) →
  R' = drop (n - offset) T ++ take (n - offset) T.
Proof.
  intros Hoff HT HR Hl. apply list_eq. intros p.
  destruct (decide (p < n)%nat) as [Hp|Hp].
  - rewrite (Hl p Hp).
    rewrite (nat_mod_cases (p + n - offset) n) by lia.
    destruct (decide (p < offset)%nat) as [Hpo|Hpo].
    + rewrite decide_True by lia.
      rewrite lookup_app_l by (rewrite length_drop; lia).
      rewrite lookup_drop. f_equal. lia.
    + rewrite decide_False by lia.
      rewrite lookup_app_r by (rewrite length_drop; lia).
      rewrite length_drop. rewrite lookup_take_lt by lia. f_equal. lia.
  - rewrite !lookup_ge_None_2; [done| |lia].
    rewrite length_app, length_drop, length_take. lia.
Qed.

Lemma offsets_pass_spec (σ0 : store) (n r : nat) :
  r ∉ dom σ0 →
  ∀ (offs : list nat) (σ : store) (R : list string),
    σ !! r = Some R → length R = n → preserves σ0 σ →
    ∃ σ' R', offsets_pass offs n r σ = Some σ'
             ∧ σ' !! r = Some R' ∧ R' ≡ₚ R ∧ length R' = n ∧ preserves σ0 σ'.
Proof.
  intros Hr0. induction offs as [|offset offs IH]; intros σ R Hr HR Hpres.
  - exists σ, R. done.
  - cbn [offsets_pass]. case_decide as Hoff; [by apply IH|].
    destruct (make_fresh n σ) as [Hfresh Hmk].
    destruct (make n σ) as [t σ1] eqn:Hmake. cbn in Hfresh, Hmk. subst σ1.
    assert (Htr : t ≠ r) by (eapply fresh_ne; eauto).
    rewrite lookup_insert_ne by done. rewrite Hr. cbn [mbind option_bind].
    rewrite (scopy_full t R (replicate n ""));
      [|by rewrite lookup_insert_eq|by rewrite length_replicate].
    cbn [mbind option_bind]. rewrite insert_insert_eq.
    destruct (offset_mix_spec offset n r t R) with (k := n) (i := 0%nat)
      (σ := <[t := R]> σ) (R := R) as (R1 & HM & HL1 & HP1);
      [done|lia|done|by rewrite lookup_insert_eq|by rewrite lookup_insert_ne|done|lia|].
    rewrite HM. cbn [mbind option_bind].
    assert (HR1 : R1 = drop (n - offset) R ++ take (n - offset) R).
    { apply (offset_mix_rotation offset n R R1); [lia|done|done|].
      intros p Hp. rewrite (HP1 p Hp). rewrite decide_True by lia. done. }
    destruct (IH (<[r := R1]> (<[t := R]> σ)) R1) as (σ' & R' & HO & Hr' & HP' & HL' & Hpres').
    { by rewrite lookup_insert_eq. }
    { done. }
    { apply preserves_insert; [|done]. apply preserves_insert; [done|].
      by eapply preserves_dom. }
    exists σ', R'. split; [done|]. split; [done|]. split; [|done].
    rewrite HP', HR1. rewrite Permutation_app_comm. by rewrite take_drop.
Qed.

(** ** The four-pass shuffle *)

Lemma ShuffleCards_multi (ent : Entropy) (cards : nat) (l : list string) (σ : store) :
  σ !! cards = Some l →
  ∃ r σ' l', DeckMultiPass.ShuffleCards ent cards σ = Some (r, σ')
    ∧ σ' !! r = Some l' ∧ l' ≡ₚ l ∧ length l' = length l
    ∧ (r ∉ dom σ) ∧ preserves σ σ'.
Proof.
  intros Hc. unfold DeckMultiPass.ShuffleCards. rewrite Hc. cbn [mbind option_bind].
  destruct (alloc_copy l σ) as (r & Hmk & Hr & Hcp).
  rewrite Hmk, Hcp. cbn [mbind option_bind].
  (* pass 1 *)
  destruct (fisher_yates_spec ent 1 r (length l - 1) l (<[r := l]> σ))
    as (l1 & Hfy & Hp1 & Hl1); [by rewrite lookup_insert_eq|lia|].
  rewrite Hfy. cbn [mbind option_bind]. rewrite insert_insert_eq.
  set (σ3 := <[r := l1]> σ).
  assert (Hr3 : σ3 !! r = Some l1) by apply lookup_insert_eq.
  assert (Hpres3 : preserves σ σ3) by (apply preserves_insert; [apply preserves_refl|done]).
  rewrite Hr3. cbn [mbind option_bind].
  set (n := length l1).
  pose proof (Nat.div_mod_eq n 2) as Hdiv.
  pose proof (Nat.mod_upper_bound n 2 ltac:(lia)) as Hmod.
  (* the halves *)
  unfold make. cbn [fst snd].
  set (f := fresh (dom σ3)).
  assert (Hf3 : f ∉ dom σ3) by apply is_fresh.
  set (σ4 := <[f := replicate (n / 2) ""]> σ3).
  set (s := fresh (dom σ4)).
  assert (Hs4 : s ∉ dom σ4) by apply is_fresh.
  assert (Hfr : f ≠ r) by (eapply fresh_ne; eauto).
  assert (Hsf : s ≠ f) by (eapply (fresh_ne σ4); [done|apply lookup_insert_eq]).
  assert (Hsr : s ≠ r).
  { eapply (fresh_ne σ4); [done|]. subst σ4. rewrite lookup_insert_ne by done. done. }
  assert (Hf0 : f ∉ dom σ) by (by eapply preserves_dom).
  assert (Hs0 : s ∉ dom σ).
  { eapply (preserves_dom σ σ4); [|done]. by apply preserves_insert. }
  set (σ5 := <[s := replicate (n - n / 2) ""]> σ4).
  rewrite (scopy_full f (take (n / 2) l1) (replicate (n / 2) "") σ5).
  2:{ subst σ5 σ4. rewrite lookup_insert_ne by done. apply lookup_insert_eq. }
  2:{ rewrite length_take, length_replicate. fold n. lia. }
  cbn [mbind option_bind].
  set (σ6 := <[f := take (n / 2) l1]> σ5).
  rewrite (scopy_full s (drop (n / 2) l1) (replicate (n - n / 2) "") σ6).
  2:{ subst σ6 σ5. rewrite lookup_insert_ne by done. apply lookup_insert_eq. }
  2:{ rewrite length_drop, length_replicate. done. }
  cbn [mbind option_bind].
  set (σ7 := <[s := drop (n / 2) l1]> σ6).
  assert (Hf7 : σ7 !! f = Some (take (n / 2) l1)).
  { subst σ7 σ6. rewrite lookup_insert_ne by done. apply lookup_insert_eq. }
  assert (Hpres7 : preserves σ σ7).
  { subst σ7 σ6 σ5 σ4. repeat apply preserves_insert; done. }
  assert (Hr7 : σ7 !! r = Some l1).
  { subst σ7 σ6 σ5 σ4. rewrite !lookup_insert_ne by done. done. }
  (* pass 2: the half shuffles *)
  destruct (hash_shuffle_spec f (n / 2 - 1) (take (n / 2) l1) σ7 Hf7)
    as (Fh & HhF & HpF & HlF); [rewrite length_take; fold n; lia|].
  rewrite HhF. cbn [mbind option_bind].
  set (σ8 := <[f := Fh]> σ7).
  assert (Hs8 : σ8 !! s = Some (drop (n / 2) l1)).
  { subst σ8 σ7. rewrite lookup_insert_ne by done. apply lookup_insert_eq. }
  destruct (hash_shuffle_spec s (n - n / 2 - 1) (drop (n / 2) l1) σ8 Hs8)
    as (Sh & HhS & HpS & HlS); [rewrite length_drop; fold n; lia|].
  rewrite HhS. cbn [mbind option_bind].
  set (σ9 := <[s := Sh]> σ8).
  rewrite length_take in HlF. rewrite length_drop in HlS. fold n in HlF, HlS.
  assert (Hf9 : σ9 !! f = Some Fh).
  { subst σ9 σ8. rewrite lookup_insert_ne by done. apply lookup_insert_eq. }
  assert (Hs9 : σ9 !! s = Some Sh) by apply lookup_insert_eq.
  assert (Hr9 : σ9 !! r = Some l1).
  { subst σ9 σ8. rewrite !lookup_insert_ne by done. done. }
  (* the interleaving *)
  destruct (interleave_spec n r f s Fh Sh) with (k := (n / 2)%nat) (i := 0%nat)
    (σ := σ9) (R := l1) as (R1 & HI & HL1 & HP1);
    [done|done|lia|lia|done|done|done|done|lia|done|].
  change (2 * 0)%nat with 0%nat in HI. rewrite HI. cbn [mbind option_bind].
  cbn [Nat.add] in HI, HP1.
  rewrite (firstn_all2 Fh) in HP1 by lia.
  set (σ10 := <[r := R1]> σ9).
  destruct (remainder_spec r s Fh Sh) with (k := (n - n / 2 - n / 2)%nat) (i := (n / 2)%nat)
    (index := (2 * (0 + n / 2))%nat) (σ := σ10) (R := R1) as (R2 & HRm & HL2 & HP2).
  { done. }
  { subst σ10. rewrite lookup_insert_ne by done. done. }
  { apply lookup_insert_eq. }
  { lia. }
  { cbn [Nat.add]. lia. }
  { done. }
  rewrite HRm. cbn [mbind option_bind].
  rewrite firstn_all2 in HP2 by (cbn [Nat.add]; lia).
  subst σ10. rewrite insert_insert_eq.
  set (σ11 := <[r := R2]> σ9).
  assert (Hpres11 : preserves σ σ11).
  { subst σ11 σ9 σ8. repeat apply preserves_insert; done. }
  assert (HR2 : R2 ≡ₚ l1).
  { rewrite HP2, HpF, HpS. by rewrite take_drop. }
  (* pass 3 *)
  destruct (offsets_pass_spec σ n r Hr offsets σ11 R2)
    as (σ12 & R3 & HO & Hr12 & HP3 & HL3 & Hpres12);
    [apply lookup_insert_eq|lia|done|].
  rewrite HO. cbn [mbind option_bind].
  (* pass 4 *)
  destruct (final_pass_spec ent r (n - 1) R3 σ12 Hr12) as (R4 & HF & HP4 & HL4); [lia|].
  rewrite HF. cbn [mbind option_bind].
  exists r, (<[r := R4]> σ12), R4. split; [done|].
  split; [apply lookup_insert_eq|].
  split; [by rewrite HP4, HP3, HR2|].
  split; [subst n; lia|]. split; [done|].
  by apply preserves_insert.
Qed.

(** ** Chip conservation *)

Create HintDb chips.

Lemma chips_inv_sum (B : list Z) (g : game) :
  chips_inv B g → chips_in_play g = sumZ B.
Proof.
  intros (HB & Hok & _). unfold chips_in_play. rewrite <- HB. clear HB.
  induction Hok as [|p l Hp Hl IH]; [done|].
  rewrite !fmap_cons. unfold sumZ in *. cbn [foldr]. rewrite IH.
  destruct Hp as (_ & _ & _ & Hsum & _). lia.
Qed.

Lemma chip_safe_same (f : PlayerState → PlayerState) :
  (∀ p, StackSize (f p) = StackSize p ∧ Wager (f p) = Wager p
        ∧ Pot (f p) = Pot p ∧ Bankroll (f p) = Bankroll p) →
  chip_safe f.
Proof.
  intros Hf p Hp. destruct (Hf p) as (H1 & H2 & H3 & H4).
  unfold seat_ok. rewrite H1, H2, H3, H4. done.
Qed.

Lemma chip_safe_compose (f k : PlayerState → PlayerState) :
  chip_safe f → chip_safe k → chip_safe (λ p, f (k p)).
Proof.
  intros Hf Hk p Hp. destruct (Hk p Hp) as [Hk1 Hk2].
  destruct (Hf (k p) Hk1) as [Hf1 Hf2]. split; [done|congruence].
Qed.

Lemma chip_safe_Reset : chip_safe Reset.
Proof. by apply chip_safe_same. Qed.

Lemma chip_safe_with_AllowedActions a : chip_safe (with_AllowedActions a).
Proof. by apply chip_safe_same. Qed.

Lemma chip_safe_ResetAllowedActions : chip_safe ResetAllowedActions.
Proof. by apply chip_safe_same. Qed.

Lemma chip_safe_AllowActions a : chip_safe (AllowActions a).
Proof. by apply chip_safe_same. Qed.

Lemma chip_safe_with_Acted b : chip_safe (with_Acted b).
Proof. by apply chip_safe_same. Qed.

Lemma chip_safe_with_VPIP b : chip_safe (with_VPIP b).
Proof. by apply chip_safe_same. Qed.

Lemma chip_safe_with_Fold b : chip_safe (with_Fold b).
Proof. by apply chip_safe_same. Qed.

Lemma chip_safe_with_HoleCards c : chip_safe (with_HoleCards c).
Proof. by apply chip_safe_same. Qed.

Lemma chip_safe_acted name : chip_safe (λ p, with_DidAction name (with_Acted true p)).
Proof. by apply chip_safe_same. Qed.

Lemma chip_safe_resetPlayerStatus : chip_safe resetPlayerStatus.
Proof.
  intros p (H1 & H2 & H3 & H4 & H5).
  destruct (resetPlayerStatus_fields p) as (HP & HW & _ & HS & _ & _ & HB & _).
  unfold seat_ok. rewrite HP, HW, HS, HB.
  rewrite wrap64_small by (unfold in_int64; lia). repeat split; lia.
Qed.

Lemma chip_safe_payAnte (ante : Z) : 0 <= ante → chip_safe (payAnte ante).
Proof.
  intros Ha p (H1 & H2 & H3 & H4 & H5). unfold payAnte, seat_ok. cbn.
  repeat split; lia.
Qed.

Lemma chip_safe_pay (chips : Z) :
  chip_safe (λ p, if decide (0 <= chips <= StackSize p)
                  then with_chips (StackSize p - chips) (Wager p + chips) (Pot p) p
                  else p).
Proof.
  intros p (H1 & H2 & H3 & H4 & H5). case_decide; [|done].
  unfold seat_ok. cbn. repeat split; lia.
Qed.

Lemma chip_safe_finalize :
  chip_safe (λ p, with_chips (StackSize p) 0 (Pot p + Wager p) p).
Proof.
  intros p (H1 & H2 & H3 & H4 & H5). unfold seat_ok. cbn. repeat split; lia.
Qed.

#[export] Hint Resolve chip_safe_Reset chip_safe_with_AllowedActions
  chip_safe_ResetAllowedActions chip_safe_AllowActions chip_safe_with_Acted
  chip_safe_with_VPIP chip_safe_with_Fold chip_safe_with_HoleCards chip_safe_acted
  chip_safe_resetPlayerStatus chip_safe_finalize : chips.

(** *** What the building blocks do to the invariant *)

Lemma inv_set_status (B : list Z) (f : Status → Status) (g : game) :
  chips_inv B g → chips_inv B (set_status f g).
Proof. done. Qed.

Lemma inv_set_Deck (B : list Z) (d : list string) (g : game) :
  chips_inv B g → chips_inv B (set_meta (with_Deck d) g).
Proof. done. Qed.

Lemma inv_fmap (B : list Z) (f : PlayerState → PlayerState) (g : game) :
  chip_safe f → chips_inv B g → chips_inv B (set_Players (fmap f) g).
Proof.
  intros Hf (HB & Hok & Ha). unfold chips_inv. cbn. split; [|split; [|done]].
  - rewrite <- HB, <- list_fmap_compose. apply Forall_fmap_ext_1.
    eapply Forall_impl; [exact Hok|]. intros p Hp. by apply Hf.
  - apply Forall_fmap. eapply Forall_impl; [exact Hok|]. intros p Hp. by apply Hf.
Qed.

Lemma inv_update_player (B : list Z) (h : nat) (f : PlayerState → PlayerState) (g : game) :
  chip_safe f → chips_inv B g → chips_inv B (update_player h f g).
Proof.
  intros Hf (HB & Hok & Ha). unfold chips_inv, update_player. cbn.
  split; [|split; [|done]].
  - rewrite <- HB. apply list_eq. intros i.
    rewrite !list_lookup_fmap, list_lookup_alter.
    case_decide as E; [subst i|done].
    destruct (Players (gs g) !! h) as [p|] eqn:Hp; [|done]. cbn. f_equal.
    apply Hf. by eapply Forall_lookup_1.
  - apply Forall_lookup. intros i p. rewrite list_lookup_alter.
    case_decide as E.
    + subst i. destruct (Players (gs g) !! h) as [q|] eqn:Hq; [|done].
      intros [= <-]. apply Hf. by eapply Forall_lookup_1.
    + intros Hi. by eapply Forall_lookup_1.
Qed.

Lemma inv_for_players (B : list Z) (f : PlayerState → PlayerState)
    (l : list (option nat)) (g g' : game) :
  for_players l f g = Some g' → chip_safe f → chips_inv B g → chips_inv B g'.
Proof.
  intros Hfor Hf. revert g Hfor.
  induction l as [|[h|] l IH]; intros g Hfor Hinv; cbn in Hfor.
  - by injection Hfor as <-.
  - case_decide; [|done]. eapply IH; [done|]. by apply inv_update_player.
  - done.
Qed.

Lemma inv_UpdateLastAction (B : list Z) s a v (g : game) :
  chips_inv B g → chips_inv B (UpdateLastAction s a v g).
Proof. done. Qed.

Lemma inv_ResetActedPlayers (B : list Z) (g : game) :
  chips_inv B g → chips_inv B (ResetActedPlayers g).
Proof. apply inv_fmap. auto with chips. Qed.

#[export] Hint Resolve inv_set_status inv_set_Deck inv_fmap inv_update_player
  inv_UpdateLastAction inv_ResetActedPlayers : chips.

(** *** The routines of the sources *)

Ltac open_routine :=
  repeat match goal with
    | H : Some _ = Some _ |- _ => injection H as H; try subst
    | H : None = Some _ |- _ => discriminate H
    | H : (_, _) = (_, _) |- _ => injection H as ? ?; try subst
    | p : (_ * _)%type |- _ => destruct p; cbn [fst snd] in *
    | H : context [mbind _ ?x] |- _ =>
        let E := fresh "E" in destruct x eqn:E; cbn [mbind option_bind] in H
    | H : context [decide ?P] |- _ => destruct (decide P)
    | H : context [bool_decide ?P] |- _ => destruct (bool_decide P)
    | H : context [match ?x with _ => _ end] |- _ =>
        let E := fresh "E" in destruct x eqn:E
    end.

Lemma setCurrentPlayer_keeps (B : list Z) p (g g' : game) :
  setCurrentPlayer p g = Some g' → chips_inv B g → chips_inv B g'.
Proof. unfold setCurrentPlayer. intros H Hi. open_routine; auto with chips. Qed.

Lemma SetCurrentPlayer_keeps (B : list Z) p (g g' : game) :
  SetCurrentPlayer p g = Some g' → chips_inv B g → chips_inv B g'.
Proof.
  unfold SetCurrentPlayer. intros H Hi.
  open_routine; eauto 6 using setCurrentPlayer_keeps with chips.
Qed.

Lemma ResetRoundStatus_keeps (B : list Z) (g g' : game) :
  ResetRoundStatus g = Some g' → chips_inv B g → chips_inv B g'.
Proof. unfold ResetRoundStatus. intros H Hi. open_routine; auto with chips. Qed.

Lemma ResetAllPlayerStatus_keeps (B : list Z) (g g' : game) :
  ResetAllPlayerStatus g = Some g' → chips_inv B g → chips_inv B g'.
Proof.
  unfold ResetAllPlayerStatus. intros H Hi. open_routine.
  eapply inv_for_players; eauto with chips.
Qed.

Lemma ResetAllPlayerAllowedActions_keeps (B : list Z) (g g' : game) :
  ResetAllPlayerAllowedActions g = Some g' → chips_inv B g → chips_inv B g'.
Proof.
  unfold ResetAllPlayerAllowedActions. intros H Hi. open_routine.
  eapply inv_for_players; eauto with chips.
Qed.

Lemma BecomeRaiser_keeps (B : list Z) h (g g' : game) :
  BecomeRaiser h g = Some g' → chips_inv B g → chips_inv B g'.
Proof.
  unfold BecomeRaiser. intros H Hi. open_routine; repeat case_decide; auto 8 with chips.
Qed.

#[export] Hint Resolve setCurrentPlayer_keeps SetCurrentPlayer_keeps
  ResetRoundStatus_keeps ResetAllPlayerStatus_keeps
  ResetAllPlayerAllowedActions_keeps BecomeRaiser_keeps : chips.

Lemma deal_loop_keeps (B : list Z) k i cards (g : game) cards' (g' : game) :
  deal_loop k i cards g = Some (cards', g') → chips_inv B g → chips_inv B g'.
Proof.
  revert i cards g. induction k as [|k IH]; intros i cards g H Hi; cbn in H.
  - by injection H as <- <-.
  - open_routine. eapply IH; [done|]. auto with chips.
Qed.

Lemma Deal_keeps (B : list Z) count (g : game) cards (g' : game) :
  Deal count g = Some (cards, g') → chips_inv B g → chips_inv B g'.
Proof.
  unfold Deal. intros H Hi. open_routine. eauto using deal_loop_keeps.
Qed.

Lemma Burn_keeps (B : list Z) count (g g' : game) :
  Burn count g = Some g' → chips_inv B g → chips_inv B g'.
Proof.
  unfold Burn. intros H Hi. open_routine. eauto using Deal_keeps with chips.
Qed.

Lemma deal_holes_keeps (B : list Z) k h (g g' : game) :
  deal_holes k h g = Some g' → chips_inv B g → chips_inv B g'.
Proof.
  revert h g. induction k as [|k IH]; intros h g H Hi; cbn in H.
  - by injection H as <-.
  - open_routine. eapply IH; [done|]. eauto using Deal_keeps with chips.
Qed.

Lemma StartAtDealer_keeps (B : list Z) (g : game) o p :
  StartAtDealer g = Some (o, p) → chips_inv B g → chips_inv B (state_of o).
Proof.
  unfold StartAtDealer. intros H Hi. open_routine; cbn; eauto with chips.
Qed.

Lemma RequestPlayerAction_keeps (B : list Z) (g : game) o :
  RequestPlayerAction g = Some o → chips_inv B g → chips_inv B (state_of o).
Proof.
  unfold RequestPlayerAction. intros H Hi. open_routine; cbn; eauto with chips.
Qed.

Lemma RequestReady_keeps (B : list Z) (g : game) o :
  RequestReady g = Some o → chips_inv B g → chips_inv B (state_of o).
Proof.
  unfold RequestReady. intros H Hi. open_routine; cbn; eauto with chips.
Qed.

#[export] Hint Resolve Deal_keeps Burn_keeps deal_holes_keeps StartAtDealer_keeps
  RequestPlayerAction_keeps RequestReady_keeps : chips.

Lemma deal_board_keeps (B : list Z) count (g : game) o :
  deal_board count g = Some o → chips_inv B g → chips_inv B (state_of o).
Proof.
  unfold deal_board. intros H Hi. open_routine; cbn.
  eapply StartAtDealer_keeps; [eassumption|]. eauto 6 with chips.
Qed.

Lemma InitializeRound_keeps (B : list Z) (g : game) o :
  InitializeRound g = Some o → chips_inv B g → chips_inv B (state_of o).
Proof.
  unfold InitializeRound, UpdateCombinationOfAllPlayers. intros H Hi.
  open_routine; cbn;
    try match goal with
      | E : deal_board _ _ = Some ?o |- _ =>
          apply (deal_board_keeps B) in E; [|done]; cbn in E
      end; eauto with chips.
Qed.

Lemma PrepareRound_keeps (B : list Z) (g : game) o :
  PrepareRound g = Some o → chips_inv B g → chips_inv B (state_of o).
Proof.
  unfold PrepareRound. intros H Hi. open_routine; cbn; eauto with chips.
Qed.

Lemma seek_bb_keeps (B : list Z) k (g g' : game) :
  seek_bb k g = Some g' → chips_inv B g → chips_inv B g'.
Proof.
  revert g. induction k as [|k IH]; intros g H Hi; cbn in H.
  - by injection H as <-.
  - open_routine; eauto with chips.
Qed.

Lemma StartRound_keeps (B : list Z) (g : game) o :
  StartRound g = Some o → chips_inv B g → chips_inv B (state_of o).
Proof.
  unfold StartRound. intros H Hi.
  open_routine; cbn;
    try match goal with
      | E : StartAtDealer _ = Some (?o, _) |- _ =>
          apply (StartAtDealer_keeps B) in E; [cbn in E|by eauto with chips]
      end; eauto 8 using seek_bb_keeps with chips.
Qed.

Lemma Initialize_keeps (B : list Z) ent (g : game) o :
  Initialize ent g = Some o → chips_inv B g → chips_inv B (state_of o).
Proof.
  unfold Initialize. intros H Hi. open_routine; cbn; eauto 8 with chips.
Qed.

Lemma nextRound_keeps (B : list Z) (g : game) o :
  nextRound g = Some o → chips_inv B g → chips_inv B (state_of o).
Proof.
  unfold nextRound, EnterFlopRound, EnterTurnRound, EnterRiverRound.
  intros H Hi. open_routine; cbn; eauto 8 with chips.
Qed.

Lemma Next_keeps (B : list Z) (g : game) o :
  Next g = Some o → chips_inv B g → chips_inv B (state_of o).
Proof.
  unfold Next. intros H Hi. open_routine; cbn; eauto using nextRound_keeps with chips.
Qed.

#[export] Hint Resolve InitializeRound_keeps PrepareRound_keeps StartRound_keeps
  Initialize_keeps Next_keeps : chips.

(** *** The operations modelled from the specification *)

Lemma update_player_ext (h : nat) (f k : PlayerState → PlayerState) (g : game) :
  (∀ p, Players (gs g) !! h = Some p → f p = k p) →
  update_player h f g = update_player h k g.
Proof.
  intros Hfk. unfold update_player, set_Players. do 2 f_equal.
  apply list_eq. intros i. rewrite !list_lookup_alter.
  case_decide; [subst i|done].
  destruct (Players (gs g) !! h) as [p|] eqn:Hp; [|done]. cbn. f_equal. by apply Hfk.
Qed.

Lemma pay_keeps (B : list Z) h chips (g : game) o :
  pay h chips g = Some o → chips_inv B g → chips_inv B (state_of o).
Proof.
  unfold pay. intros H Hi.
  destruct (Players (gs g) !! h) as [ps|] eqn:Hps; [|done]. cbn in H.
  case_decide as Hc; injection H as <-; cbn; [done|].
  set (g1 := set_status _ g).
  rewrite (update_player_ext h _
             (λ p, if decide (0 <= chips <= StackSize p)
                   then with_chips (StackSize p - chips) (Wager p + chips) (Pot p) p
                   else p) g1).
  - apply inv_update_player; [apply chip_safe_pay|done].
  - intros p Hp. cbn in Hp. rewrite Hps in Hp. injection Hp as <-.
    rewrite decide_True by lia. done.
Qed.

Lemma acted_keeps (B : list Z) h name value (g : game) o :
  acted h name value g = Some o → chips_inv B g → chips_inv B (state_of o).
Proof.
  unfold acted. intros H Hi. open_routine.
  eapply RequestPlayerAction_keeps; [eassumption|]. auto with chips.
Qed.

Lemma raise_to_keeps (B : list Z) h name level (g : game) o :
  raise_to h name level g = Some o → chips_inv B g → chips_inv B (state_of o).
Proof.
  unfold raise_to. intros H Hi. open_routine.
  eapply acted_keeps; [eassumption|]. eauto with chips.
Qed.

Lemma as_current_keeps (B : list Z) name body (g : game) o :
  (∀ h ps g o, body h ps g = Some o → chips_inv B g → chips_inv B (state_of o)) →
  as_current name body g = Some o → chips_inv B g → chips_inv B (state_of o).
Proof.
  unfold as_current. intros Hbody H Hi. open_routine; cbn; eauto.
Qed.

Lemma after_pay (B : list Z) h chips (g : game) o
    (k : game → option outcome) o' :
  pay h chips g = Some o →
  match o with Done g1 => k g1 | _ => Some o end = Some o' →
  (∀ g1 o1, k g1 = Some o1 → chips_inv B g1 → chips_inv B (state_of o1)) →
  chips_inv B g → chips_inv B (state_of o').
Proof.
  intros Hpay Hk Hkeeps Hi. apply (pay_keeps B) in Hpay; [|done].
  destruct o; cbn in Hpay; [by eapply Hkeeps|by injection Hk as <-..].
Qed.

Lemma Pass_keeps (B : list Z) (g : game) o :
  Pass g = Some o → chips_inv B g → chips_inv B (state_of o).
Proof.
  apply as_current_keeps. intros h ps g1 o1. apply acted_keeps.
Qed.

Lemma Check_keeps (B : list Z) (g : game) o :
  Check g = Some o → chips_inv B g → chips_inv B (state_of o).
Proof.
  apply as_current_keeps. intros h ps g1 o1. apply acted_keeps.
Qed.

Lemma FoldAction_keeps (B : list Z) (g : game) o :
  FoldAction g = Some o → chips_inv B g → chips_inv B (state_of o).
Proof.
  apply as_current_keeps. intros h ps g1 o1 H Hi.
  eapply acted_keeps; [eassumption|]. auto with chips.
Qed.

Lemma Call_keeps (B : list Z) (g : game) o :
  Call g = Some o → chips_inv B g → chips_inv B (state_of o).
Proof.
  apply as_current_keeps. intros h ps g1 o1 H Hi. cbn zeta in H.
  destruct (pay h _ g1) as [op|] eqn:Hpay; [|done]. cbn [mbind option_bind] in H.
  eapply (after_pay B); [exact Hpay|exact H| |done].
  intros g2 o2. apply acted_keeps.
Qed.

Lemma Bet_keeps (B : list Z) chips (g : game) o :
  Bet chips g = Some o → chips_inv B g → chips_inv B (state_of o).
Proof.
  apply as_current_keeps. intros h ps g1 o1 H Hi.
  case_decide; [by injection H as <-|].
  destruct (pay h _ g1) as [op|] eqn:Hpay; [|done]. cbn [mbind option_bind] in H.
  eapply (after_pay B); [exact Hpay|exact H| |done].
  intros g2 o2 H2 Hi2. cbn beta in H2.
  destruct (Players (gs g2) !! h) as [p1|]; [|done]. cbn [mbind option_bind] in H2.
  eapply raise_to_keeps; eassumption.
Qed.

Lemma Raise_keeps (B : list Z) chipLevel (g : game) o :
  Raise chipLevel g = Some o → chips_inv B g → chips_inv B (state_of o).
Proof.
  apply as_current_keeps. intros h ps g1 o1 H Hi. cbn zeta in H.
  case_decide; [by injection H as <-|].
  destruct (pay h _ g1) as [op|] eqn:Hpay; [|done]. cbn [mbind option_bind] in H.
  eapply (after_pay B); [exact Hpay|exact H| |done].
  intros g2 o2. apply raise_to_keeps.
Qed.

Lemma Allin_keeps (B : list Z) (g : game) o :
  Allin g = Some o → chips_inv B g → chips_inv B (state_of o).
Proof.
  apply as_current_keeps. intros h ps g1 o1 H Hi.
  destruct (pay h _ g1) as [op|] eqn:Hpay; [|done]. cbn [mbind option_bind] in H.
  eapply (after_pay B); [exact Hpay|exact H| |done].
  intros g2 o2 H2 Hi2. cbn beta zeta in H2.
  repeat case_decide;
    first [by eapply raise_to_keeps
          |by eapply acted_keeps
          |eapply acted_keeps; [eassumption|]; by auto with chips].
Qed.

Lemma PayAnte_keeps (B : list Z) (g : game) o :
  PayAnte g = Some o → chips_inv B g → chips_inv B (state_of o).
Proof.
  unfold PayAnte. intros H Hi. open_routine; cbn; try done.
  all: apply inv_UpdateLastAction;
    eapply inv_for_players; [eassumption| |done];
    apply chip_safe_payAnte; by destruct Hi as (_ & _ & ?).
Qed.

Lemma payBlind_keeps (B : list Z) p blind (g g' : game) :
  payBlind p blind g = Some g' → chips_inv B g → chips_inv B g'.
Proof.
  unfold payBlind. intros H Hi.
  destruct p as [h|]; [|by injection H as <-].
  destruct (Players (gs g) !! h) as [ps|]; [|done]. cbn [mbind option_bind] in H.
  case_decide; [by injection H as <-|].
  destruct (pay h _ g) as [op|] eqn:Hpay; [|done]. cbn [mbind option_bind] in H.
  apply (pay_keeps B) in Hpay; [|done].
  destruct op; injection H as <-; done.
Qed.

Lemma PayBlinds_keeps (B : list Z) (g : game) o :
  PayBlinds g = Some o → chips_inv B g → chips_inv B (state_of o).
Proof.
  unfold PayBlinds. intros H Hi. open_routine; cbn; try done.
  all: apply inv_set_status; eauto using payBlind_keeps.
Qed.

Lemma Settle_keeps (B : list Z) (g : game) o :
  Settle g = Some o → chips_inv B g → chips_inv B (state_of o).
Proof.
  unfold Settle. intros H Hi. open_routine; cbn.
  eapply SetCurrentPlayer_keeps; [eassumption|]. auto with chips.
Qed.

Lemma ReadyForAll_keeps (B : list Z) (g : game) o :
  ReadyForAll g = Some o → chips_inv B g → chips_inv B (state_of o).
Proof.
  unfold ReadyForAll, RequestAnte, RequestBlinds. intros H Hi.
  open_routine; repeat case_decide; cbn; done.
Qed.

Lemma handle_keeps (B : list Z) ent ev (g : game) o :
  handle ent ev g = Some o → chips_inv B g → chips_inv B (state_of o).
Proof.
  destruct ev; cbn [handle]; unfold Prepare, RequestBlinds, EnterPreflopRound;
    intros H Hi;
    try (injection H as <-; repeat case_decide; cbn; done);
    eauto using Settle_keeps with chips.
Qed.

Lemma dispatch_Done ent fuel (g : game) : dispatch ent fuel (Done g) = Some (Done g).
Proof. by destruct fuel. Qed.

Lemma dispatch_Fail ent fuel e (g : game) :
  dispatch ent fuel (Fail e g) = Some (Fail e g).
Proof. by destruct fuel. Qed.

Lemma dispatch_keeps (B : list Z) ent fuel o o' :
  dispatch ent fuel o = Some o' →
  chips_inv B (state_of o) → chips_inv B (state_of o').
Proof.
  revert o. induction fuel as [|fuel IH]; intros o H Hi.
  - destruct o; injection H as <-; done.
  - destruct o as [g|e g|ev g]; cbn in H; [by injection H as <-..|].
    destruct (handle ent ev _) as [o1|] eqn:Hh; [|done]. cbn in H.
    eapply IH; [exact H|]. eapply handle_keeps; [exact Hh|]. done.
Qed.

Lemma apply_operation_keeps (B : list Z) op (g : game) o :
  apply_operation op g = Some o → chips_inv B g → chips_inv B (state_of o).
Proof.
  destruct op; cbn [apply_operation];
    eauto using ReadyForAll_keeps, PayAnte_keeps, PayBlinds_keeps, Next_keeps,
      Pass_keeps, FoldAction_keeps, Check_keeps, Call_keeps, Allin_keeps,
      Bet_keeps, Raise_keeps.
Qed.

Lemma run_keeps (B : list Z) ent op (g : game) o :
  run ent op g = Some o → chips_inv B g → chips_inv B (state_of o).
Proof.
  unfold run. intros H Hi.
  destruct (apply_operation op g) as [o1|] eqn:Hop; [|done].
  cbn [mbind option_bind] in H.
  eapply dispatch_keeps; [exact H|]. by eapply apply_operation_keeps.
Qed.

Lemma addPlayers_fresh (l : list PlayerSetting) (idx : Z) (ga g : game) :
  addPlayers idx l ga = Some g →
  Forall (λ s, SBankroll s < 2 ^ 63) l →
  Forall (λ ps, StackSize ps = Bankroll ps ∧ Wager ps = 0 ∧ Pot ps = 0
                ∧ Bankroll ps < 2 ^ 63) (Players (gs ga)) →
  Forall (λ ps, StackSize ps = Bankroll ps ∧ Wager ps = 0 ∧ Pot ps = 0
                ∧ Bankroll ps < 2 ^ 63) (Players (gs g))
  ∧ meta (gs g) = meta (gs ga).
Proof.
  intros Hadd Hfit. revert idx ga Hadd.
  induction Hfit as [|s l Hs Hl IH]; intros idx ga Hadd Ha; cbn in Hadd.
  - by injection Hadd as <-.
  - destruct (AddPlayer idx s ga) as [gb|] eqn:Hgb; [|done]. cbn in Hadd.
    unfold AddPlayer, addPlayer in Hgb. cbn in Hgb.
    rewrite lookup_app_r in Hgb by lia. rewrite Nat.sub_diag in Hgb. cbn in Hgb.
    injection Hgb as <-.
    destruct (IH _ _ Hadd) as [H1 H2]; [|done].
    cbn. apply Forall_app. split; [done|]. repeat constructor; done.
Qed.

(** A freshly built game that [Start] accepts satisfies the invariant. *)
Lemma Start_establishes (opts : GameOptions) (g0 : game) ev (g1 : game) :
  NewGame opts = Some g0 → options_ok opts →
  Start g0 = Emit ev g1 →
  chips_inv (Bankroll <$> Players (gs g0)) g1.
Proof.
  intros Hnew [Hfit Hante] Hstart.
  destruct (addPlayers_fresh _ _ _ _ Hnew Hfit) as [Hf Hmeta]; [constructor|].
  assert (Hf3 : Ante (meta (gs g0)) = OAnte opts) by (by rewrite Hmeta).
  unfold Start in Hstart.
  destruct (decide (GetPlayerCount g0 < 2)); [done|].
  destruct (decide (dealer g0 = None)); [done|].
  destruct (existsb _ _) eqn:Hex; [done|].
  destruct (decide (length (Deck (meta (gs g0))) = 0%nat)); [done|].
  injection Hstart as _ <-. unfold chips_inv. cbn.
  split; [done|]. split; [|lia].
  apply Forall_lookup. intros i p Hp.
  pose proof (Forall_lookup_1 _ _ _ _ Hf Hp) as (H1 & H2 & H3 & H4).
  assert (Hpos : ¬ Bankroll p <= 0).
  { intros Hle. apply not_true_iff_false in Hex. apply Hex.
    apply existsb_exists. exists p. split; [|by apply bool_decide_eq_true].
    apply list_elem_of_In. by eapply list_elem_of_lookup_2. }
  unfold seat_ok. lia.
Qed.

Lemma reachable_inv (opts : GameOptions) (ent : Entropy) (g0 g : game) :
  NewGame opts = Some g0 → options_ok opts →
  reachable ent g0 g →
  chips_inv (Bankroll <$> Players (gs g0)) g.
Proof.
  intros Hnew Hok Hreach. induction Hreach as [g Hstart|g op g' _ IH Hrun].
  - unfold run_Start in Hstart.
    destruct (Start g0) as [g1|e g1|ev g1] eqn:HS.
    + (* [Start] never returns without an error or an event *)
      exfalso. unfold Start in HS. repeat case_match; done.
    + by rewrite dispatch_Fail in Hstart.
    + eapply (dispatch_keeps _ ent _ _ (Done g)); [exact Hstart|].
      cbn. by eapply Start_establishes.
  - by apply (run_keeps _ ent op g (Done g')).
Qed.

Lemma reachable_play (ent : Entropy) (ops : list operation) (g0 g : game) :
  play ent ops g0 = Some (Done g) → reachable ent g0 g.
Proof.
  unfold play. intros H.
  destruct (run_Start ent g0) as [[g1|e g1|ev g1]|] eqn:HS; cbn in H; try done.
  assert (Hr : reachable ent g0 g1) by (by constructor).
  clear HS. revert g1 Hr H. induction ops as [|op ops IH]; intros g1 Hr H; cbn in H.
  - by injection H as <-.
  - destruct (run ent op g1) as [[g2|e g2|ev g2]|] eqn:Hrun; cbn in H; try done.
    eapply IH; [|exact H]. by eapply reachable_run.
Qed.

(** *** The pot layers recount the pot fields *)

Lemma ascending_above (prev : Z) (levels : list Z) (c : Z) :
  ascending prev levels → c ∈ levels → prev < c.
Proof.
  revert prev. induction levels as [|c' rest IH]; intros prev Hasc Hin.
  - by apply elem_of_nil in Hin.
  - destruct Hasc as [Hlt Hrest]. apply elem_of_cons in Hin as [->|Hin]; [done|].
    specialize (IH c' Hrest Hin). lia.
Qed.

Lemma insert_level_ascending (prev c : Z) (levels : list Z) :
  ascending prev levels → prev < c → ascending prev (insert_level c levels).
Proof.
  revert prev. induction levels as [|c' rest IH]; intros prev Hasc Hc; cbn.
  - done.
  - destruct Hasc as [Hlt Hrest]. repeat case_decide; cbn.
    + done.
    + done.
    + split; [done|]. apply IH; [done|lia].
Qed.

Lemma insert_level_elem (c x : Z) (levels : list Z) :
  x ∈ insert_level c levels ↔ x = c ∨ x ∈ levels.
Proof.
  induction levels as [|c' rest IH]; cbn.
  - rewrite elem_of_cons, elem_of_nil. tauto.
  - repeat case_decide.
    + rewrite !elem_of_cons. tauto.
    + subst. rewrite !elem_of_cons. tauto.
    + rewrite !elem_of_cons, IH. tauto.
Qed.

Lemma contribution_levels_ascending (l : list PlayerState) :
  ascending 0 (contribution_levels l).
Proof.
  induction l as [|p l IH]; cbn; [done|].
  case_decide; [|done]. by apply insert_level_ascending.
Qed.

Lemma contribution_levels_elem (l : list PlayerState) (p : PlayerState) :
  p ∈ l → 0 < Pot p → Pot p ∈ contribution_levels l.
Proof.
  induction l as [|q l IH]; intros Hin Hpos; cbn.
  - by apply elem_of_nil in Hin.
  - apply elem_of_cons in Hin as [->|Hin].
    + rewrite decide_True by done. apply insert_level_elem. by left.
    + case_decide; [apply insert_level_elem; right|]; by apply IH.
Qed.

Lemma layer_split (prev c : Z) (l : list PlayerState) :
  prev < c →
  (∀ p, p ∈ l → Pot p < c → Pot p <= prev) →
  sumZ ((λ p, Z.max 0 (Pot p - prev)) <$> l)
  = (c - prev) * Z.of_nat (length (filter (λ p, c <= Pot p) l))
    + sumZ ((λ p, Z.max 0 (Pot p - c)) <$> l).
Proof.
  intros Hc. induction l as [|p l IH]; intros Hl.
  - cbn. lia.
  - rewrite !fmap_cons, filter_cons. unfold sumZ in *. cbn [foldr].
    rewrite IH by (intros q Hq; apply Hl; by apply elem_of_cons; right).
    case_decide as Hp; cbn [length].
    + lia.
    + specialize (Hl p ltac:(by apply elem_of_cons; left) ltac:(lia)). lia.
Qed.

Lemma build_layers_total (levels : list Z) (prev : Z) (l : list PlayerState) :
  ascending prev levels →
  (∀ p, p ∈ l → prev < Pot p → Pot p ∈ levels) →
  sumZ (Total <$> build_layers prev levels l)
  = sumZ ((λ p, Z.max 0 (Pot p - prev)) <$> l).
Proof.
  revert prev. induction levels as [|c rest IH]; intros prev Hasc Hall.
  - cbn. induction l as [|p l IHl]; [done|].
    rewrite fmap_cons. unfold sumZ in *. cbn [foldr].
    rewrite <- IHl by (intros q Hq; apply Hall; by apply elem_of_cons; right).
    destruct (decide (prev < Pot p)) as [Hp|Hp]; [|lia].
    specialize (Hall p ltac:(by apply elem_of_cons; left) Hp).
    by apply elem_of_nil in Hall.
  - destruct Hasc as [Hlt Hrest].
    cbn [build_layers]. rewrite fmap_cons. unfold sumZ at 1. cbn [foldr Total].
    fold (sumZ (Total <$> build_layers c rest l)).
    rewrite (IH c Hrest).
    + symmetry. apply layer_split; [done|].
      intros p Hp Hpc. destruct (decide (Pot p <= prev)) as [|Hgt]; [done|].
      specialize (Hall p Hp ltac:(lia)).
      apply elem_of_cons in Hall as [Heq|Hin]; [lia|].
      pose proof (ascending_above c rest (Pot p) Hrest Hin). lia.
    + intros p Hp Hpc. specialize (Hall p Hp ltac:(lia)).
      apply elem_of_cons in Hall as [Heq|Hin]; [lia|done].
Qed.

Lemma pot_layers_total (l : list PlayerState) :
  Forall (λ p, 0 <= Pot p) l →
  sumZ (Total <$> pot_layers l) = sumZ (Pot <$> l).
Proof.
  intros Hpos. unfold pot_layers.
  rewrite build_layers_total.
  - induction Hpos as [|p l Hp Hl IH]; [done|].
    rewrite !fmap_cons. unfold sumZ in *. cbn [foldr]. rewrite IH. lia.
  - apply contribution_levels_ascending.
  - intros p Hp Hpos'. by apply contribution_levels_elem.
Qed.

(** *** The chains of handlers end *)

Lemma rank_le (ev : GameEvent) : (rank ev <= 4)%nat.
Proof. destruct ev; cbn; lia. Qed.

Lemma StartAtDealer_no_event (g : game) o p ev g' :
  StartAtDealer g = Some (o, p) → o ≠ Emit ev g'.
Proof.
  unfold StartAtDealer. intros H. open_routine; done.
Qed.

Lemma handle_rank (ent : Entropy) (ev ev' : GameEvent) (g g' : game) :
  handle ent ev g = Some (Emit ev' g') → (rank ev' < rank ev)%nat.
Proof.
  destruct ev; cbn [handle];
    unfold Initialize, Prepare, RequestReady, RequestBlinds, EnterPreflopRound,
      InitializeRound, deal_board, UpdateCombinationOfAllPlayers, PrepareRound,
      RequestReady, StartRound, RequestPlayerAction, Settle;
    intros H; open_routine;
    try match goal with
      | E : StartAtDealer _ = Some (Emit _ _, _) |- _ =>
          exfalso; exact (StartAtDealer_no_event _ _ _ _ _ E eq_refl)
      end;
    try (repeat case_decide; simplify_eq; cbn; lia).
Qed.

Lemma dispatch_settles (ent : Entropy) (fuel : nat) (o o' : outcome) :
  dispatch ent fuel o = Some o' →
  (∀ ev g, o = Emit ev g → (rank ev < fuel)%nat) →
  ∀ ev' g', o' ≠ Emit ev' g'.
Proof.
  revert o. induction fuel as [|fuel IH]; intros o H Hrank ev' g' ->.
  - destruct o as [g|e g|ev g]; cbn in H; try done.
    specialize (Hrank ev g eq_refl). lia.
  - destruct o as [g|e g|ev g]; cbn in H; try done.
    destruct (handle ent ev _) as [o1|] eqn:Hh; [|done]. cbn in H.
    eapply (IH o1); [exact H| |reflexivity].
    intros ev1 g1 ->. apply handle_rank in Hh.
    specialize (Hrank ev g eq_refl). lia.
Qed.

(** An operation never leaves an event pending: it is accepted or refused. *)
Lemma run_settles (ent : Entropy) (op : operation) (g : game) (o : outcome) :
  run ent op g = Some o → ∀ ev g', o ≠ Emit ev g'.
Proof.
  unfold run. intros H.
  destruct (apply_operation op g) as [o1|] eqn:Hop; [|done].
  cbn [mbind option_bind] in H.
  eapply dispatch_settles; [exact H|].
  intros ev g1 _. pose proof (rank_le ev). unfold chain_bound. lia.
Qed.

(** *** Settlement *)

Lemma SetCurrentPlayer_None_pots (g g' : game) :
  SetCurrentPlayer None g = Some g' →
  (Pot <$> Players (gs g')) = (Pot <$> Players (gs g))
  ∧ (Wager <$> Players (gs g')) = (Wager <$> Players (gs g))
  ∧ Pots (status (gs g')) = Pots (status (gs g)).
Proof.
  unfold SetCurrentPlayer, setCurrentPlayer. intros H. open_routine; cbn; try done.
  split; [|split; [|done]]; apply list_eq; intros i;
    rewrite !list_lookup_fmap, list_lookup_alter; (case_decide; [subst i|done]);
    by destruct (Players (gs g) !! _).
Qed.

(** After the settlement the pot layers hold, once more, the chips of the
    pot fields of the players. *)
Lemma Settle_layers (B : list Z) (g : game) (o : outcome) :
  Settle g = Some o → chips_inv B g →
  layers_total (state_of o) = sumZ (Pot <$> Players (gs (state_of o)))
  ∧ Forall (λ w, w = 0) (Wager <$> Players (gs (state_of o))).
Proof.
  unfold Settle. intros H (_ & Hok & _).
  destruct (SetCurrentPlayer None _) as [g3|] eqn:Hset; [|done].
  injection H as <-. cbn [state_of].
  apply SetCurrentPlayer_None_pots in Hset as (Hp & Hw & Hl).
  unfold layers_total. rewrite Hl, Hp, Hw. cbn.
  split.
  - apply pot_layers_total. apply Forall_fmap.
    eapply Forall_impl; [exact Hok|]. intros p (H1 & H2 & H3 & _). cbn. lia.
  - rewrite <- list_fmap_compose. apply Forall_fmap, Forall_true. done.
Qed.

(** ** Dealing *)

Lemma set_position_same (g : game) :
  set_status (with_CurrentDeckPosition (CurrentDeckPosition (status (gs g)))) g = g.
Proof. by destruct g as [[m [] P] r d sb bb]. Qed.

Lemma deal_loop_exact (k : nat) (g : game) (cards : list string) :
  let pos := CurrentDeckPosition (status (gs g)) in
  0 <= pos →
  pos + Z.of_nat k <= Z.of_nat (length (Deck (meta (gs g)))) →
  in_int64 (Z.of_nat (length (Deck (meta (gs g))))) →
  deal_loop k pos cards g
  = Some (cards ++ take k (drop (Z.to_nat pos) (Deck (meta (gs g)))),
          set_status (with_CurrentDeckPosition (pos + Z.of_nat k)) g).
Proof.
  cbn zeta. revert g cards. induction k as [|k IH]; intros g cards Hpos Hlen Hint.
  - cbn. by rewrite app_nil_r, Z.add_0_r, set_position_same.
  - cbn [deal_loop]. rewrite decide_False by lia.
    set (pos := CurrentDeckPosition (status (gs g))) in *.
    destruct (lookup_lt_is_Some_2 (Deck (meta (gs g))) (Z.to_nat pos)) as [c Hc]; [lia|].
    rewrite Hc. cbn [mbind option_bind].
    unfold in_int64 in Hint.
    rewrite wrap64_small by (unfold in_int64; lia).
    set (g1 := set_status _ g).
    assert (Hg1 : CurrentDeckPosition (status (gs g1)) = pos + 1).
    { unfold g1. cbn. apply wrap64_small. unfold in_int64. lia. }
    specialize (IH g1 (cards ++ [c])). rewrite Hg1 in IH.
    change (Deck (meta (gs g1))) with (Deck (meta (gs g))) in IH.
    rewrite IH by (done || lia).
    f_equal. apply pair_equal_spec. split.
    + rewrite <- app_assoc. f_equal.
      rewrite (drop_S _ c (Z.to_nat pos)) by done. cbn.
      by replace (Z.to_nat (pos + 1)) with (S (Z.to_nat pos)) by lia.
    + unfold g1, set_status. cbn.
      by replace (pos + 1 + Z.of_nat k) with (pos + Z.of_nat (S k)) by lia.
Qed.

Lemma deal_loop_short (k : nat) (g : game) (cards : list string) :
  let pos := CurrentDeckPosition (status (gs g)) in
  0 <= pos →
  Z.of_nat (length (Deck (meta (gs g)))) < pos + Z.of_nat (S k) →
  in_int64 (Z.of_nat (length (Deck (meta (gs g))))) →
  deal_loop (S k) pos cards g = None.
Proof.
  cbn zeta. revert g cards. induction k as [|k IH]; intros g cards Hpos Hlen Hint.
  - cbn [deal_loop]. rewrite decide_False by lia.
    rewrite lookup_ge_None_2 by lia. done.
  - cbn [deal_loop]. rewrite decide_False by lia.
    set (pos := CurrentDeckPosition (status (gs g))) in *.
    destruct (Deck (meta (gs g)) !! Z.to_nat pos) as [c|] eqn:Hc; [|done].
    cbn [mbind option_bind]. apply lookup_lt_Some in Hc.
    unfold in_int64 in Hint.
    rewrite wrap64_small by (unfold in_int64; lia).
    set (g1 := set_status _ g).
    assert (Hg1 : CurrentDeckPosition (status (gs g1)) = pos + 1).
    { unfold g1. cbn. apply wrap64_small. unfold in_int64. lia. }
    rewrite <- Hg1. apply IH; rewrite ?Hg1;
      change (Deck (meta (gs g1))) with (Deck (meta (gs g))); (done || lia).
Qed.

Lemma Deal_exact (count : Z) (g : game) :
  let pos := CurrentDeckPosition (status (gs g)) in
  0 <= count → 0 <= pos →
  pos + count <= Z.of_nat (length (Deck (meta (gs g)))) →
  in_int64 (Z.of_nat (length (Deck (meta (gs g))))) →
  Deal count g
  = Some (deck_slice g pos count,
          set_status (with_CurrentDeckPosition (pos + count)) g).
Proof.
  cbn zeta. intros Hc Hpos Hlen Hint. unfold Deal, deck_slice.
  rewrite decide_False by lia. cbn zeta.
  rewrite wrap64_small by (unfold in_int64 in *; lia).
  replace (CurrentDeckPosition (status (gs g)) + count - CurrentDeckPosition (status (gs g)))
    with count by lia.
  rewrite deal_loop_exact by (done || lia).
  by rewrite Z2Nat.id by lia.
Qed.

Lemma deck_slice_length (g : game) (pos count : Z) :
  0 <= count → 0 <= pos →
  pos + count <= Z.of_nat (length (Deck (meta (gs g)))) →
  Z.of_nat (length (deck_slice g pos count)) = count.
Proof.
  intros. unfold deck_slice. rewrite length_take, length_drop. lia.
Qed.

Lemma deck_slice_lookup (g : game) (pos count : Z) (j : nat) :
  0 <= pos → (Z.of_nat j < count) →
  deck_slice g pos count !! j = Deck (meta (gs g)) !! (Z.to_nat pos + j)%nat.
Proof.
  intros. unfold deck_slice. rewrite lookup_take_lt by lia. by rewrite lookup_drop.
Qed.

Lemma deck_slice_app (g : game) (pos a b : Z) :
  0 <= pos → 0 <= a → 0 <= b →
  deck_slice g pos (a + b) = deck_slice g pos a ++ deck_slice g (pos + a) b.
Proof.
  intros. unfold deck_slice.
  rewrite Z2Nat.inj_add by lia. rewrite <- take_take_drop. f_equal.
  rewrite drop_drop. by rewrite Z2Nat.inj_add by lia.
Qed.

Lemma deal_board_exact (count : Z) (g : game) :
  let pos := CurrentDeckPosition (status (gs g)) in
  0 <= count → 0 <= pos →
  pos + 1 + count <= Z.of_nat (length (Deck (meta (gs g)))) →
  in_int64 (Z.of_nat (length (Deck (meta (gs g))))) →
  deal_board count g
  = (r ← StartAtDealer
           (set_status (λ s, with_Board (Board s ++ deck_slice g (pos + 1) count)
                               (with_Burned (Burned s ++ deck_slice g pos 1)
                                  (with_CurrentDeckPosition (pos + 1 + count) s))) g);
     Some r.1).
Proof.
  cbn zeta. intros Hc Hpos Hlen Hint. unfold deal_board, Burn.
  rewrite Deal_exact by (done || lia). cbn [mbind option_bind].
  rewrite Deal_exact by (cbn; (done || lia)). cbn [mbind option_bind].
  done.
Qed.

Lemma InitializeRound_postflop (g : game) :
  Round (status (gs g)) ∈ ["flop"; "turn"; "river"] →
  InitializeRound g
  = (o ← deal_board (if decide (Round (status (gs g)) = "flop") then 3 else 1) g;
     match o with
     | Done g1 => g2 ← UpdateCombinationOfAllPlayers g1;
                  Some (Emit GameEvent_RoundInitialized g2)
     | _ => Some o
     end).
Proof.
  intros HR. unfold InitializeRound.
  rewrite !elem_of_cons, elem_of_nil in HR.
  destruct HR as [E|[E|[E|[]]]]; rewrite !E;
    repeat case_decide; (done || (exfalso; naive_solver)).
Qed.



(** ** Games built from options *)

Lemma wf_NewGame_default (opts : GameOptions) :
  wf_game (default emptyGame (NewGame opts)).
Proof.
  destruct (NewGame_wf opts) as (g & -> & Hwf & _). exact Hwf.
Qed.

Lemma AddPlayer_exact (idx : Z) (s : PlayerSetting) (g : game) :
  let ps := seat_state idx s in
  let h := length (Players (gs g)) in
  AddPlayer idx s g
  = Some (mkGame (mkGameState (meta (gs g)) (status (gs g)) (Players (gs g) ++ [ps]))
            (<[idx := h]> (players g))
            (if CheckPosition ps "dealer" then Some h else dealer g)
            (if CheckPosition ps "sb" then Some h else smallBlind g)
            (if CheckPosition ps "sb" then bigBlind g
             else if CheckPosition ps "bb" then Some h else bigBlind g)).
Proof.
  cbn zeta. unfold AddPlayer, addPlayer. cbn.
  rewrite lookup_app_r, Nat.sub_diag by done. done.
Qed.

Lemma seat_states_length (k0 : nat) (l : list PlayerSetting) :
  length (seat_states k0 l) = length l.
Proof. revert k0. induction l as [|s l IH]; intros k0; cbn; [done|]. by rewrite IH. Qed.

Lemma seat_states_lookup (k0 : nat) (l : list PlayerSetting) (i : nat) :
  seat_states k0 l !! i = seat_state (Z.of_nat (k0 + i)) <$> l !! i.
Proof.
  revert k0 i. induction l as [|s l IH]; intros k0 i; [done|].
  destruct i as [|i]; cbn.
  - by rewrite Nat.add_0_r.
  - rewrite IH. by replace (S k0 + i)%nat with (k0 + S i)%nat by lia.
Qed.

Lemma addPlayers_shape (l : list PlayerSetting) (g : game) :
  let k0 := length (Players (gs g)) in
  ∃ g', addPlayers (Z.of_nat k0) l g = Some g'
    ∧ Players (gs g') = Players (gs g) ++ seat_states k0 l
    ∧ meta (gs g') = meta (gs g) ∧ status (gs g') = status (gs g)
    ∧ dealer g' = last_index (holds "dealer") k0 l (dealer g)
    ∧ smallBlind g' = last_index (holds "sb") k0 l (smallBlind g)
    ∧ bigBlind g' = last_index (λ s, negb (holds "sb" s) && holds "bb" s) k0 l (bigBlind g)
    ∧ ∀ z, players g' !! z
           = if decide (Z.of_nat k0 <= z < Z.of_nat (k0 + length l))
             then Some (Z.to_nat z) else players g !! z.
Proof.
  cbn zeta. revert g. induction l as [|s l IH]; intros g.
  - exists g. cbn. rewrite app_nil_r. do 7 (split; [done|]).
    intros z. by rewrite decide_False by lia.
  - cbn [addPlayers]. rewrite AddPlayer_exact. cbn [mbind option_bind].
    set (g1 := mkGame _ _ _ _ _).
    assert (Hlen : length (Players (gs g1)) = S (length (Players (gs g)))).
    { unfold g1. cbn. rewrite length_app. cbn. lia. }
    destruct (IH g1) as (g' & HA & HP & Hm & Hst & Hd & Hsb & Hbb & Hreg).
    rewrite Hlen in HA, HP, Hd, Hsb, Hbb, Hreg.
    exists g'. split.
    { rewrite <- HA. f_equal. lia. }
    split. { rewrite HP. unfold g1. cbn. by rewrite <- app_assoc. }
    split; [done|]. split; [done|].
    split. { rewrite Hd. cbn. unfold CheckPosition, holds. cbn. done. }
    split. { rewrite Hsb. cbn. unfold CheckPosition, holds. cbn. done. }
    split.
    { rewrite Hbb. cbn. unfold CheckPosition, holds. cbn.
      by destruct (bool_decide ("sb" ∈ SPositions s)), (bool_decide ("bb" ∈ SPositions s)). }
    intros z. rewrite Hreg. cbn [length].
    destruct (decide (z = Z.of_nat (length (Players (gs g))))) as [->|Hne].
    + rewrite decide_False by lia. rewrite decide_True by lia.
      unfold g1. cbn. rewrite lookup_insert_eq. f_equal. lia.
    + unfold g1. cbn. rewrite lookup_insert_ne by done.
      repeat case_decide; (done || lia).
Qed.

Lemma addPlayers_appends (l : list PlayerSetting) (idx : Z) (g g' : game) :
  addPlayers idx l g = Some g' →
  ∃ rest, Players (gs g') = Players (gs g) ++ rest.
Proof.
  revert idx g. induction l as [|s l IH]; intros idx g; cbn [addPlayers].
  - intros [= <-]. exists []. by rewrite app_nil_r.
  - rewrite AddPlayer_exact. cbn [mbind option_bind]. intros H.
    destruct (IH _ _ H) as [rest Hrest]. cbn in Hrest.
    eexists. rewrite Hrest, <- app_assoc. done.
Qed.

Lemma addPlayers_load (l : list PlayerSetting) (idx : Z) (g g' : game) :
  addPlayers idx l g = Some g' →
  loadPlayers (length l) (length (Players (gs g)))
    (mkGame (gs g') (players g) (dealer g) (smallBlind g) (bigBlind g)) = Some g'.
Proof.
  revert idx g. induction l as [|s l IH]; intros idx g; cbn [addPlayers].
  - intros [= <-]. cbn. by destruct g.
  - rewrite AddPlayer_exact. cbn [mbind option_bind].
    set (g1 := mkGame _ _ _ _ _). intros H.
    pose proof (IH _ _ H) as HL.
    destruct (addPlayers_appends _ _ _ _ H) as [rest Hrest].
    cbn [length loadPlayers]. unfold addPlayer at 1. cbn [gs players dealer smallBlind bigBlind].
    rewrite Hrest. unfold g1 at 1. cbn [gs Players].
    rewrite <- app_assoc, lookup_app_r, Nat.sub_diag by done.
    cbn [app lookup list_lookup mbind option_bind].
    assert (Hlen : length (Players (gs g1)) = S (length (Players (gs g)))).
    { unfold g1. cbn. rewrite length_app. cbn. lia. }
    rewrite Hlen in HL. exact HL.
Qed.

(** ** The shuffle as the game uses it *)

Lemma shuffle_deck_perm (ent : Entropy) (deck : list string) :
  shuffle_deck ent deck ≡ₚ deck ∧ length (shuffle_deck ent deck) = length deck.
Proof.
  unfold shuffle_deck.
  destruct (ShuffleCards_single ent 0%nat deck {[ 0%nat := deck ]})
    as (r & σ' & l' & -> & Hr & Hp & Hl & _); [apply lookup_singleton_eq|].
  rewrite Hr. done.
Qed.

(** ** The walk to the big blind *)

Lemma same_but_actions_proj {A} (f : PlayerState → A) (l l' : list PlayerState) :
  (∀ p a, f (with_AllowedActions a p) = f p) →
  same_but_actions l l' → (f <$> l') = (f <$> l).
Proof.
  intros Hf H. unfold same_but_actions in H.
  assert (E : ∀ k : list PlayerState, (f <$> k) = (f <$> (with_AllowedActions [] <$> k))).
  { intros k. rewrite <- list_fmap_compose. apply list_fmap_ext. intros ? p _. cbn.
    by rewrite Hf. }
  by rewrite (E l'), (E l), H.
Qed.

Lemma same_but_actions_refl (l : list PlayerState) : same_but_actions l l.
Proof. done. Qed.

Lemma foldl_movable_proj (l l' : list PlayerState) (c : Z) :
  (Fold <$> l') = (Fold <$> l) →
  (StackSize <$> l') = (StackSize <$> l) →
  foldl (λ mCount p, if Fold p || bool_decide (StackSize p = 0) then mCount - 1 else mCount)
    c l'
  = foldl (λ mCount p, if Fold p || bool_decide (StackSize p = 0) then mCount - 1 else mCount)
      c l.
Proof.
  revert l c. induction l' as [|p' l' IH]; intros [|p l] c HF HS;
    cbn in *; try discriminate; [done|].
  injection HF as HF1 HF. injection HS as HS1 HS.
  rewrite HF1, HS1. by apply IH.
Qed.

Lemma movable_count_proj (g g' : game) :
  (Fold <$> Players (gs g')) = (Fold <$> Players (gs g)) →
  (StackSize <$> Players (gs g')) = (StackSize <$> Players (gs g)) →
  GetMovablePlayerCount g' = GetMovablePlayerCount g.
Proof.
  unfold GetMovablePlayerCount, GetPlayerCount. intros HF HS.
  assert (Hlen : length (Players (gs g')) = length (Players (gs g))).
  { apply (f_equal length) in HF. by rewrite !length_fmap in HF. }
  rewrite Hlen. by apply foldl_movable_proj.
Qed.

Lemma seek_bb_spec (g0 : game) (k : nat) (g : game) :
  let n := GetPlayerCount g in
  let c := CurrentPlayer (status (gs g)) in
  wf_game g → in_int64 n → 2 <= n → 0 <= c < n →
  same_but_actions (Players (gs g0)) (Players (gs g)) →
  ∃ g', seek_bb k g = Some g'
    ∧ CurrentPlayer (status (gs g'))
      = match first_bb_after k c g0 with
        | Some s => s
        | None => (c + Z.of_nat k) `mod` n
        end
    ∧ same_but_current (status (gs g)) (status (gs g'))
    ∧ same_but_actions (Players (gs g)) (Players (gs g'))
    ∧ meta (gs g') = meta (gs g) ∧ players g' = players g.
Proof.
  cbn zeta. revert g. induction k as [|k IH]; intros g Hwf Hint Hn Hc Hsa.
  - exists g. cbn. rewrite Z.add_0_r, Z.mod_small by done. done.
  - destruct (NextPlayer_seat g Hwf Hint Hn) as (ps & HN & Hps & Hidx); [lia|].
    set (s := (CurrentPlayer (status (gs g)) + 1) `mod` GetPlayerCount g) in *.
    assert (Hs : 0 <= s < GetPlayerCount g) by (apply Z.mod_pos_bound; lia).
    destruct (SetCurrentPlayer_Some g (Z.to_nat s) ps Hwf) as
      (g2 & Hg2 & Hc2 & Hsc2 & Hsa2 & Hm2 & Hr2 & _); [lia|done|].
    assert (Hn0 : GetPlayerCount g0 = GetPlayerCount g).
    { unfold GetPlayerCount. by rewrite (same_but_actions_length _ _ Hsa). }
    assert (Hbb : ∃ ps0, Players (gs g0) !! Z.to_nat s = Some ps0
                         ∧ CheckPosition ps0 "bb" = CheckPosition ps "bb").
    { pose proof (same_but_actions_proj Positions _ _ (λ _ _, eq_refl) Hsa) as HP.
      apply (f_equal (λ x, x !! Z.to_nat s)) in HP.
      rewrite !list_lookup_fmap, Hps in HP.
      destruct (Players (gs g0) !! Z.to_nat s) as [ps0|]; [|done].
      exists ps0. split; [done|]. unfold CheckPosition. cbn in HP.
      injection HP as HP. by rewrite HP. }
    destruct Hbb as (ps0 & Hps0 & Hbb).
    cbn [seek_bb first_bb_after]. rewrite HN. cbn [mbind option_bind].
    rewrite Hps. cbn [mbind option_bind]. rewrite Hn0. fold s. rewrite Hps0, Hbb.
    destruct (CheckPosition ps "bb").
    + cbn [mbind option_bind]. rewrite Hg2.
      exists g2. split; [done|]. split; [lia|]. done.
    + rewrite Hg2.
      assert (Hlen2 : GetPlayerCount g2 = GetPlayerCount g).
      { unfold GetPlayerCount. by rewrite (same_but_actions_length _ _ Hsa2). }
      destruct (IH g2) as (g' & HS & HC & Hsc & Hsa' & Hm' & Hr').
      { apply (wf_game_ext g); [done | by apply same_but_actions_Idx | done]. }
      { by rewrite Hlen2. }
      { by rewrite Hlen2. }
      { rewrite Hlen2, Hc2. lia. }
      { by eapply same_but_actions_trans. }
      exists g'. split; [done|]. split.
      { rewrite HC, Hc2, Hidx, Hlen2.
        destruct (first_bb_after k s g0); [done|].
        unfold s. rewrite Zplus_mod_idemp_l. f_equal. lia. }
      split.
      { unfold same_but_current in *. by rewrite Hsc. }
      split; [by eapply same_but_actions_trans|].
      split; congruence.
Qed.

Lemma first_bb_after_ext (k : nat) (c : Z) (g g' : game) :
  (Positions <$> Players (gs g')) = (Positions <$> Players (gs g)) →
  first_bb_after k c g' = first_bb_after k c g.
Proof.
  intros HP.
  assert (Hn : GetPlayerCount g' = GetPlayerCount g).
  { unfold GetPlayerCount. apply (f_equal length) in HP.
    rewrite !length_fmap in HP. by rewrite HP. }
  revert c. induction k as [|k IH]; intros c; [done|].
  cbn [first_bb_after]. rewrite Hn.
  set (s := (c + 1) `mod` GetPlayerCount g).
  pose proof (f_equal (λ x, x !! Z.to_nat s) HP) as Hs. cbn in Hs.
  rewrite !list_lookup_fmap in Hs.
  destruct (Players (gs g') !! Z.to_nat s) as [p'|], (Players (gs g) !! Z.to_nat s) as [p|];
    try done.
  cbn in Hs. injection Hs as Hs. unfold CheckPosition. rewrite Hs.
  case_bool_decide; [done|]. apply IH.
Qed.

Lemma loadPlayers_spec (k h : nat) (g : game) :
  (h + k)%nat = length (Players (gs g)) →
  (∀ i ps, Players (gs g) !! i = Some ps → Idx ps = Z.of_nat i) →
  ∃ g', loadPlayers k h g = Some g'
    ∧ gs g' = gs g
    ∧ (∀ z, players g' !! z
            = if decide (Z.of_nat h <= z < Z.of_nat (h + k))
              then Some (Z.to_nat z) else players g !! z)
    ∧ dealer g'
      = last_seat (λ p, CheckPosition p "dealer") h (drop h (Players (gs g))) (dealer g)
    ∧ smallBlind g'
      = last_seat (λ p, CheckPosition p "sb") h (drop h (Players (gs g))) (smallBlind g)
    ∧ bigBlind g'
      = last_seat (λ p, negb (CheckPosition p "sb") && CheckPosition p "bb") h
          (drop h (Players (gs g))) (bigBlind g).
Proof.
  revert h g. induction k as [|k IH]; intros h g Hlen Hidx.
  - exists g. cbn [loadPlayers]. rewrite drop_ge by lia. cbn.
    do 2 (split; [done|]). split; [|done].
    intros z. by rewrite decide_False by lia.
  - destruct (lookup_lt_is_Some_2 (Players (gs g)) h) as [ps Hps]; [lia|].
    cbn [loadPlayers]. unfold addPlayer at 1. rewrite Hps. cbn [mbind option_bind].
    set (g1 := mkGame _ _ _ _ _).
    destruct (IH (S h) g1) as (g' & HL & Hgs & Hreg & Hd & Hsb & Hbb);
      [cbn; lia | done |].
    exists g'. split; [done|]. split; [done|].
    rewrite (drop_S _ ps h) by done. cbn [last_seat].
    split.
    { intros z. rewrite Hreg. unfold g1. cbn [players].
      rewrite (Hidx h ps Hps).
      destruct (decide (z = Z.of_nat h)) as [->|Hne].
      - rewrite decide_False by lia. rewrite decide_True by lia.
        rewrite lookup_insert_eq. f_equal. lia.
      - rewrite lookup_insert_ne by done. repeat case_decide; (done || lia). }
    split; [exact Hd|]. split; [exact Hsb|].
    rewrite Hbb. unfold g1. cbn [bigBlind gs].
    by destruct (CheckPosition ps "sb"), (CheckPosition ps "bb").
Qed.

(** ** The offset pass of the four-pass shuffle *)

Lemma offsets_pass_rotation (n r : nat) (offs : list nat) (σ : store) (R : list string) :
  σ !! r = Some R → length R = n →
  ∃ σ' R', offsets_pass offs n r σ = Some σ'
    ∧ σ' !! r = Some R' ∧ length R' = n
    ∧ ∀ p, (p < n)%nat →
        R' !! p
        = R !! Z.to_nat ((Z.of_nat p
                          - Z.of_nat (sum_list (filter (λ o, (o < n)%nat) offs)))
                         `mod` Z.of_nat n).
Proof.
  revert σ R. induction offs as [|offset offs IH]; intros σ R Hr HR.
  - exists σ, R. do 3 (split; [done|]). intros p Hp. cbn.
    rewrite Z.sub_0_r, Z.mod_small by lia. by rewrite Nat2Z.id.
  - cbn [offsets_pass]. case_decide as Hoff.
    { rewrite filter_cons_False by lia. by apply IH. }
    rewrite filter_cons_True by lia. cbn [sum_list sum_list_with].
    destruct (make_fresh n σ) as [Hfresh Hmk].
    destruct (make n σ) as [t σ1] eqn:Hmake. cbn in Hfresh, Hmk. subst σ1.
    assert (Htr : t ≠ r) by (eapply fresh_ne; eauto).
    rewrite lookup_insert_ne by done. rewrite Hr. cbn [mbind option_bind].
    rewrite (scopy_full t R (replicate n ""));
      [|by rewrite lookup_insert_eq|by rewrite length_replicate].
    cbn [mbind option_bind]. rewrite insert_insert_eq.
    destruct (offset_mix_spec offset n r t R) with (k := n) (i := 0%nat)
      (σ := <[t := R]> σ) (R := R) as (R1 & HM & HL1 & HP1);
      [done|lia|done|by rewrite lookup_insert_eq|by rewrite lookup_insert_ne|done|lia|].
    rewrite HM. cbn [mbind option_bind].
    destruct (IH (<[r := R1]> (<[t := R]> σ)) R1) as (σ' & R' & HO & Hr' & HL' & HP');
      [by rewrite lookup_insert_eq | done |].
    exists σ', R'. do 3 (split; [done|]). intros p Hp.
    rewrite (HP' p Hp).
    set (S' := Z.of_nat (sum_list (filter (λ o, (o < n)%nat) offs))).
    set (q := Z.to_nat ((Z.of_nat p - S') `mod` Z.of_nat n)).
    assert (Hq : (q < n)%nat).
    { unfold q. pose proof (Z.mod_pos_bound (Z.of_nat p - S') (Z.of_nat n)). lia. }
    rewrite (HP1 q Hq). rewrite decide_True by lia. f_equal.
    apply Nat2Z.inj. rewrite Nat2Z.inj_mod, Z2Nat.id
      by (apply Z.mod_pos_bound; lia).
    rewrite Nat2Z.inj_sub, Nat2Z.inj_add by lia.
    unfold q. rewrite Z2Nat.id by (apply Z.mod_pos_bound; lia).
    rewrite Nat2Z.inj_add. fold S'.
    replace ((Z.of_nat p - S') `mod` Z.of_nat n + Z.of_nat n - Z.of_nat offset)
      with ((Z.of_nat p - S') `mod` Z.of_nat n - Z.of_nat offset + 1 * Z.of_nat n) by lia.
    rewrite Z_mod_plus_full, Zminus_mod_idemp_l. f_equal. unfold id. lia.
Qed.

(** * Theorems *)

(** ** Seat lookup *)

(** C10. [Player(idx)] never fails: outside of [0, player count) it returns
    nil, and inside it returns the player the registry holds for seat [idx];
    in a game whose seats are registered under their own index (every game
    built by [NewGame]), that is the player whose state sits at position
    [idx] and carries seat index [idx]. *)
Theorem Player_lookup_total (g : game) (idx : Z) :
  (idx < 0 ∨ idx >= GetPlayerCount g → Player g idx = None)
  ∧ (0 <= idx < GetPlayerCount g → Player g idx = players g !! idx)
  ∧ (wf_game g → 0 <= idx < GetPlayerCount g →
     ∃ ps, Player g idx = Some (Z.to_nat idx)
           ∧ Players (gs g) !! Z.to_nat idx = Some ps ∧ Idx ps = idx).
Proof.
  unfold Player. split; [|split].
  - intros H. rewrite decide_True by done. done.
  - intros H. rewrite decide_False by lia. done.
  - intros Hwf H. rewrite decide_False by lia.
    unfold GetPlayerCount in H.
    destruct (lookup_lt_is_Some_2 (Players (gs g)) (Z.to_nat idx) ltac:(lia)) as [ps Hps].
    exists ps. destruct (Hwf _ _ Hps) as [Hidx Hreg].
    rewrite Z2Nat.id in Hidx, Hreg by lia. done.
Qed.

(** ** Allowed actions *)

(** C3. For a player [p] of the game, in a state whose previous raise size is
    not negative and whose raise threshold [currentWager + previousRaiseSize]
    fits the machine integers, [GetAllowedActions(p)] is the list the
    specification describes: empty when [p] is not the current player;
    [pass] alone for a folded player and for a player without chips;
    otherwise [allin], then [fold], [call] iff [initialStackSize >
    currentWager] and [raise] iff [initialStackSize > currentWager +
    previousRaiseSize] when the wager is below the current wager, and
    [check] with [bet] (current wager 0) or [raise] iff [initialStackSize >=
    miniBet] when it is not. *)
Theorem GetAllowedActions_per_spec (g : game) (h : nat) (ps : PlayerState) :
  Players (gs g) !! h = Some ps →
  0 <= PreviousRaiseSize (status (gs g)) →
  in_int64 (CurrentWager (status (gs g)) + PreviousRaiseSize (status (gs g))) →
  GetAllowedActions g (Some h) = Some (allowed_per_spec (status (gs g)) ps).
Proof.
  intros Hps Hprs Hfit.
  unfold GetAllowedActions, GetAvailableActions, SeatIndex, allowed_per_spec.
  cbn. rewrite Hps. cbn. rewrite ?Hps. cbn.
  rewrite (wrap64_small _ Hfit).
  destruct (Fold ps); repeat case_decide; try reflexivity; try lia; try congruence.
Qed.

Lemma GetAllowedActions_per_spec_witness :
  GetAllowedActions game3_raised (Some 0%nat) = Some ["allin"; "fold"; "call"].
Proof.
  refine (eq_trans
            (GetAllowedActions_per_spec game3_raised 0
               (mkPlayerState 0 ["dealer"] 15 15 15 0 0 false false false "" [] [])
               _ _ _) _).
  - by vm_compute.
  - by vm_compute.
  - by vm_compute.
  - by vm_compute.
Defined.

(** ** Turn order *)

(** C2 (as amended). With at least two players and a current-player index in
    [-1, player count), [NextPlayer] returns the player at the seat that
    follows the current one cyclically, whatever its fold flag and its
    stack: no seat is skipped. *)
Theorem NextPlayer_next_seat (g : game) :
  wf_game g →
  in_int64 (GetPlayerCount g) →
  2 <= GetPlayerCount g →
  -1 <= CurrentPlayer (status (gs g)) < GetPlayerCount g →
  ∃ ps, NextPlayer g
        = Some (Some (Z.to_nat ((CurrentPlayer (status (gs g)) + 1) `mod` GetPlayerCount g)))
        ∧ Players (gs g) !! Z.to_nat ((CurrentPlayer (status (gs g)) + 1) `mod` GetPlayerCount g)
          = Some ps
        ∧ Idx ps = (CurrentPlayer (status (gs g)) + 1) `mod` GetPlayerCount g.
Proof.
  intros Hwf Hint Hn Hcur.
  destruct (NextPlayer_seat g Hwf Hint Hn Hcur) as (ps & H1 & H2 & H3).
  exists ps. done.
Qed.

Lemma NextPlayer_next_seat_witness :
  ∃ ps, NextPlayer game3_seat1_folded = Some (Some 1%nat)
        ∧ Players (gs game3_seat1_folded) !! 1%nat = Some ps ∧ Idx ps = 1.
Proof.
  refine (NextPlayer_next_seat game3_seat1_folded _ _ _ _).
  - apply (wf_game_ext game3); [reflexivity|reflexivity|apply wf_game3].
  - by vm_compute.
  - by vm_compute.
  - by vm_compute.
Defined.

(** C2 (as stated) fails: three players, seat 0 current, seat 1 folded,
    seat 2 movable.  The first movable seat clockwise from the current
    player is seat 2, and [NextPlayer] returns the folded seat 1. *)
Lemma NextPlayer_returns_folded_seat :
  NextPlayer game3_seat1_folded = Some (Some 1%nat)
  ∧ (Fold <$> Players (gs game3_seat1_folded) !! 1%nat) = Some true
  ∧ first_movable_after game3_seat1_folded
      (CurrentPlayer (status (gs game3_seat1_folded))) = Some 2.
Proof. vm_compute. done. Qed.

(** ** Round closure *)

(** C5. After an action, in a game whose seats are registered under their
    own index, whose current player is a seat or -1 and whose stacks are not
    negative, [RequestPlayerAction] emits [RoundClosed] when the count of
    non-folded players is 1 or the count of movable players is 0; otherwise
    it computes the next player, emits [RoundClosed] when that player has
    the acted flag, and if not it emits nothing and makes that player the
    current player. *)
Theorem RequestPlayerAction_closure (g : game) :
  wf_game g →
  in_int64 (GetPlayerCount g) →
  -1 <= CurrentPlayer (status (gs g)) < GetPlayerCount g →
  Forall (λ ps, 0 <= StackSize ps) (Players (gs g)) →
  if decide (alive_count g = 1 ∨ movable_count g = 0) then
    RequestPlayerAction g = Some (Emit GameEvent_RoundClosed g)
  else
    ∃ h ps, NextPlayer g = Some (Some h) ∧ Players (gs g) !! h = Some ps
      ∧ if Acted ps then RequestPlayerAction g = Some (Emit GameEvent_RoundClosed g)
        else ∃ g', RequestPlayerAction g = Some (Done g')
                   ∧ SetCurrentPlayer (Some h) g = Some g'
                   ∧ CurrentPlayer (status (gs g')) = Idx ps.
Proof.
  intros Hwf Hint Hcur Hst.
  destruct (RequestPlayerAction_cases g Hwf Hint Hcur) as [Hclose Hnext].
  rewrite <- GetAlivePlayerCount_count, <- GetMovablePlayerCount_count by done.
  case_decide as Hc.
  - by apply Hclose.
  - destruct (Hnext Hc) as (h & ps & HN & Hps & _ & Hact).
    exists h, ps. done.
Qed.

Lemma RequestPlayerAction_closure_witness :
  ∃ h ps, NextPlayer game3_seat1_folded = Some (Some h)
    ∧ Players (gs game3_seat1_folded) !! h = Some ps
    ∧ if Acted ps
      then RequestPlayerAction game3_seat1_folded
           = Some (Emit GameEvent_RoundClosed game3_seat1_folded)
      else ∃ g', RequestPlayerAction game3_seat1_folded = Some (Done g')
                 ∧ SetCurrentPlayer (Some h) game3_seat1_folded = Some g'
                 ∧ CurrentPlayer (status (gs g')) = Idx ps.
Proof.
  refine (RequestPlayerAction_closure game3_seat1_folded _ _ _ _).
  - apply (wf_game_ext game3); [reflexivity|reflexivity|apply wf_game3].
  - by vm_compute.
  - by vm_compute.
  - repeat constructor; by vm_compute.
Defined.

(** ** Start *)

(** C7. [Start] checks the configuration in order and returns the first
    failure it finds, with the game untouched and nothing emitted: fewer than
    two players, no dealer, a player whose bankroll is not positive, an empty
    deck.  It returns an error of its own exactly when one of the four
    conditions fails; when all hold it empties pots, board and burned cards
    (and the current event) and emits [Started]. *)
Theorem Start_configuration (g : game) :
  let failing :=
    GetPlayerCount g < 2 ∨ dealer g = None
    ∨ Exists (λ p, Bankroll p <= 0) (Players (gs g))
    ∨ Deck (meta (gs g)) = [] in
  ((∃ e g', Start g = Fail e g') ↔ failing)
  ∧ (∀ e g', Start g = Fail e g' →
       g' = g
       ∧ e = (if decide (GetPlayerCount g < 2) then ErrInsufficientNumberOfPlayers
              else if decide (dealer g = None) then ErrNoDealer
              else if decide (Exists (λ p, Bankroll p <= 0) (Players (gs g)))
                   then ErrNotEnoughBackroll
              else ErrNoDeck))
  ∧ (¬ failing →
     ∃ g', Start g = Emit GameEvent_Started g'
           ∧ Pots (status (gs g')) = [] ∧ Board (status (gs g')) = []
           ∧ Burned (status (gs g')) = [] ∧ CurrentEvent (status (gs g')) = ""
           ∧ Players (gs g') = Players (gs g) ∧ meta (gs g') = meta (gs g)
           ∧ with_CurrentEvent "" (with_Burned [] (with_Board [] (with_Pots [] (status (gs g)))))
             = status (gs g'))
  ∧ (∀ g', Start g ≠ Done g').
Proof.
  cbn zeta. unfold Start.
  assert (Hex : existsb (λ p, bool_decide (Bankroll p <= 0)) (Players (gs g)) = true
                ↔ Exists (λ p, Bankroll p <= 0) (Players (gs g))).
  { rewrite existsb_exists, Exists_exists. split.
    - intros (p & Hin & Hp). exists p. apply list_elem_of_In in Hin.
      apply bool_decide_eq_true in Hp. done.
    - intros (p & Hin & Hp). exists p. apply list_elem_of_In in Hin.
      split; [done|]. by apply bool_decide_eq_true. }
  assert (Hdeck : length (Deck (meta (gs g))) = 0%nat ↔ Deck (meta (gs g)) = []).
  { destruct (Deck (meta (gs g))); cbn; split; (done || lia). }
  destruct (decide (GetPlayerCount g < 2)) as [H1|H1].
  { repeat split; try (intros; congruence); try by (intros; exfalso; tauto).
    - eauto.
    - intros; eauto. }
  destruct (decide (dealer g = None)) as [H2|H2].
  { repeat split; try (intros; congruence); try by (intros; exfalso; tauto).
    - eauto.
    - intros; eauto. }
  destruct (decide (Exists (λ p, Bankroll p <= 0) (Players (gs g)))) as [H3|H3].
  { rewrite (proj2 Hex H3).
    repeat split; try (intros; congruence); try by (intros; exfalso; tauto).
    - eauto.
    - intros; eauto. }
  assert (H3' : existsb (λ p, bool_decide (Bankroll p <= 0)) (Players (gs g)) = false).
  { destruct (existsb _ _) eqn:HE; [|done]. exfalso. apply H3, Hex. done. }
  rewrite H3'.
  destruct (decide (length (Deck (meta (gs g))) = 0%nat)) as [H4|H4].
  { repeat split; try (intros; congruence); try by (intros; exfalso; tauto).
    - intros _. right. right. right. by apply Hdeck.
    - intros; eauto. }
  split; [|split; [|split]].
  - split; [intros (e & g' & ?); done|].
    intros [?|[?|[?|?]]]; try done. exfalso. apply H4. by apply Hdeck.
  - intros e g' ?. done.
  - intros _. eexists. split; [reflexivity|]. done.
  - intros g' ?. done.
Qed.

(** ** Resume *)

(** C8. [Resume] on a state whose current event is the symbol of an event
    emits exactly that event, on the state as loaded; on a state whose current
    event is empty it emits nothing and returns success. *)
Theorem Resume_reemits_last_event (zeroEvent : GameEvent) (g : game) :
  (CurrentEvent (status (gs g)) = "" → Resume zeroEvent g = Done g)
  ∧ (∀ ev, CurrentEvent (status (gs g)) = GameEventSymbol ev →
           Resume zeroEvent g = Emit ev g).
Proof.
  unfold Resume. split.
  - intros ->. done.
  - intros ev ->. destruct ev; vm_compute; reflexivity.
Qed.

(** ** Round advancement *)

(** C6. In a round among preflop, flop, turn and river, with a dealer and
    seats registered under their own index, [Next] resets the previous raise
    size, the current wager, the maximal wager and the round pot to 0 and the
    current raiser to the dealer's seat; every player's wager is added to
    its pot and set to 0 and its initial stack size becomes its stack size.
    Board, burned cards and deck position are as before when [Next] hands its
    event over.  If one player only has not folded the event is
    [GameCompleted], and the round is left as it is; otherwise the round
    moves preflop to flop to turn to river, and from the river the event is
    [GameCompleted]. *)
Theorem Next_round_advancement (g : game) (d : nat) (pd : PlayerState) :
  wf_game g →
  in_int64 (GetPlayerCount g) →
  dealer g = Some d →
  Players (gs g) !! d = Some pd →
  Round (status (gs g)) ∈ ["preflop"; "flop"; "turn"; "river"] →
  ∃ ev g', Next g = Some (Emit ev g')
    ∧ PreviousRaiseSize (status (gs g')) = 0
    ∧ CurrentWager (status (gs g')) = 0
    ∧ MaxWager (status (gs g')) = 0
    ∧ CurrentRoundPot (status (gs g')) = 0
    ∧ CurrentRaiser (status (gs g')) = Idx pd
    ∧ length (Players (gs g')) = length (Players (gs g))
    ∧ (∀ i p, Players (gs g) !! i = Some p →
         ∃ p', Players (gs g') !! i = Some p'
               ∧ Pot p' = wrap64 (Pot p + Wager p)
               ∧ (in_int64 (Pot p + Wager p) → Pot p' = Pot p + Wager p)
               ∧ Wager p' = 0
               ∧ InitialStackSize p' = StackSize p'
               ∧ StackSize p' = StackSize p
               ∧ Fold p' = Fold p)
    ∧ Board (status (gs g')) = Board (status (gs g))
    ∧ Burned (status (gs g')) = Burned (status (gs g))
    ∧ CurrentDeckPosition (status (gs g')) = CurrentDeckPosition (status (gs g))
    ∧ (alive_count g' = 1 →
         ev = GameEvent_GameCompleted
         ∧ Round (status (gs g')) = Round (status (gs g)))
    ∧ (Round (status (gs g)) = "river" → ev = GameEvent_GameCompleted)
    ∧ (alive_count g' ≠ 1 →
         (Round (status (gs g)) = "preflop" →
            ev = GameEvent_FlopRoundEntered ∧ Round (status (gs g')) = "flop")
         ∧ (Round (status (gs g)) = "flop" →
            ev = GameEvent_TurnRoundEntered ∧ Round (status (gs g')) = "turn")
         ∧ (Round (status (gs g)) = "turn" →
            ev = GameEvent_RiverRoundEntered ∧ Round (status (gs g')) = "river")).
Proof.
  intros Hwf Hint Hd Hpd Hround. unfold Next.
  set (g1 := UpdateLastAction (-1) "next" 0 g).
  assert (Hr1 : Round (status (gs g1)) = Round (status (gs g))) by done.
  assert (Hcases : Round (status (gs g)) = "preflop" ∨ Round (status (gs g)) = "flop"
                   ∨ Round (status (gs g)) = "turn" ∨ Round (status (gs g)) = "river").
  { rewrite !elem_of_cons in Hround. rewrite elem_of_nil in Hround. tauto. }
  rewrite Hr1. rewrite decide_True by done.
  unfold nextRound.
  rewrite (ResetRoundStatus_Some g1 d pd) by done.
  cbn [mbind option_bind].
  set (g2 := set_status _ g1).
  destruct (for_all_players resetPlayerStatus g2 d pd)
    as (l & g3 & Hl & Hg3 & Hm3 & Hs3 & Hreg3 & Hd3 & _ & _ & Hp3); try done.
  unfold ResetAllPlayerStatus. rewrite Hl. cbn [mbind option_bind]. rewrite Hg3.
  cbn [mbind option_bind].
  assert (Hplayers : ∀ i p, Players (gs g) !! i = Some p →
     ∃ p', Players (gs g3) !! i = Some p'
           ∧ Pot p' = wrap64 (Pot p + Wager p)
           ∧ (in_int64 (Pot p + Wager p) → Pot p' = Pot p + Wager p)
           ∧ Wager p' = 0
           ∧ InitialStackSize p' = StackSize p'
           ∧ StackSize p' = StackSize p
           ∧ Fold p' = Fold p).
  { intros i p Hi. exists (resetPlayerStatus p).
    rewrite Hp3, list_lookup_fmap.
    change (Players (gs g2)) with (Players (gs g)). rewrite Hi.
    destruct (resetPlayerStatus_fields p) as (HP & HW & HI & HS & HF & _).
    split; [done|]. split; [done|].
    split; [intros Hfit; rewrite HP; by apply wrap64_small|].
    split; [done|]. split; [congruence|]. done. }
  assert (Hlen : length (Players (gs g3)) = length (Players (gs g)))
    by (rewrite Hp3, length_fmap; done).
  assert (Hst3 : status (gs g3) = status (gs g2)) by done.
  assert (Hfields : PreviousRaiseSize (status (gs g2)) = 0
                    ∧ CurrentWager (status (gs g2)) = 0
                    ∧ MaxWager (status (gs g2)) = 0
                    ∧ CurrentRoundPot (status (gs g2)) = 0
                    ∧ CurrentRaiser (status (gs g2)) = Idx pd
                    ∧ Board (status (gs g2)) = Board (status (gs g))
                    ∧ Burned (status (gs g2)) = Burned (status (gs g))
                    ∧ CurrentDeckPosition (status (gs g2))
                      = CurrentDeckPosition (status (gs g))
                    ∧ Round (status (gs g2)) = Round (status (gs g))) by done.
  destruct Hfields as (F1 & F2 & F3 & F4 & F5 & F6 & F7 & F8 & F9).
  destruct (decide (GetAlivePlayerCount g3 = 1)) as [Ha|Ha].
  { exists GameEvent_GameCompleted, g3. rewrite <- GetAlivePlayerCount_count, Hst3.
    split; [reflexivity|]. do 10 (split; [done|]).
    split; [intros _; done|]. split; [intros _; done|].
    intros Hne. contradiction. }
  rewrite Hst3, F9.
  destruct Hcases as [Hc|[Hc|[Hc|Hc]]]; rewrite Hc; cbn [decide];
    [exists GameEvent_FlopRoundEntered, (set_status (with_Round "flop") g3)
    |exists GameEvent_TurnRoundEntered, (set_status (with_Round "turn") g3)
    |exists GameEvent_RiverRoundEntered, (set_status (with_Round "river") g3)
    |exists GameEvent_GameCompleted, g3];
    (split; [reflexivity|]);
    rewrite <- GetAlivePlayerCount_count;
    try (change (GetAlivePlayerCount (set_status (with_Round _) g3))
           with (GetAlivePlayerCount g3));
    cbn [set_status gs status Players with_Round PreviousRaiseSize CurrentWager MaxWager
           CurrentRoundPot CurrentRaiser Board Burned CurrentDeckPosition Round];
    rewrite ?Hst3;
    do 10 (split; [done|]);
    (split; [intros Ha1; contradiction|]);
    (split; [intros Hr; try done; congruence|]);
    intros _; repeat split; intros; congruence.
Qed.

Lemma Next_round_advancement_witness :
  ∃ ev g', Next game3_river = Some (Emit ev g')
    ∧ Round (status (gs game3_river)) = "river" ∧ ev = GameEvent_GameCompleted
    ∧ CurrentWager (status (gs g')) = 0
    ∧ (Pot <$> Players (gs g')) = [0; 30; 0]
    ∧ (Wager <$> Players (gs g')) = [0; 0; 0].
Proof.
  destruct (Next_round_advancement game3_river 0
              (mkPlayerState 0 ["dealer"] 1000 1000 1000 0 0 false false false "" [] []))
    as (ev & g' & HN & _ & HW & _ & _ & _ & _ & _ & _ & _ & _ & _ & Hriver & _).
  - apply (wf_game_ext game3); [reflexivity|reflexivity|apply wf_game3].
  - by vm_compute.
  - by vm_compute.
  - by vm_compute.
  - set_solver.
  - exists ev, g'. split; [exact HN|]. split; [reflexivity|].
    split; [apply Hriver; reflexivity|]. split; [exact HW|].
    revert HN. vm_compute. intros [= <- <-]. split; reflexivity.
Defined.

(** ** Round openers *)

(** C4 (as amended). In a round other than preflop, with a dealer, [StartRound]
    makes the dealer's seat the current player, whether or not the dealer
    has folded or is out of chips, and emits [RoundStarted]: no seat is
    searched.  [RequestPlayerAction], applied to the state so reached, closes
    the round or passes the turn to the seat that follows the dealer, again
    whatever the fold flag and the stack of that seat. *)
Theorem StartRound_postflop_at_dealer (g : game) (d : nat) (pd : PlayerState) :
  wf_game g →
  in_int64 (GetPlayerCount g) →
  dealer g = Some d →
  Players (gs g) !! d = Some pd →
  -1 <= CurrentPlayer (status (gs g)) < GetPlayerCount g →
  Round (status (gs g)) ≠ "preflop" →
  ∃ g', StartRound g = Some (Emit GameEvent_RoundStarted g')
    ∧ CurrentPlayer (status (gs g')) = Idx pd
    ∧ (Fold <$> Players (gs g')) = (Fold <$> Players (gs g))
    ∧ (StackSize <$> Players (gs g')) = (StackSize <$> Players (gs g))
    ∧ (RequestPlayerAction g' = Some (Emit GameEvent_RoundClosed g')
       ∨ ∃ g'', RequestPlayerAction g' = Some (Done g'')
                ∧ CurrentPlayer (status (gs g''))
                  = (Idx pd + 1) `mod` GetPlayerCount g).
Proof.
  intros Hwf Hint Hd Hpd Hcur Hround. unfold StartRound, ResetAllPlayerAllowedActions.
  destruct (for_all_players Reset g d pd)
    as (l & g1 & Hl & Hg1 & Hm1 & Hs1 & Hreg1 & Hd1 & _ & _ & Hp1); try done.
  rewrite Hl. cbn [mbind option_bind]. rewrite Hg1. cbn [mbind option_bind].
  rewrite Hs1. rewrite decide_False by done.
  assert (Hwf1 : wf_game g1) by (by apply (wf_game_fmap Reset g g1)).
  assert (Hlen1 : GetPlayerCount g1 = GetPlayerCount g)
    by (unfold GetPlayerCount; rewrite Hp1, length_fmap; done).
  assert (Hpd1 : Players (gs g1) !! d = Some (Reset pd))
    by (rewrite Hp1, list_lookup_fmap, Hpd; done).
  destruct (SetCurrentPlayer_Some g1 d (Reset pd) Hwf1)
    as (g2 & Hg2 & Hc2 & Hsc2 & Hsa2 & Hm2 & Hreg2 & Hd2 & _); [by rewrite Hs1, Hlen1|done|].
  unfold StartAtDealer, Dealer. rewrite Hd1, Hd, Hg2. cbn.
  exists g2. split; [done|]. split; [done|].
  assert (Hfold : (Fold <$> Players (gs g2)) = (Fold <$> Players (gs g))).
  { transitivity (Fold <$> Players (gs g1)).
    - unfold same_but_actions in Hsa2.
      assert (E : ∀ k : list PlayerState,
                 (Fold <$> k) = (Fold <$> (with_AllowedActions [] <$> k)))
        by (intros k; by rewrite <- list_fmap_compose).
      rewrite (E (Players (gs g2))), (E (Players (gs g1))), Hsa2. done.
    - rewrite Hp1, <- list_fmap_compose. done. }
  assert (Hstack : (StackSize <$> Players (gs g2)) = (StackSize <$> Players (gs g))).
  { transitivity (StackSize <$> Players (gs g1)).
    - unfold same_but_actions in Hsa2.
      assert (E : ∀ k : list PlayerState,
                 (StackSize <$> k) = (StackSize <$> (with_AllowedActions [] <$> k)))
        by (intros k; by rewrite <- list_fmap_compose).
      rewrite (E (Players (gs g2))), (E (Players (gs g1))), Hsa2. done.
    - rewrite Hp1, <- list_fmap_compose. done. }
  split; [done|]. split; [done|].
  assert (Hwf2 : wf_game g2).
  { apply (wf_game_ext g1); [done| |done]. by apply same_but_actions_Idx. }
  assert (Hlen2 : GetPlayerCount g2 = GetPlayerCount g).
  { unfold GetPlayerCount in *. rewrite (same_but_actions_length _ _ Hsa2). done. }
  pose proof (wf_lookup_in_range _ _ _ Hpd) as Hrange.
  destruct (Hwf _ _ Hpd) as [Hidx _].
  destruct (RequestPlayerAction_cases g2 Hwf2) as [Hclose Hnext].
  { by rewrite Hlen2. }
  { rewrite Hc2, Hlen2. cbn. lia. }
  destruct (decide (GetAlivePlayerCount g2 = 1 ∨ GetMovablePlayerCount g2 = 0)) as [Hc|Hc].
  { left. by apply Hclose. }
  destruct (Hnext Hc) as (h & ps & _ & _ & Hidxn & Hact).
  rewrite Hc2, Hlen2 in Hidxn. change (Idx (Reset pd)) with (Idx pd) in Hidxn.
  destruct (Acted ps).
  - left. done.
  - right. destruct Hact as (g3 & Hg3 & _ & Hc3). exists g3. split; [done|]. congruence.
Qed.

Lemma StartRound_postflop_at_dealer_witness :
  ∃ g', StartRound game4_dealer_folded = Some (Emit GameEvent_RoundStarted g')
    ∧ CurrentPlayer (status (gs g')) = 0.
Proof.
  destruct (StartRound_postflop_at_dealer game4_dealer_folded 0
              (mkPlayerState 0 ["dealer"] 1000 1000 1000 0 0 false true false "" [] []))
    as (g' & HS & HC & _).
  - apply (wf_game_ext game4); [reflexivity|reflexivity|apply wf_game4].
  - by vm_compute.
  - by vm_compute.
  - by vm_compute.
  - by vm_compute.
  - by vm_compute.
  - exists g'. split; [exact HS|exact HC].
Defined.

(** C4 (as stated) fails: four players enter the flop round, the dealer
    (seat 0) and seat 1 have folded, seats 2 and 3 are movable.  The first
    movable seat clockwise from the dealer is seat 2; [StartRound] emits
    [RoundStarted] with the folded dealer as current player, and the request
    for a player action that follows hands the turn to the folded seat 1. *)
Lemma StartRound_postflop_current_is_folded_dealer :
  movable_count game4_dealer_folded = 2
  ∧ first_movable_from game4_dealer_folded 0 = Some 2
  ∧ match StartRound game4_dealer_folded with
    | Some (Emit ev g') =>
        ev = GameEvent_RoundStarted
        ∧ CurrentPlayer (status (gs g')) = 0
        ∧ (Fold <$> Players (gs g') !! 0%nat) = Some true
        ∧ match RequestPlayerAction g' with
          | Some (Done g'') =>
              CurrentPlayer (status (gs g'')) = 1
              ∧ (Fold <$> Players (gs g'') !! 1%nat) = Some true
          | _ => False
          end
    | _ => False
    end.
Proof. vm_compute. done. Qed.

(** ** Shuffling *)

(** C9. For every store, every slice [cards] in it and every outcome of the
    random sources, both [ShuffleCards] (the single pass of deck.go and the
    four-pass variant) return a slice at a fresh address whose contents are
    a permutation of the input, of the same length, and leave every array
    that existed before the call — the input among them — as it was. *)
Theorem ShuffleCards_permutation
    (ent : Entropy) (cards : nat) (l : list string) (σ : store) :
  σ !! cards = Some l →
  (∃ r σ' l', Deck.ShuffleCards ent cards σ = Some (r, σ')
     ∧ σ' !! r = Some l' ∧ l' ≡ₚ l ∧ length l' = length l
     ∧ r ≠ cards ∧ σ' !! cards = Some l ∧ preserves σ σ')
  ∧ (∃ r σ' l', DeckMultiPass.ShuffleCards ent cards σ = Some (r, σ')
     ∧ σ' !! r = Some l' ∧ l' ≡ₚ l ∧ length l' = length l
     ∧ r ≠ cards ∧ σ' !! cards = Some l ∧ preserves σ σ').
Proof.
  intros Hc.
  assert (Hdom : cards ∈ dom σ) by (apply elem_of_dom; eauto).
  split.
  - destruct (ShuffleCards_single ent cards l σ Hc)
      as (r & σ' & l' & HS & Hr & Hp & Hl & Hfresh & Hpres).
    exists r, σ', l'. repeat (split; [done|]).
    split; [by eapply fresh_ne|]. split; [|done].
    rewrite (Hpres cards Hdom). done.
  - destruct (ShuffleCards_multi ent cards l σ Hc)
      as (r & σ' & l' & HS & Hr & Hp & Hl & Hfresh & Hpres).
    exists r, σ', l'. repeat (split; [done|]).
    split; [by eapply fresh_ne|]. split; [|done].
    rewrite (Hpres cards Hdom). done.
Qed.

Lemma ShuffleCards_permutation_witness :
  (∃ r σ' l', Deck.ShuffleCards entropy0 4 store0 = Some (r, σ')
     ∧ σ' !! r = Some l'
     ∧ l' ≡ₚ ["SA"; "SK"; "SQ"; "SJ"; "ST"; "S9"; "S8"; "S7"; "S6"]
     ∧ length l' = 9%nat
     ∧ r ≠ 4%nat
     ∧ σ' !! 4%nat = Some ["SA"; "SK"; "SQ"; "SJ"; "ST"; "S9"; "S8"; "S7"; "S6"]
     ∧ preserves store0 σ')
  ∧ (∃ r σ' l', DeckMultiPass.ShuffleCards entropy0 4 store0 = Some (r, σ')
     ∧ σ' !! r = Some l'
     ∧ l' ≡ₚ ["SA"; "SK"; "SQ"; "SJ"; "ST"; "S9"; "S8"; "S7"; "S6"]
     ∧ length l' = 9%nat
     ∧ r ≠ 4%nat
     ∧ σ' !! 4%nat = Some ["SA"; "SK"; "SQ"; "SJ"; "ST"; "S9"; "S8"; "S7"; "S6"]
     ∧ preserves store0 σ').
Proof.
  apply (ShuffleCards_permutation entropy0 4
           ["SA"; "SK"; "SQ"; "SJ"; "ST"; "S9"; "S8"; "S7"; "S6"] store0).
  by vm_compute.
Defined.

Example fnv64a_test_vector : fnv64a "a" = 12638187200555641996%N.
Proof. by vm_compute. Qed.

Example ShuffleCards_run :
  (match Deck.ShuffleCards entropy0 4 store0 with
   | Some (r, σ) => Some (r, σ !! r, σ !! 4%nat)
   | None => None
   end)
  = Some (5%nat,
          Some ["S7"; "S6"; "SA"; "SQ"; "S9"; "ST"; "SK"; "S8"; "SJ"],
          Some ["SA"; "SK"; "SQ"; "SJ"; "ST"; "S9"; "S8"; "S7"; "S6"]).
Proof. by vm_compute. Qed.

Example ShuffleCards_multipass_run :
  (match DeckMultiPass.ShuffleCards entropy0 4 store0 with
   | Some (r, σ) => Some (r, σ !! r, σ !! 4%nat)
   | None => None
   end)
  = Some (5%nat,
          Some ["ST"; "S8"; "SQ"; "S9"; "S7"; "SK"; "S6"; "SA"; "SJ"],
          Some ["SA"; "SK"; "SQ"; "SJ"; "ST"; "S9"; "S8"; "S7"; "S6"]).
Proof. by vm_compute. Qed.

(** ** Chip conservation *)

(** C1 (as amended). For a game built from options whose bankrolls are
    amounts an [int64] holds and whose ante is not negative, in every state
    reached from a successful [Start] by accepted operations (ReadyForAll,
    PayAnte, PayBlinds, Next, Pass, Fold, Check, Call, Allin, Bet, Raise),
    the sum over all players of stack + wager + pot equals the sum of the
    initial bankrolls; the bankrolls are the initial ones and no stack, wager
    or pot is negative.  The totals of the pot layers are not part of the
    sum: the layers are rebuilt from the pot fields of the players. *)
Theorem chips_conserved (opts : GameOptions) (ent : Entropy) (g0 g : game) :
  NewGame opts = Some g0 →
  options_ok opts →
  reachable ent g0 g →
  chips_in_play g = bankroll_total g0
  ∧ bankroll_total g = bankroll_total g0
  ∧ Forall (λ p, 0 <= StackSize p ∧ 0 <= Wager p ∧ 0 <= Pot p) (Players (gs g)).
Proof.
  intros Hnew Hok Hreach.
  pose proof (reachable_inv opts ent g0 g Hnew Hok Hreach) as Hinv.
  split; [|split].
  - by apply chips_inv_sum.
  - destruct Hinv as (HB & _). unfold bankroll_total. by rewrite HB.
  - destruct Hinv as (_ & Hseats & _).
    eapply Forall_impl; [exact Hseats|]. intros p (H1 & H2 & H3 & _). done.
Qed.

Lemma chips_conserved_witness :
  ∃ g, play entropy0 walkover game3 = Some (Done g)
       ∧ chips_in_play g = bankroll_total game3.
Proof.
  destruct (play entropy0 walkover game3) as [[g|e g|ev g]|] eqn:Hplay;
    try (vm_compute in Hplay; discriminate Hplay).
  exists g. split; [reflexivity|].
  apply (chips_conserved options3 entropy0 game3 g).
  - by vm_compute.
  - split; [repeat constructor; by vm_compute|by vm_compute].
  - by apply (reachable_play entropy0 walkover).
Defined.

(** C1 (as stated) fails: three players with 1000 chips each, blinds 5 and
    10; the dealer and the small blind fold before the flop and [Next]
    completes the game.  The players still hold 3000 chips in stack, wager
    and pot, and the pot layers built at the settlement hold the 15 chips of
    the blinds a second time. *)
Lemma pot_layers_counted_twice :
  ∃ g, play entropy0 walkover game3 = Some (Done g)
       ∧ reachable entropy0 game3 g
       ∧ bankroll_total game3 = 3000
       ∧ chips_in_play g = 3000
       ∧ layers_total g = 15
       ∧ chips_in_play g + layers_total g ≠ bankroll_total game3.
Proof.
  destruct (play entropy0 walkover game3) as [[g|e g|ev g]|] eqn:Hplay;
    try (vm_compute in Hplay; discriminate Hplay).
  exists g. split; [reflexivity|].
  split; [by apply (reachable_play entropy0 walkover)|].
  vm_compute in Hplay. injection Hplay as <-.
  vm_compute. repeat split; congruence.
Qed.

(** The layers of the specification's side-pot scenario. *)
Example side_pot_scenario :
  pot_layers four_contributors
  = [mkPotLayer 40 [0; 1; 2; 3] 160 []; mkPotLayer 60 [0; 1; 3] 180 []].
Proof. by vm_compute. Qed.

(** The hands of the short-stack tests are accepted operation by operation
    and end with the game closed. *)
Example poor_dealer_hand :
  summary (play entropy0 hand_poor_dealer
             (default emptyGame (NewGame options_poor_dealer)))
  = Some ("GameClosed",
          [(0, 0, 10); (9680, 0, 320); (9680, 0, 320); (9680, 0, 320)],
          [40; 930]).
Proof. by vm_compute. Qed.

Example poor_small_blind_hand :
  summary (play entropy0 hand_poor_sb
             (default emptyGame (NewGame options_poor_sb)))
  = Some ("GameClosed",
          [(9680, 0, 320); (0, 0, 15); (9680, 0, 320); (9680, 0, 320)],
          [60; 915]).
Proof. by vm_compute. Qed.

(** * Further properties of the game object *)

(** ** Dealing and burning *)

(** X1 ([Deal]).  When [count] is not negative and the deck holds [count]
    more cards from the current deck position on, [Deal(count)] returns
    exactly the next [count] cards of the deck, in deck order, and moves the
    deck position forward by [count]; nothing else of the game changes. *)
Theorem Deal_takes_next_cards (count : Z) (g : game) :
  let pos := CurrentDeckPosition (status (gs g)) in
  0 <= count → 0 <= pos →
  pos + count <= Z.of_nat (length (Deck (meta (gs g)))) →
  in_int64 (Z.of_nat (length (Deck (meta (gs g))))) →
  Deal count g
  = Some (deck_slice g pos count,
          set_status (with_CurrentDeckPosition (pos + count)) g)
  ∧ Z.of_nat (length (deck_slice g pos count)) = count
  ∧ ∀ j : nat, Z.of_nat j < count →
      deck_slice g pos count !! j = Deck (meta (gs g)) !! (Z.to_nat pos + j)%nat.
Proof.
  cbn zeta. intros Hc Hpos Hlen Hint. split; [by apply Deal_exact|]. split.
  - by apply deck_slice_length.
  - intros j Hj. by apply deck_slice_lookup.
Qed.

Lemma Deal_takes_next_cards_witness :
  Deal 3 game3_flop
  = Some (["S8"; "S7"; "S6"],
          set_status (with_CurrentDeckPosition 9) game3_flop).
Proof.
  destruct (Deal_takes_next_cards 3 game3_flop) as [H _];
    [lia | by vm_compute | by vm_compute | by vm_compute |].
  exact H.
Defined.

(** X2 ([Deal]).  [Deal] panics when it is asked for a negative number of
    cards (the capacity of [make]) or for more cards than the deck holds
    from the current position on (the index runs past the deck). *)
Theorem Deal_panics_past_deck (count : Z) (g : game) :
  let pos := CurrentDeckPosition (status (gs g)) in
  0 <= pos →
  in_int64 (Z.of_nat (length (Deck (meta (gs g))))) →
  in_int64 (pos + count) →
  count < 0 ∨ (0 < count ∧ Z.of_nat (length (Deck (meta (gs g)))) < pos + count) →
  Deal count g = None.
Proof.
  cbn zeta. intros Hpos Hint Hsum [Hneg | [Hc Hlen]]; unfold Deal.
  - by rewrite decide_True by lia.
  - rewrite decide_False by lia. cbn zeta. rewrite wrap64_small by done.
    destruct (Z.to_nat (CurrentDeckPosition (status (gs g)) + count
                        - CurrentDeckPosition (status (gs g)))) as [|k] eqn:E; [lia|].
    apply deal_loop_short; (done || lia).
Qed.

Lemma Deal_panics_past_deck_witness : Deal 22 game3_flop = None.
Proof.
  apply (Deal_panics_past_deck 22 game3_flop);
    [by vm_compute | by vm_compute | by vm_compute | right; by vm_compute].
Defined.

(** X3 ([Deal]).  Dealing [a] cards and then [b] cards hands out the same
    cards, and leaves the same game, as dealing [a + b] cards at once. *)
Theorem Deal_sequential (a b : Z) (g : game) :
  let pos := CurrentDeckPosition (status (gs g)) in
  0 <= a → 0 <= b → 0 <= pos →
  pos + a + b <= Z.of_nat (length (Deck (meta (gs g)))) →
  in_int64 (Z.of_nat (length (Deck (meta (gs g))))) →
  ∃ ca cb ga gb,
    Deal a g = Some (ca, ga) ∧ Deal b ga = Some (cb, gb)
    ∧ Deal (a + b) g = Some (ca ++ cb, gb).
Proof.
  cbn zeta. intros Ha Hb Hpos Hlen Hint.
  eexists _, _, _, _. split; [apply Deal_exact; (done || lia)|].
  split; [apply Deal_exact; cbn; (done || lia)|].
  rewrite Deal_exact by (done || lia). cbn.
  rewrite deck_slice_app by done. by rewrite Z.add_assoc.
Qed.

Lemma Deal_sequential_witness :
  ∃ ca cb ga gb,
    Deal 1 game3_flop = Some (ca, ga) ∧ Deal 3 ga = Some (cb, gb)
    ∧ Deal (1 + 3) game3_flop = Some (ca ++ cb, gb).
Proof.
  apply (Deal_sequential 1 3 game3_flop); (lia || by vm_compute).
Defined.

(** ** Initialising a round *)



(** X5 ([InitializeRound], [StartAtDealer]).  Without a dealer,
    [InitializeRound] fails in the flop, turn and river rounds with
    [ErrNotFoundDealer], but only after the cards were burned and dealt:
    the state it leaves has the board extended and the deck position moved,
    and no [RoundInitialized] is emitted. *)
Theorem InitializeRound_without_dealer (g : game) :
  let pos := CurrentDeckPosition (status (gs g)) in
  let c := if decide (Round (status (gs g)) = "flop") then 3 else 1 in
  dealer g = None →
  Round (status (gs g)) ∈ ["flop"; "turn"; "river"] →
  0 <= pos →
  pos + 1 + c <= Z.of_nat (length (Deck (meta (gs g)))) →
  in_int64 (Z.of_nat (length (Deck (meta (gs g))))) →
  ∃ g', InitializeRound g = Some (Fail ErrNotFoundDealer g')
    ∧ Burned (status (gs g')) = Burned (status (gs g)) ++ deck_slice g pos 1
    ∧ Board (status (gs g')) = Board (status (gs g)) ++ deck_slice g (pos + 1) c
    ∧ CurrentDeckPosition (status (gs g')) = pos + 1 + c
    ∧ g' ≠ g.
Proof.
  cbn zeta. intros Hd HR Hpos Hlen Hint.
  set (c := if decide (Round (status (gs g)) = "flop") then 3 else 1) in *.
  assert (Hc : 0 < c) by (unfold c; case_decide; lia).
  rewrite (InitializeRound_postflop g HR). fold c.
  rewrite deal_board_exact by (done || lia).
  set (g3 := set_status _ g).
  exists g3. unfold StartAtDealer, Dealer.
  change (dealer g3) with (dealer g). rewrite Hd. cbn.
  do 4 (split; [done|]).
  intros E. apply (f_equal (λ x, CurrentDeckPosition (status (gs x)))) in E.
  cbn in E. lia.
Qed.

Lemma InitializeRound_without_dealer_witness :
  ∃ g', InitializeRound game_no_dealer_flop = Some (Fail ErrNotFoundDealer g')
    ∧ Board (status (gs g')) = ["SK"; "SQ"; "SJ"]
    ∧ CurrentDeckPosition (status (gs g')) = 4.
Proof.
  destruct (InitializeRound_without_dealer game_no_dealer_flop)
    as (g' & H1 & H2 & H3 & H4 & _).
  - by vm_compute.
  - set_solver.
  - by vm_compute.
  - by vm_compute.
  - by vm_compute.
  - exists g'. by repeat split.
Defined.



(** ** Seats, counts and the raiser *)

(** X7 ([GetPlayers]).  In a game built seat by seat, [GetPlayers] returns
    every seat exactly once, the dealer first and the others in clockwise
    order: its [j]-th entry is the player at seat [(dealer + j) mod n]. *)
Theorem GetPlayers_dealer_first (g : game) (d : nat) (pd : PlayerState) :
  let n := GetPlayerCount g in
  wf_game g → in_int64 n →
  dealer g = Some d → Players (gs g) !! d = Some pd →
  ∃ l, GetPlayers g = Some (Some <$> l)
    ∧ length l = length (Players (gs g))
    ∧ l !! 0%nat = Some d
    ∧ (∀ j : nat, (j < length (Players (gs g)))%nat →
         l !! j = Some (Z.to_nat ((Z.of_nat d + Z.of_nat j) `mod` n)))
    ∧ NoDup l
    ∧ ∀ i : nat, i ∈ l ↔ (i < length (Players (gs g)))%nat.
Proof.
  cbn zeta. intros Hwf Hint Hd Hpd.
  destruct (Hwf d pd Hpd) as [Hidx _].
  pose proof (wf_lookup_in_range g d pd Hpd) as Hrange.
  destruct (GetPlayers_all g d pd Hwf Hint Hd Hpd) as (l & HG & Hnd & Hall).
  exists l. split; [done|].
  assert (HG' : Some <$> l
                = (λ s, Some (Z.to_nat s))
                    <$> seats_from (length (Players (gs g))) (Z.of_nat d) (GetPlayerCount g)).
  { revert HG. unfold GetPlayers, Dealer, SeatIndex. rewrite Hd. cbn [mbind option_bind].
    rewrite Hpd. cbn [fmap option_fmap option_map mbind option_bind].
    rewrite getPlayers_loop_seats by (done || lia). cbn [app]. rewrite Hidx.
    by intros [= <-]. }
  assert (Hlen : length l = length (Players (gs g))).
  { apply (f_equal length) in HG'. by rewrite !length_fmap, seats_from_length in HG'. }
  assert (Hj : ∀ j : nat, (j < length (Players (gs g)))%nat →
            l !! j = Some (Z.to_nat ((Z.of_nat d + Z.of_nat j) `mod` GetPlayerCount g))).
  { intros j Hlt. apply (f_equal (λ x, x !! j)) in HG'.
    rewrite !list_lookup_fmap, seats_from_lookup in HG' by (done || lia).
    cbn in HG'. destruct (l !! j); by inversion HG'. }
  split; [done|]. split.
  { rewrite Hj by (unfold GetPlayerCount in Hrange; lia).
    rewrite Z.add_0_r, Z.mod_small by lia. f_equal. lia. }
  done.
Qed.

Lemma GetPlayers_dealer_first_witness :
  GetPlayers game3_dealer_last = Some [Some 2%nat; Some 0%nat; Some 1%nat].
Proof.
  destruct (GetPlayers_dealer_first game3_dealer_last 2%nat
              (mkPlayerState 2 ["dealer"] 1000 1000 1000 0 0 false false false "" [] []))
    as (l & HG & Hlen & _ & Hj & _).
  - apply wf_NewGame_default.
  - by vm_compute.
  - by vm_compute.
  - by vm_compute.
  - rewrite HG. f_equal.
    pose proof (Hj 0%nat) as H0. pose proof (Hj 1%nat) as H1. pose proof (Hj 2%nat) as H2.
    destruct l as [|a [|b [|c [|]]]]; try discriminate Hlen.
    specialize (H0 ltac:(vm_compute; lia)). specialize (H1 ltac:(vm_compute; lia)).
    specialize (H2 ltac:(vm_compute; lia)).
    vm_compute in H0, H1, H2.
    injection H0 as ->. injection H1 as ->. injection H2 as ->. reflexivity.
Defined.

(** X8 ([GetAlivePlayerCount], [GetMovablePlayerCount]).  The alive count is
    the number of seats less the folded ones, the movable count the number
    of seats less those that are folded or without chips; hence
    [0 <= movable <= alive <= seats]. *)
Theorem player_counts (g : game) :
  GetAlivePlayerCount g
  = GetPlayerCount g
    - Z.of_nat (length (filter (λ p, Fold p = true) (Players (gs g))))
  ∧ GetMovablePlayerCount g
    = GetPlayerCount g
      - Z.of_nat (length (filter (λ p, Fold p = true ∨ StackSize p = 0) (Players (gs g))))
  ∧ 0 <= GetMovablePlayerCount g <= GetAlivePlayerCount g
  ∧ GetAlivePlayerCount g <= GetPlayerCount g.
Proof.
  split; [apply foldl_decrement|]. split; [|apply movable_le_alive].
  unfold GetMovablePlayerCount.
  rewrite (foldl_decrement (λ p, Fold p || bool_decide (StackSize p = 0))).
  do 3 f_equal. apply list_filter_iff. intros p.
  rewrite orb_true_iff, bool_decide_eq_true. done.
Qed.

(** X9 ([BecomeRaiser], [ResetActedPlayers]).  After [BecomeRaiser(p)] the
    current raiser is the seat of [p], [p] is the only player marked as
    having acted, [p] is marked as having put chips in voluntarily when it
    holds a wager, and nothing else of any player changes. *)
Theorem BecomeRaiser_marks_only_raiser (g : game) (h : nat) (ps : PlayerState) :
  Players (gs g) !! h = Some ps →
  ∃ g', BecomeRaiser h g = Some g'
    ∧ status (gs g') = with_CurrentRaiser (Idx ps) (status (gs g))
    ∧ meta (gs g') = meta (gs g)
    ∧ length (Players (gs g')) = length (Players (gs g))
    ∧ (∀ (i : nat) (p : PlayerState),
         Players (gs g) !! i = Some p →
         Players (gs g') !! i
         = Some (with_Acted (bool_decide (i = h))
                   (if decide (i = h ∧ Wager p > 0) then with_VPIP true p else p)))
    ∧ ∀ (i : nat) (p' : PlayerState),
        Players (gs g') !! i = Some p' → (Acted p' = true ↔ i = h).
Proof.
  intros Hps. unfold BecomeRaiser. rewrite Hps. cbn [mbind option_bind].
  eexists. split; [done|].
  set (g1 := if decide (Wager ps > 0) then _ else g).
  assert (H1 : ∀ i, Players (gs g1) !! i
                    = (λ p, if decide (i = h ∧ Wager p > 0) then with_VPIP true p else p)
                        <$> Players (gs g) !! i).
  { intros i. unfold g1. case_decide as Hw.
    - rewrite lookup_update_player. destruct (decide (h = i)) as [->|Hne].
      + rewrite Hps. cbn. by rewrite decide_True.
      + destruct (Players (gs g) !! i); [|done]. cbn.
        by rewrite decide_False by (intros [? _]; done).
    - destruct (decide (h = i)) as [->|Hne].
      + rewrite Hps. cbn. by rewrite decide_False by (intros [_ ?]; done).
      + destruct (Players (gs g) !! i); [|done]. cbn.
        by rewrite decide_False by (intros [? _]; done). }
  assert (Hst : status (gs g1) = status (gs g) ∧ meta (gs g1) = meta (gs g)).
  { unfold g1. by case_decide. }
  destruct Hst as [Hst Hm].
  assert (HP : ∀ (i : nat) (p : PlayerState),
     Players (gs g) !! i = Some p →
     Players (gs (update_player h (with_Acted true)
                    (ResetActedPlayers (set_status (with_CurrentRaiser (Idx ps)) g1)))) !! i
     = Some (with_Acted (bool_decide (i = h))
               (if decide (i = h ∧ Wager p > 0) then with_VPIP true p else p))).
  { intros i p Hp. rewrite lookup_update_player. cbn.
    rewrite list_lookup_fmap, H1, Hp. cbn.
    destruct (decide (h = i)) as [->|Hne].
    - rewrite bool_decide_eq_true_2 by done. cbn. by case_decide.
    - rewrite bool_decide_eq_false_2 by done. cbn. by case_decide. }
  split; [cbn; by rewrite Hst|]. split; [cbn; done|]. split.
  { unfold update_player, ResetActedPlayers. cbn.
    rewrite length_alter, length_fmap. unfold g1. case_decide; [|done].
    unfold update_player. cbn. by rewrite length_alter. }
  split; [done|].
  intros i p' Hp'.
  destruct (Players (gs g) !! i) as [p|] eqn:Hp.
  - rewrite (HP i p Hp) in Hp'. injection Hp' as <-.
    cbn. apply bool_decide_eq_true.
  - exfalso. revert Hp'. rewrite lookup_update_player. cbn.
    rewrite list_lookup_fmap, H1, Hp. done.
Qed.

Lemma BecomeRaiser_marks_only_raiser_witness :
  ∃ g', BecomeRaiser 1 game3_river = Some g'
    ∧ CurrentRaiser (status (gs g')) = 1
    ∧ (Acted <$> Players (gs g')) = [false; true; false]
    ∧ (VPIP <$> Players (gs g')) = [false; true; false].
Proof.
  destruct (BecomeRaiser_marks_only_raiser game3_river 1
              (mkPlayerState 1 ["sb"] 1000 1000 970 30 0 false false false "" [] []))
    as (g' & H1 & H2 & _).
  - by vm_compute.
  - exists g'. split; [exact H1|]. rewrite H2.
    revert H1. vm_compute. by intros [= <-].
Defined.

(** ** The focus *)

(** X10 ([SetCurrentPlayer], [setCurrentPlayer]).  [SetCurrentPlayer] keeps
    the invariant that only the player in focus holds allowed actions: the
    actions of the player that loses the focus are cleared before the
    focus moves, the current-player index becomes the seat of the new
    player (or [-1] for nil), and with nil no player is left with an
    allowed action. *)
Theorem SetCurrentPlayer_keeps_focus (g : game) (p : option nat) :
  wf_game g → focused g →
  -1 <= CurrentPlayer (status (gs g)) < GetPlayerCount g →
  (∀ h, p = Some h → is_Some (Players (gs g) !! h)) →
  ∃ g', SetCurrentPlayer p g = Some g'
    ∧ focused g' ∧ wf_game g'
    ∧ CurrentPlayer (status (gs g')) = from_option Z.of_nat (-1) p
    ∧ same_but_actions (Players (gs g)) (Players (gs g'))
    ∧ (p = None → Forall (λ ps, AllowedActions ps = []) (Players (gs g'))).
Proof.
  intros Hwf Hfoc Hcur Hp. unfold SetCurrentPlayer.
  assert (H1 : ∃ g1,
    (if decide (CurrentPlayer (status (gs g)) ≠ -1) then
       h ← GetCurrentPlayer g; _ ← Players (gs g) !! h;
       Some (update_player h ResetAllowedActions g)
     else Some g) = Some g1
    ∧ status (gs g1) = status (gs g) ∧ players g1 = players g
    ∧ same_but_actions (Players (gs g)) (Players (gs g1))
    ∧ Forall (λ ps, AllowedActions ps = []) (Players (gs g1))).
  { case_decide as Hc.
    - destruct (lookup_lt_is_Some_2 (Players (gs g))
                  (Z.to_nat (CurrentPlayer (status (gs g))))) as [pc Hpc].
      { unfold GetPlayerCount in Hcur. lia. }
      destruct (Hwf _ _ Hpc) as [Hidx _].
      unfold GetCurrentPlayer.
      replace (CurrentPlayer (status (gs g))) with (Idx pc) by lia.
      rewrite (wf_Player g _ pc Hwf Hpc). cbn [mbind option_bind].
      rewrite Hpc. cbn [mbind option_bind]. eexists. split; [done|].
      split; [done|]. split; [done|].
      split; [apply update_player_same_but_actions|].
      apply Forall_lookup_2. intros i x. rewrite lookup_update_player.
      destruct (Players (gs g) !! i) as [q|] eqn:Hq; [|done]. cbn. intros [= <-].
      case_decide as E; [done|]. cbn.
      destruct (decide (AllowedActions q = [])) as [|Hne]; [done|]. exfalso.
      pose proof (Hfoc i q Hq Hne) as Hi. destruct (Hwf _ _ Hq) as [Hiq _]. lia.
    - exists g. split; [done|]. do 3 (split; [done|]).
      apply Forall_lookup_2. intros i q Hq.
      destruct (decide (AllowedActions q = [])) as [|Hne]; [done|]. exfalso.
      pose proof (Hfoc i q Hq Hne) as Hi. destruct (Hwf _ _ Hq) as [Hiq _]. lia. }
  destruct H1 as (g1 & -> & Hst1 & Hr1 & Hsa1 & Hempty). cbn [mbind option_bind].
  assert (Hwf1 : wf_game g1).
  { apply (wf_game_ext g); [done | by apply same_but_actions_Idx | done]. }
  destruct p as [h|].
  - destruct (Hp h eq_refl) as [ph Hph].
    destruct (same_but_actions_lookup _ _ _ _ Hsa1 Hph) as (ph1 & Hph1 & _).
    destruct (Hwf1 _ _ Hph1) as [Hidx1 _].
    unfold setCurrentPlayer, SeatIndex. rewrite Hph1. cbn [fmap option_fmap option_map mbind option_bind].
    set (g2 := set_status _ g1).
    destruct (GetAllowedActions_is_Some g2 h) as [acts Hacts]; [by exists ph1|].
    rewrite Hacts. cbn [mbind option_bind]. eexists. split; [done|].
    split; [|split; [|split; [|split]]].
    + intros i q. rewrite lookup_update_player. cbn.
      destruct (Players (gs g1) !! i) as [q1|] eqn:Hq1; [|done]. cbn. intros [= <-].
      case_decide as E.
      * subst i. intros _. cbn. congruence.
      * cbn. intros Hne. by rewrite (Forall_lookup_1 _ _ _ _ Hempty Hq1) in Hne.
    + apply (wf_game_ext g1); [done| |done].
      change (Players (gs g1)) with (Players (gs g2)).
      apply same_but_actions_Idx, update_player_same_but_actions.
    + cbn. lia.
    + eapply same_but_actions_trans; [exact Hsa1|].
      apply (update_player_same_but_actions g2).
    + done.
  - cbn. eexists. split; [done|]. split; [|split; [|split; [|split]]]; try done.
    intros i q Hq Hne. cbn in Hq.
    by rewrite (Forall_lookup_1 _ _ _ _ Hempty Hq) in Hne.
Qed.

Lemma SetCurrentPlayer_keeps_focus_witness :
  ∃ g', SetCurrentPlayer (Some 2%nat) game3_raised = Some g'
    ∧ focused g'
    ∧ CurrentPlayer (status (gs g')) = 2.
Proof.
  destruct (SetCurrentPlayer_keeps_focus game3_raised (Some 2%nat))
    as (g' & H1 & H2 & _ & H3 & _).
  - apply (wf_game_ext (default emptyGame (NewGame options3_short)));
      [done | done | apply wf_NewGame_default].
  - intros i ps Hps Hne. exfalso.
    destruct i as [|[|[|i]]]; vm_compute in Hps; try discriminate Hps;
      injection Hps as <-; by apply Hne.
  - by vm_compute.
  - intros h [= <-]. by eexists.
  - exists g'. by repeat split.
Defined.

(** ** Building and loading a game *)

(** X11 ([NewGame], [ApplyOptions], [AddPlayer], [addPlayer]).  [NewGame]
    always yields a game; its players are the settings of the options in
    order, the player at position [i] with seat index [i], a stack and an
    initial stack equal to its bankroll, no wager, no pot and no flag; the
    registry maps exactly the seats [0 .. n-1], seat [i] to the player at
    position [i]; the dealer and the small blind are the last seats that
    hold the position, the big blind the last seat that holds "bb" without
    holding "sb". *)
Theorem NewGame_seats (opts : GameOptions) :
  let l := OPlayers opts in
  ∃ g, NewGame opts = Some g
    ∧ Players (gs g) = seat_states 0 l
    ∧ (∀ (i : nat) (s : PlayerSetting), l !! i = Some s →
         Players (gs g) !! i = Some (seat_state (Z.of_nat i) s))
    ∧ status (gs g) = zeroStatus
    ∧ meta (gs g) = mkMeta (OAnte opts) (OBlind opts) (OLimit opts) (OHoleCardsCount opts)
                      (ORequiredHoleCardsCount opts) (ODeck opts) (OBurnCount opts)
    ∧ (∀ z, players g !! z
            = if decide (0 <= z < Z.of_nat (length l)) then Some (Z.to_nat z) else None)
    ∧ dealer g = last_index (holds "dealer") 0 l None
    ∧ smallBlind g = last_index (holds "sb") 0 l None
    ∧ bigBlind g = last_index (λ s, negb (holds "sb" s) && holds "bb" s) 0 l None.
Proof.
  cbn zeta. unfold NewGame, ApplyOptions.
  set (g0 := mkGame _ _ _ _ _).
  destruct (addPlayers_shape (OPlayers opts) g0)
    as (g & HA & HP & Hm & Hst & Hd & Hsb & Hbb & Hreg).
  exists g. split; [exact HA|]. split; [exact HP|]. split.
  { intros i s Hs. rewrite HP. cbn. by rewrite seat_states_lookup, Hs. }
  split; [done|]. split; [done|]. split.
  { intros z. rewrite Hreg. cbn. change (Z.of_nat 0) with 0.
    case_decide; [done|]. apply lookup_empty. }
  done.
Qed.

(** X12 ([NewGameFromState], [LoadState], [addPlayer]).  Loading the state
    of a freshly built game gives the same game back: the same state, and
    the same registry, dealer, small blind and big blind, rebuilt from the
    positions recorded in the player states. *)
Theorem NewGameFromState_round_trip (opts : GameOptions) :
  ∃ g, NewGame opts = Some g ∧ NewGameFromState (gs g) = Some g.
Proof.
  destruct (NewGame_wf opts) as (g & HN & _ & Hlen & _).
  exists g. split; [exact HN|].
  unfold NewGame, ApplyOptions in HN.
  apply addPlayers_load in HN. cbn in HN.
  unfold NewGameFromState, LoadState. by rewrite Hlen.
Qed.

(** ** Initialising a hand *)

(** X13 ([Initialize], [ResetRoundStatus], [ShuffleCards]).  In a game with
    a dealer, [Initialize] replaces the deck by a permutation of itself,
    sets the minimum bet to the larger of the dealer blind and the big
    blind, clears the wager bookkeeping of the round, makes the dealer both
    the current raiser and the current player, and hands [Initialized] to
    the dispatcher; players, board and deck position are untouched. *)
Theorem Initialize_postcondition (ent : Entropy) (g : game) (d : nat) (pd : PlayerState) :
  dealer g = Some d →
  Players (gs g) !! d = Some pd →
  ∃ g', Initialize ent g = Some (Emit GameEvent_Initialized g')
    ∧ Deck (meta (gs g')) ≡ₚ Deck (meta (gs g))
    ∧ with_Deck [] (meta (gs g')) = with_Deck [] (meta (gs g))
    ∧ MiniBet (status (gs g'))
      = Z.max (BlindDealer (Blind (meta (gs g)))) (BB (Blind (meta (gs g))))
    ∧ CurrentRaiser (status (gs g')) = Idx pd
    ∧ CurrentPlayer (status (gs g')) = Idx pd
    ∧ CurrentWager (status (gs g')) = 0
    ∧ CurrentRoundPot (status (gs g')) = 0
    ∧ MaxWager (status (gs g')) = 0
    ∧ PreviousRaiseSize (status (gs g')) = 0
    ∧ Players (gs g') = Players (gs g)
    ∧ Board (status (gs g')) = Board (status (gs g))
    ∧ Burned (status (gs g')) = Burned (status (gs g))
    ∧ Pots (status (gs g')) = Pots (status (gs g))
    ∧ CurrentDeckPosition (status (gs g')) = CurrentDeckPosition (status (gs g)).
Proof.
  intros Hd Hpd. unfold Initialize. cbn zeta.
  set (g1 := set_meta _ g).
  set (g2 := if decide _ then _ else _).
  assert (H2 : dealer g2 = Some d ∧ Players (gs g2) = Players (gs g)
               ∧ meta (gs g2) = meta (gs g1)
               ∧ with_MiniBet 0 (status (gs g2)) = with_MiniBet 0 (status (gs g))
               ∧ MiniBet (status (gs g2))
                 = Z.max (BlindDealer (Blind (meta (gs g)))) (BB (Blind (meta (gs g))))).
  { unfold g2. cbn. case_decide; cbn; (repeat split; (done || lia)). }
  destruct H2 as (Hd2 & HP2 & Hm2 & Hst2 & Hmb).
  rewrite (ResetRoundStatus_Some g2 d pd) by (done || by rewrite HP2).
  cbn [mbind option_bind]. eexists. split; [done|]. cbn.
  rewrite Hm2. unfold g1. cbn.
  split; [apply shuffle_deck_perm|]. split; [done|]. split; [done|].
  do 6 (split; [done|]). split; [done|].
  assert (Hs : ∀ {A} (f : Status → A), (∀ s z, f (with_MiniBet z s) = f s) →
               f (status (gs g2)) = f (status (gs g))).
  { intros A f Hf. rewrite <- (Hf (status (gs g2)) 0), Hst2. apply Hf. }
  rewrite (Hs _ Board), (Hs _ Burned), (Hs _ Pots), (Hs _ CurrentDeckPosition) by done.
  done.
Qed.

Lemma Initialize_postcondition_witness :
  ∃ g', Initialize entropy0 game3 = Some (Emit GameEvent_Initialized g')
    ∧ Deck (meta (gs g')) ≡ₚ smallDeck
    ∧ MiniBet (status (gs g')) = 10
    ∧ CurrentPlayer (status (gs g')) = 0.
Proof.
  destruct (Initialize_postcondition entropy0 game3 0
              (mkPlayerState 0 ["dealer"] 1000 1000 1000 0 0 false false false "" [] []))
    as (g' & H1 & H2 & _ & H3 & _ & H4 & _).
  - by vm_compute.
  - by vm_compute.
  - exists g'. by repeat split.
Defined.

(** ** Starting the preflop round *)

(** X14 ([StartRound], [NextPlayer], [SetCurrentPlayer]).  In the preflop
    round of a game with a dealer, at least two seats and a movable player,
    [StartRound] walks the focus clockwise from the dealer and leaves it on
    the first seat after the dealer that holds the big blind, or back on
    the dealer when no seat holds it; it hands [RoundStarted] to the
    dispatcher and leaves the chips, the folds and the round alone. *)
Theorem StartRound_preflop_big_blind (g : game) (d : nat) (pd : PlayerState) :
  let n := GetPlayerCount g in
  wf_game g → in_int64 n → 2 <= n →
  dealer g = Some d → Players (gs g) !! d = Some pd →
  -1 <= CurrentPlayer (status (gs g)) < n →
  Round (status (gs g)) = "preflop" →
  GetMovablePlayerCount g ≠ 0 →
  ∃ g', StartRound g = Some (Emit GameEvent_RoundStarted g')
    ∧ CurrentPlayer (status (gs g'))
      = default (Idx pd) (first_bb_after (length (Players (gs g))) (Idx pd) g)
    ∧ same_but_current (status (gs g)) (status (gs g'))
    ∧ (Fold <$> Players (gs g')) = (Fold <$> Players (gs g))
    ∧ (StackSize <$> Players (gs g')) = (StackSize <$> Players (gs g))
    ∧ (Wager <$> Players (gs g')) = (Wager <$> Players (gs g))
    ∧ (Positions <$> Players (gs g')) = (Positions <$> Players (gs g)).
Proof.
  cbn zeta. intros Hwf Hint Hn Hd Hpd Hcur Hround Hmov.
  unfold StartRound, ResetAllPlayerAllowedActions.
  destruct (for_all_players Reset g d pd)
    as (l & g1 & Hl & Hg1 & Hm1 & Hs1 & Hreg1 & Hd1 & _ & _ & Hp1); try done.
  rewrite Hl. cbn [mbind option_bind]. rewrite Hg1. cbn [mbind option_bind].
  rewrite Hs1, Hround. rewrite decide_True by done.
  assert (Hproj : ∀ {A} (f : PlayerState → A), (∀ p, f (Reset p) = f p) →
            (f <$> Players (gs g1)) = (f <$> Players (gs g))).
  { intros A f Hf. rewrite Hp1, <- list_fmap_compose. apply list_fmap_ext.
    intros ? p _. apply Hf. }
  rewrite (movable_count_proj g g1) by (by apply Hproj).
  rewrite decide_False by done.
  assert (Hwf1 : wf_game g1) by (by apply (wf_game_fmap Reset g g1)).
  assert (Hlen1 : GetPlayerCount g1 = GetPlayerCount g)
    by (unfold GetPlayerCount; rewrite Hp1, length_fmap; done).
  assert (Hpd1 : Players (gs g1) !! d = Some (Reset pd))
    by (rewrite Hp1, list_lookup_fmap, Hpd; done).
  destruct (SetCurrentPlayer_Some g1 d (Reset pd) Hwf1)
    as (g2 & Hg2 & Hc2 & Hsc2 & Hsa2 & Hm2 & Hreg2 & Hd2 & _); [by rewrite Hs1, Hlen1|done|].
  unfold Dealer. rewrite Hd1, Hd, Hg2. cbn [mbind option_bind].
  assert (Hlen2 : GetPlayerCount g2 = GetPlayerCount g).
  { unfold GetPlayerCount in *. by rewrite (same_but_actions_length _ _ Hsa2). }
  destruct (Hwf d pd Hpd) as [Hidx _].
  pose proof (wf_lookup_in_range g d pd Hpd) as Hrange.
  destruct (seek_bb_spec g1 (length (Players (gs g2))) g2)
    as (g3 & Hg3 & Hc3 & Hsc3 & Hsa3 & Hm3 & Hreg3).
  { apply (wf_game_ext g1); [done | by apply same_but_actions_Idx | done]. }
  { by rewrite Hlen2. }
  { by rewrite Hlen2. }
  { rewrite Hlen2, Hc2. cbn. lia. }
  { done. }
  rewrite Hg3. cbn [mbind option_bind]. exists g3. split; [done|].
  assert (Hall : ∀ {A} (f : PlayerState → A),
            (∀ p, f (Reset p) = f p) → (∀ p a, f (with_AllowedActions a p) = f p) →
            (f <$> Players (gs g3)) = (f <$> Players (gs g))).
  { intros A f Hf1 Hf2.
    rewrite (same_but_actions_proj f _ _ Hf2 Hsa3),
            (same_but_actions_proj f _ _ Hf2 Hsa2).
    by apply Hproj. }
  split.
  { rewrite Hc3, Hc2, Hlen2. cbn [Idx Reset with_Acted with_AllowedActions].
    replace (length (Players (gs g2))) with (length (Players (gs g)))
      by (unfold GetPlayerCount in Hlen2; lia).
    rewrite (first_bb_after_ext _ _ g g1) by (by apply Hproj).
    destruct (first_bb_after _ _ g); [done|]. cbn.
    unfold GetPlayerCount. rewrite <- (Z.mul_1_l (Z.of_nat (length (Players (gs g))))) at 1.
    rewrite Z_mod_plus_full. apply Z.mod_small. unfold GetPlayerCount in Hrange. lia. }
  split.
  { unfold same_but_current in *. by rewrite Hsc3, Hsc2, Hs1. }
  by repeat split; apply Hall.
Qed.

Lemma StartRound_preflop_big_blind_witness :
  ∃ g', StartRound game3_preflop = Some (Emit GameEvent_RoundStarted g')
    ∧ CurrentPlayer (status (gs g')) = 2.
Proof.
  destruct (StartRound_preflop_big_blind game3_preflop 0
              (mkPlayerState 0 ["dealer"] 1000 1000 1000 0 0 false false false "" [] []))
    as (g' & H1 & H2 & _).
  - apply (wf_game_ext game3); [done | done | apply wf_game3].
  - by vm_compute.
  - by vm_compute.
  - by vm_compute.
  - by vm_compute.
  - by vm_compute.
  - by vm_compute.
  - by vm_compute.
  - exists g'. split; [exact H1|]. rewrite H2. by vm_compute.
Defined.

(** ** Resetting the players between rounds *)

(** X15 ([ResetAllPlayerStatus], [GetPlayers]).  Wherever the dealer sits,
    [ResetAllPlayerStatus] resets every seat exactly once: each player
    loses its allowed actions and is tagged with the action that keeps it
    out of the next round, "fold" for a folded player, "allin" for a player
    without chips, and no tag otherwise; cards, flags, bankroll and
    positions are kept, and so are the status and the settings of the
    game. *)
Theorem ResetAllPlayerStatus_tags (g : game) (d : nat) (pd : PlayerState) :
  wf_game g → in_int64 (GetPlayerCount g) →
  dealer g = Some d → Players (gs g) !! d = Some pd →
  ∃ g', ResetAllPlayerStatus g = Some g'
    ∧ Players (gs g') = resetPlayerStatus <$> Players (gs g)
    ∧ status (gs g') = status (gs g) ∧ meta (gs g') = meta (gs g)
    ∧ ∀ (i : nat) (p : PlayerState),
        Players (gs g) !! i = Some p →
        ∃ p', Players (gs g') !! i = Some p'
          ∧ AllowedActions p' = []
          ∧ DidAction p'
            = (if Fold p then "fold" else if decide (StackSize p = 0) then "allin" else "")
          ∧ InitialStackSize p' = StackSize p
          ∧ HoleCards p' = HoleCards p ∧ Fold p' = Fold p ∧ Acted p' = Acted p
          ∧ VPIP p' = VPIP p ∧ Bankroll p' = Bankroll p
          ∧ Positions p' = Positions p ∧ Idx p' = Idx p.
Proof.
  intros Hwf Hint Hd Hpd. unfold ResetAllPlayerStatus.
  destruct (for_all_players resetPlayerStatus g d pd)
    as (l & g' & Hl & Hg' & Hm & Hs & _ & _ & _ & _ & HP); try done.
  rewrite Hl. cbn [mbind option_bind]. exists g'.
  split; [done|]. split; [done|]. split; [done|]. split; [done|].
  intros i p Hp. exists (resetPlayerStatus p).
  split; [by rewrite HP, list_lookup_fmap, Hp|].
  unfold resetPlayerStatus. cbn.
  destruct (Fold p) eqn:HF; cbn; [by rewrite HF|].
  case_decide; cbn; by rewrite ?HF.
Qed.

Lemma ResetAllPlayerStatus_tags_witness :
  ∃ g', ResetAllPlayerStatus game3_seat1_folded = Some g'
    ∧ (DidAction <$> Players (gs g')) = [""; "fold"; ""].
Proof.
  destruct (ResetAllPlayerStatus_tags game3_seat1_folded 0
              (mkPlayerState 0 ["dealer"] 1000 1000 1000 0 0 false false false "" [] []))
    as (g' & H1 & H2 & _).
  - apply (wf_game_ext game3); [done | done | apply wf_game3].
  - by vm_compute.
  - by vm_compute.
  - by vm_compute.
  - exists g'. split; [exact H1|]. by rewrite H2.
Defined.

(** ** The available actions *)

(** X16 ([GetAvailableActions]).  For a player of the game the list of
    available actions is never empty and never repeats an action; "pass"
    is offered exactly to a folded player or one without chips, and then
    alone; every other player may go all-in; "fold" and "check" exclude
    each other and one of them is offered; "call" comes only with "fold",
    "bet" only with "check", and "bet" and "raise" are never offered
    together.  For nil the list is empty. *)
Theorem GetAvailableActions_shape (g : game) (h : nat) (ps : PlayerState) :
  Players (gs g) !! h = Some ps →
  ∃ l, GetAvailableActions g (Some h) = Some l
    ∧ GetAvailableActions g None = Some []
    ∧ l ≠ [] ∧ NoDup l
    ∧ ("pass" ∈ l ↔ Fold ps = true ∨ StackSize ps = 0)
    ∧ ("pass" ∈ l → l = ["pass"])
    ∧ ("allin" ∈ l ↔ "pass" ∉ l)
    ∧ ("fold" ∈ l ↔ ("pass" ∉ l) ∧ Wager ps < CurrentWager (status (gs g)))
    ∧ ("check" ∈ l ↔ ("pass" ∉ l) ∧ ("fold" ∉ l))
    ∧ ("call" ∈ l → "fold" ∈ l)
    ∧ ("bet" ∈ l → "check" ∈ l ∧ CurrentWager (status (gs g)) = 0)
    ∧ ("raise" ∈ l → "bet" ∉ l)
    ∧ ∀ a, a ∈ l → a ∈ ["pass"; "allin"; "fold"; "call"; "raise"; "check"; "bet"].
Proof.
  intros Hps. unfold GetAvailableActions. rewrite Hps. cbn [mbind option_bind].
  destruct (Fold ps) eqn:HF.
  { eexists. split; [done|]. split; [done|]. split; [done|].
    split; [apply NoDup_singleton|].
    repeat split; set_unfold; intuition (discriminate || lia || congruence || eauto). }
  destruct (decide (StackSize ps = 0)) as [Hz|Hz].
  { eexists. split; [done|]. split; [done|]. split; [done|].
    split; [apply NoDup_singleton|].
    repeat split; set_unfold; intuition (discriminate || lia || congruence || eauto). }
  set (st := status (gs g)).
  destruct (decide (Wager ps < CurrentWager st));
    [ destruct (decide (InitialStackSize ps > CurrentWager st));
      [ destruct (decide (InitialStackSize ps
                          > wrap64 (CurrentWager st + PreviousRaiseSize st))) | ]
    | destruct (decide (InitialStackSize ps >= MiniBet st));
      [ destruct (decide (CurrentWager st = 0)) | ] ];
    cbn [app];
    (eexists; split; [done|]; split; [done|]; split; [done|];
     split; [repeat (apply NoDup_cons_2; [set_unfold; intuition discriminate|]);
             apply NoDup_nil_2|];
     repeat split; set_unfold; intuition (discriminate || lia || congruence || eauto)).
Qed.

Lemma GetAvailableActions_shape_witness :
  GetAvailableActions game3_raised (Some 0%nat) = Some ["allin"; "fold"; "call"].
Proof.
  destruct (GetAvailableActions_shape game3_raised 0
              (mkPlayerState 0 ["dealer"] 15 15 15 0 0 false false false "" [] []))
    as (l & H1 & _).
  - by vm_compute.
  - rewrite H1. revert H1. vm_compute. by intros [= <-].
Defined.

(** ** The decks and the burned pile *)

(** X17 ([NewStandardDeckCards], [NewShortDeckCards]).  The standard deck
    is the 52 cards suit by suit, each suit from 2 up to the ace, without a
    repeated card; the short deck is the 36 cards of the standard deck
    whose rank is not 2, 3, 4 or 5, in the same order. *)
Theorem short_deck_of_standard_deck :
  ∃ std short,
    NewStandardDeckCards = Some std ∧ NewShortDeckCards = Some short
    ∧ std = mjoin ((λ s, (λ p, s +:+ p) <$> CardPoints) <$> CardSuits)
    ∧ short = mjoin ((λ s, (λ p, s +:+ p) <$> drop 4 CardPoints) <$> CardSuits)
    ∧ length std = 52%nat ∧ length short = 36%nat
    ∧ NoDup std
    ∧ short = filter (λ c, card_rank c ∉ ["2"; "3"; "4"; "5"]) std.
Proof.
  eexists _, _. split; [by vm_compute|]. split; [by vm_compute|].
  split; [by vm_compute|]. split; [by vm_compute|].
  split; [done|]. split; [done|]. split.
  - refine (bool_decide_unpack _ _). by vm_compute.
  - by vm_compute.
Qed.

(** X18 ([Burn], [Deal]).  [Burn(count)] moves the next [count] cards of
    the deck to the end of the burned pile and the deck position behind
    them, so that a card dealt afterwards is never a burned one; it panics
    where [Deal] does. *)
Theorem Burn_moves_cards (count : Z) (g : game) :
  let pos := CurrentDeckPosition (status (gs g)) in
  0 <= pos →
  in_int64 (Z.of_nat (length (Deck (meta (gs g))))) →
  in_int64 (pos + count) →
  (0 <= count → pos + count <= Z.of_nat (length (Deck (meta (gs g)))) →
   ∃ g', Burn count g = Some g'
     ∧ Burned (status (gs g')) = Burned (status (gs g)) ++ deck_slice g pos count
     ∧ CurrentDeckPosition (status (gs g')) = pos + count
     ∧ same_but_position (with_Burned [] (status (gs g))) (with_Burned [] (status (gs g')))
     ∧ Players (gs g') = Players (gs g) ∧ meta (gs g') = meta (gs g)
     ∧ ∀ k : Z, 0 <= k →
         pos + count + k <= Z.of_nat (length (Deck (meta (gs g)))) →
         ∃ g'', Deal k g' = Some (deck_slice g (pos + count) k, g''))
  ∧ (count < 0 ∨ (0 < count ∧ Z.of_nat (length (Deck (meta (gs g)))) < pos + count) →
     Burn count g = None).
Proof.
  cbn zeta. intros Hpos Hint Hsum. split.
  - intros Hc Hlen. unfold Burn. rewrite Deal_exact by done.
    cbn [mbind option_bind]. eexists. split; [done|]. cbn.
    do 5 (split; [done|]). intros k Hk Hlen'.
    eexists. rewrite Deal_exact by (cbn; (done || lia)). done.
  - intros [Hneg | [Hc Hlen]]; unfold Burn, Deal.
    + by rewrite decide_True by lia.
    + rewrite decide_False by lia. cbn zeta. rewrite wrap64_small by done.
      destruct (Z.to_nat (CurrentDeckPosition (status (gs g)) + count
                          - CurrentDeckPosition (status (gs g)))) as [|k] eqn:E; [lia|].
      by rewrite deal_loop_short by (done || lia).
Qed.

Lemma Burn_moves_cards_witness :
  ∃ g', Burn 1 game3_flop = Some g'
    ∧ Burned (status (gs g')) = ["S8"]
    ∧ CurrentDeckPosition (status (gs g')) = 7.
Proof.
  destruct (Burn_moves_cards 1 game3_flop) as [H _].
  - by vm_compute.
  - by vm_compute.
  - by vm_compute.
  - destruct H as (g' & H1 & H2 & H3 & _).
    + lia.
    + by vm_compute.
    + exists g'. by repeat split.
Defined.

(** ** Loading a stored state *)

(** X19 ([NewGameFromState], [LoadState], [addPlayer]).  Loading a state
    whose players carry their position as seat index always yields a game:
    the state is taken over as it is, the registry maps exactly the seats
    [0 .. n-1], each to the player at that position, and the dealer, the
    small blind and the big blind are the last seats that hold the
    position (the big blind never a seat that also holds "sb"). *)
Theorem NewGameFromState_registers_seats (s : GameState) :
  (∀ (i : nat) (ps : PlayerState), Players s !! i = Some ps → Idx ps = Z.of_nat i) →
  ∃ g, NewGameFromState s = Some g
    ∧ gs g = s
    ∧ wf_game g
    ∧ (∀ z, players g !! z
            = if decide (0 <= z < Z.of_nat (length (Players s)))
              then Some (Z.to_nat z) else None)
    ∧ dealer g = last_seat (λ p, CheckPosition p "dealer") 0 (Players s) None
    ∧ smallBlind g = last_seat (λ p, CheckPosition p "sb") 0 (Players s) None
    ∧ bigBlind g
      = last_seat (λ p, negb (CheckPosition p "sb") && CheckPosition p "bb") 0
          (Players s) None.
Proof.
  intros Hidx. unfold NewGameFromState, LoadState.
  set (g0 := mkGame _ _ _ _ _).
  destruct (loadPlayers_spec (length (Players s)) 0 g0)
    as (g & HL & Hgs & Hreg & Hd & Hsb & Hbb); [done | done |].
  exists g. split; [exact HL|]. split; [exact Hgs|]. split.
  { intros i ps Hps. rewrite Hgs in Hps. split; [by apply Hidx|].
    rewrite Hreg. apply lookup_lt_Some in Hps. cbn in Hps.
    rewrite decide_True by (cbn; lia). f_equal. lia. }
  split.
  { intros z. rewrite Hreg. cbn. change (Z.of_nat 0) with 0.
    case_decide; [done|]. apply lookup_empty. }
  done.
Qed.

Lemma NewGameFromState_registers_seats_witness :
  NewGameFromState (gs game3_river) = Some game3_river.
Proof.
  destruct (NewGameFromState_registers_seats (gs game3_river))
    as (g & H1 & H2 & _ & _ & H3 & H4 & H5).
  - intros i ps Hps.
    destruct i as [|[|[|i]]]; vm_compute in Hps; try discriminate Hps;
      by injection Hps as <-.
  - rewrite H1. f_equal. destruct g as [s r d sb bb]. cbn in *. subst s.
    revert H1. vm_compute. by intros [= <- <- <- <-].
Defined.

(** ** The offset pass of the four-pass shuffle *)

(** X20 ([ShuffleCards], four-pass variant, pass 3).  The offset mixing of
    the third pass is a rotation of the deck: after the pass the card at
    position [p] is the card that was at position [p - t] modulo [n], where
    [t] is the sum of the offsets smaller than the deck length [n].  For a
    deck of 52 cards the twelve offsets sum to 318, and the pass moves the
    last six cards to the front. *)
Theorem offset_pass_is_rotation (n r : nat) (σ : store) (R : list string) :
  σ !! r = Some R → length R = n →
  ∃ σ' R', offsets_pass offsets n r σ = Some σ'
    ∧ σ' !! r = Some R' ∧ length R' = n
    ∧ (∀ p, (p < n)%nat →
         R' !! p
         = R !! Z.to_nat ((Z.of_nat p
                           - Z.of_nat (sum_list (filter (λ o, (o < n)%nat) offsets)))
                          `mod` Z.of_nat n))
    ∧ (n = 52%nat → R' = drop 46 R ++ take 46 R).
Proof.
  intros Hr HR.
  destruct (offsets_pass_rotation n r offsets σ R Hr HR) as (σ' & R' & HO & Hr' & HL & HP).
  exists σ', R'. do 4 (split; [done|]). intros ->.
  apply (offset_mix_rotation 6 52 R R'); [lia | done | done |].
  intros p Hp. rewrite (HP p Hp). f_equal.
  change (Z.of_nat (sum_list (filter (λ o, (o < 52)%nat) offsets))) with 318.
  apply Nat2Z.inj. rewrite Z2Nat.id by (apply Z.mod_pos_bound; lia).
  rewrite Nat2Z.inj_mod, Nat2Z.inj_sub, Nat2Z.inj_add by lia.
  replace (Z.of_nat p - 318) with (Z.of_nat p + Z.of_nat 52 - Z.of_nat 6 + (-7) * Z.of_nat 52)
    by lia.
  by rewrite Z_mod_plus_full.
Qed.

Lemma offset_pass_is_rotation_witness :
  ∃ σ', offsets_pass offsets 9 4 store0 = Some σ'
    ∧ σ' !! 4%nat = Some ["SQ"; "SJ"; "ST"; "S9"; "S8"; "S7"; "S6"; "SA"; "SK"].
Proof.
  destruct (offset_pass_is_rotation 9 4 store0
              ["SA"; "SK"; "SQ"; "SJ"; "ST"; "S9"; "S8"; "S7"; "S6"])
    as (σ' & R' & H1 & H2 & _).
  - by vm_compute.
  - by vm_compute.
  - exists σ'. split; [exact H1|]. rewrite H2.
    revert H1 H2. vm_compute. intros [= <-]. by vm_compute.
Defined.
